(** * EnhanceMD: the document transformation core

    A shallow embedding of the template engine ([processTemplate] in
    [client/src/hooks/useVariables.ts]), of the smart-component scanner and
    placeholder rewriter ([useSmartComponents.tsx], [SmartComponents.tsx]) and
    of the image helpers ([utils/imageHandler], [handleImageUpload]).

    The program is written against three facilities of its JavaScript host:
    regular expressions ([new RegExp], [String.prototype.replace], [exec]),
    [JSON.parse] and the [Function] constructor.  The first two are embedded
    here for the fragment of the language the program can reach with 7-bit
    text; the third one is a parameter of the development.

    Text is a list of characters, read as code units below 128: white
    space, case mapping and character classes are those of the host on that
    range.  A computation of the program yields a
    value, raises an exception, or leaves the embedded fragment ([Beyond]). *)

From Stdlib Require Import Ascii String List Bool Arith PeanoNat NArith ZArith Lia.
From Stdlib Require Import DecimalString DecimalNat Sorted.
Import ListNotations.

(* ================================================================== *)
(** ** Text *)

Definition text := list ascii.

Definition L (s : string) : text := list_ascii_of_string s.

Definition code (c : ascii) : nat := nat_of_ascii c.

Definition between (lo hi : nat) (c : ascii) : bool :=
  (lo <=? code c) && (code c <=? hi).

Definition is_digit (c : ascii) : bool := between 48 57 c.
Definition is_upper (c : ascii) : bool := between 65 90 c.
Definition is_lower (c : ascii) : bool := between 97 122 c.
Definition is_alpha (c : ascii) : bool := is_upper c || is_lower c.
Definition is_alnum (c : ascii) : bool := is_alpha c || is_digit c.

(** [\w] *)
Definition is_word (c : ascii) : bool := is_alnum c || (code c =? 95).

(** WhiteSpace and LineTerminator of ECMAScript, within 7-bit text:
    TAB, LF, VT, FF, CR and SP. *)
Definition is_space (c : ascii) : bool :=
  between 9 13 c || (code c =? 32).

(** LineTerminator: LF and CR. *)
Definition is_line_terminator (c : ascii) : bool :=
  (code c =? 10) || (code c =? 13).

(** Case mapping on code units below 128, where the host moves the
    letters A..Z and a..z and nothing else.  Above 127 the host's mapping
    is not one character for one (it turns U+00DF into two letters); such
    code units are outside the text of this development, and they are left
    as they are. *)
Definition to_lower_char (c : ascii) : ascii :=
  if is_upper c then ascii_of_nat (code c + 32) else c.

Definition to_upper_char (c : ascii) : ascii :=
  if is_lower c then ascii_of_nat (code c - 32) else c.

(** [String.prototype.toLowerCase], [toUpperCase] *)
Definition toLowerCase (s : text) : text := map to_lower_char s.
Definition toUpperCase (s : text) : text := map to_upper_char s.

Definition text_eqb (a b : text) : bool :=
  if list_eq_dec ascii_dec a b then true else false.

Fixpoint starts_with (p s : text) : bool :=
  match p, s with
  | [], _ => true
  | a :: p', b :: s' => Ascii.eqb a b && starts_with p' s'
  | _ :: _, [] => false
  end.

(** [occurs p s]: [p] is a substring of [s]. *)
Fixpoint occurs (p s : text) : bool :=
  starts_with p s ||
  match s with
  | [] => false
  | _ :: s' => occurs p s'
  end.

(** [String.prototype.indexOf] *)
Fixpoint index_of (p s : text) : option nat :=
  if starts_with p s then Some 0
  else match s with
       | [] => None
       | _ :: s' => option_map S (index_of p s')
       end.

Definition drop_while (f : ascii -> bool) : text -> text :=
  fix go s := match s with
              | c :: s' => if f c then go s' else s
              | [] => []
              end.

(** [String.prototype.trim] *)
Definition trim (s : text) : text :=
  rev (drop_while is_space (rev (drop_while is_space s))).

(** [String.prototype.split] with a one-character separator. *)
Fixpoint split_on (sep : ascii) (s : text) : list text :=
  match s with
  | [] => [[]]
  | c :: s' =>
      if Ascii.eqb c sep then [] :: split_on sep s'
      else match split_on sep s' with
           | piece :: rest => (c :: piece) :: rest
           | [] => [[c]]
           end
  end.

(** [Array.prototype.join] *)
Fixpoint join (sep : text) (l : list text) : text :=
  match l with
  | [] => []
  | [x] => x
  | x :: rest => x ++ sep ++ join sep rest
  end.

(** Decimal numerals of natural numbers, as [String(n)] prints them. *)
Definition decimal (n : nat) : text :=
  L (NilEmpty.string_of_uint (Nat.to_uint n)).

(** The number a run of decimal digits denotes. *)
Definition digits_value (ds : text) : N :=
  fold_left (fun acc c => (acc * 10 + N.of_nat (code c - 48))%N) ds 0%N.

(* ================================================================== *)
(** ** Outcomes *)

Inductive exn : Type :=
| SyntaxError
| TypeError
| Error (message : text).

Inductive res (A : Type) : Type :=
| Val (a : A)
| Exn (e : exn)
| Beyond.

Arguments Val {A} a.
Arguments Exn {A} e.
Arguments Beyond {A}.

Definition bind {A B} (x : res A) (f : A -> res B) : res B :=
  match x with
  | Val a => f a
  | Exn e => Exn e
  | Beyond => Beyond
  end.

Declare Scope res_scope.
Delimit Scope res_scope with res.
Notation "'do' x <- e ; k" := (bind e (fun x => k))
  (at level 10, x pattern, e at level 100, k at level 200) : res_scope.
Open Scope res_scope.

(** [try { body } catch (e) { handler }] *)
Definition try_catch {A} (body : res A) (handler : exn -> res A) : res A :=
  match body with
  | Exn e => handler e
  | other => other
  end.

(** [Array.prototype.map] with a callback that may raise. *)
Fixpoint mapM {A B} (f : A -> res B) (l : list A) : res (list B) :=
  match l with
  | [] => Val []
  | a :: l' => do b <- f a; do bs <- mapM f l'; Val (b :: bs)
  end.

(** [Array.prototype.forEach] over a state that the callback updates. *)
Fixpoint foldM {A S} (f : S -> A -> res S) (l : list A) (s : S) : res S :=
  match l with
  | [] => Val s
  | a :: l' => do s' <- f s a; foldM f l' s'
  end.

(* ================================================================== *)
(** ** Regular expressions

    The abstract syntax of the patterns the program can build, and the
    backtracking matcher of ECMAScript (sec. 22.2.2 of ECMA-262) over it:
    matchers take a continuation, alternatives are tried left to right,
    quantifiers are greedy or lazy and reject empty iterations. *)

Inductive class_item : Type :=
| CChar (c : ascii)
| CRange (lo hi : ascii)
| CDigit (positive : bool)      (* \d  \D *)
| CSpace (positive : bool)      (* \s  \S *)
| CWord (positive : bool).      (* \w  \W *)

Inductive regex : Type :=
| REmpty
| RChar (c : ascii)
| RAny                                          (* .  *)
| RSet (negated : bool) (items : list class_item)  (* [...]  [^...] *)
| RBol                                          (* ^  *)
| REol                                          (* $  *)
| RSeq (a b : regex)
| RAlt (a b : regex)
| RGroup (index : option nat) (body : regex)    (* (...)  (?:...) *)
| RRep (min : nat) (max : option nat) (greedy : bool) (body : regex).

Definition item_matches (c : ascii) (i : class_item) : bool :=
  match i with
  | CChar a => Ascii.eqb c a
  | CRange lo hi => (code lo <=? code c) && (code c <=? code hi)
  | CDigit pos => Bool.eqb (is_digit c) pos
  | CSpace pos => Bool.eqb (is_space c) pos
  | CWord pos => Bool.eqb (is_word c) pos
  end.

Definition set_matches (negated : bool) (items : list class_item) (c : ascii) : bool :=
  xorb negated (existsb (item_matches c) items).

(** Captures: the text of each capturing group that took part in the match. *)
Definition caps := list (nat * text).

Fixpoint get_cap (n : nat) (c : caps) : option text :=
  match c with
  | [] => None
  | (k, v) :: c' => if k =? n then Some v else get_cap n c'
  end.

Definition drop_cap (n : nat) (c : caps) : caps :=
  filter (fun kv => negb (fst kv =? n)) c.

Definition set_cap (n : nat) (v : text) (c : caps) : caps :=
  (n, v) :: drop_cap n c.

(** The capturing groups inside a pattern. *)
Fixpoint groups_of (r : regex) : list nat :=
  match r with
  | RSeq a b | RAlt a b => groups_of a ++ groups_of b
  | RGroup (Some n) a => n :: groups_of a
  | RGroup None a => groups_of a
  | RRep _ _ _ a => groups_of a
  | _ => []
  end.

Definition clear_caps (gs : list nat) (c : caps) : caps :=
  filter (fun kv => negb (existsb (Nat.eqb (fst kv)) gs)) c.

Inductive mres : Type :=
| MFound (rest : text) (c : caps)
| MFail
| MFuel.

Definition orelse (a : mres) (b : unit -> mres) : mres :=
  match a with
  | MFail => b tt
  | other => other
  end.

Definition cont := text -> caps -> mres.
Definition matcher := text -> caps -> cont -> mres.

(** RepeatMatcher.  [fuel] bounds the number of iterations; an iteration
    either lowers [min] or consumes a character, so [min + length inp + 1]
    is never exhausted by a body that consumes its input from the left. *)
Fixpoint rep (fuel : nat) (body : matcher) (clear : caps -> caps)
    (min : nat) (max : option nat) (greedy : bool)
    (inp : text) (c : caps) (k : cont) : mres :=
  match fuel with
  | 0 => MFuel
  | S fuel' =>
      match max with
      | Some 0 => k inp c
      | _ =>
          let d : cont := fun inp' c' =>
            if (min =? 0) && (length inp' =? length inp) then MFail
            else rep fuel' body clear (pred min) (option_map pred max) greedy inp' c' k in
          if negb (min =? 0) then body inp (clear c) d
          else if greedy then orelse (body inp (clear c) d) (fun _ => k inp c)
          else orelse (k inp c) (fun _ => body inp (clear c) d)
      end
  end.

(** [m r total inp c k]: match [r] at the suffix [inp] of a subject of
    length [total], then continue with [k]. *)
Fixpoint m (r : regex) (total : nat) (inp : text) (c : caps) (k : cont) : mres :=
  match r with
  | REmpty => k inp c
  | RChar a =>
      match inp with
      | x :: inp' => if Ascii.eqb x a then k inp' c else MFail
      | [] => MFail
      end
  | RAny =>
      match inp with
      | x :: inp' => if is_line_terminator x then MFail else k inp' c
      | [] => MFail
      end
  | RSet neg items =>
      match inp with
      | x :: inp' => if set_matches neg items x then k inp' c else MFail
      | [] => MFail
      end
  | RBol => if length inp =? total then k inp c else MFail
  | REol => match inp with [] => k inp c | _ :: _ => MFail end
  | RSeq a b => m a total inp c (fun inp' c' => m b total inp' c' k)
  | RAlt a b => orelse (m a total inp c k) (fun _ => m b total inp c k)
  | RGroup None a => m a total inp c k
  | RGroup (Some n) a =>
      m a total inp c
        (fun inp' c' => k inp' (set_cap n (firstn (length inp - length inp') inp) c'))
  | RRep min max greedy a =>
      rep (S (min + length inp)) (m a total) (clear_caps (groups_of a))
          min max greedy inp c k
  end.

(** A match: where it starts, what it covers, and what its groups hold. *)
Record rmatch : Type := {
  m_index : nat;
  m_text : text;
  m_caps : caps
}.

(** One attempt at the suffix [inp], which starts at [pos]. *)
Definition match_here (r : regex) (total pos : nat) (inp : text) : res (option rmatch) :=
  match m r total inp [] (fun rest c => MFound rest c) with
  | MFound rest c =>
      Val (Some {| m_index := pos;
                   m_text := firstn (length inp - length rest) inp;
                   m_caps := c |})
  | MFail => Val None
  | MFuel => Beyond
  end.

(** RegExpBuiltinExec: the first position, from [pos] on, with a match. *)
Fixpoint exec_from (r : regex) (total pos : nat) (inp : text) : res (option rmatch) :=
  do here <- match_here r total pos inp;
  match here with
  | Some mt => Val (Some mt)
  | None =>
      match inp with
      | [] => Val None
      | _ :: inp' => exec_from r total (S pos) inp'
      end
  end.

Definition exec (r : regex) (s : text) : res (option rmatch) :=
  exec_from r (length s) 0 s.

(** Every match of a pattern with the [g] flag, as the loops
    [while ((match = re.exec(s)) !== null)] and [matchAll] meet them: the
    search resumes where the last match ended, one character further after
    an empty match. *)
Fixpoint all_from (r : regex) (total : nat) (skip pos : nat) (inp : text)
  : res (list rmatch) :=
  match skip with
  | S skip' =>
      match inp with
      | [] => Val []
      | _ :: inp' => all_from r total skip' (S pos) inp'
      end
  | 0 =>
      do here <- match_here r total pos inp;
      match here, inp with
      | Some mt, _ :: inp' =>
          do more <- all_from r total (pred (length (m_text mt))) (S pos) inp';
          Val (mt :: more)
      | Some mt, [] => Val [mt]
      | None, _ :: inp' => all_from r total 0 (S pos) inp'
      | None, [] => Val []
      end
  end.

Definition matchAll (r : regex) (s : text) : res (list rmatch) :=
  all_from r (length s) 0 0 s.

(* ================================================================== *)
(** ** Pattern sources: [new RegExp(source)]

    The pattern grammar of ECMAScript without the [u] flag (with the
    lenient rules of its Annex B: a brace that opens no quantifier, a
    closing brace and a closing bracket stand for themselves).  Lookaround,
    back-references, word boundaries and numeric escapes are [Beyond]. *)

Inductive token : Type :=
| TAtom (r : regex)
| TAssert (r : regex)
| TQuant (min : nat) (max : option nat) (greedy : bool)
| TOpen (capturing : bool)
| TClose
| TBar.

Fixpoint span (f : ascii -> bool) (s : text) : text * text :=
  match s with
  | c :: s' => if f c then let (a, b) := span f s' in (c :: a, b) else ([], s)
  | [] => ([], [])
  end.

Definition is_char (a : string) (c : ascii) : bool :=
  match a with
  | String x EmptyString => Ascii.eqb c x
  | _ => false
  end.

(** The characters with a meaning of their own in a pattern. *)
Definition is_syntax_char (c : ascii) : bool :=
  existsb (Ascii.eqb c) (L "\^$.*+?()[]{}|").

(** [{n}], [{n,}], [{n,m}] after an opening brace: the bounds and the
    number of characters up to and including the closing brace. *)
Definition brace_quant (inp : text) : option (res (nat * option nat * nat)) :=
  let (d1, r1) := span is_digit inp in
  let n1 := N.to_nat (digits_value d1) in
  match d1, r1 with
  | [], _ => None
  | _, c :: r2 =>
      if is_char "}" c then Some (Val (n1, Some n1, S (length d1)))
      else if is_char "," c then
        let (d2, r3) := span is_digit r2 in
        let n2 := N.to_nat (digits_value d2) in
        match r3 with
        | c' :: _ =>
            if is_char "}" c' then
              match d2 with
              | [] => Some (Val (n1, None, length d1 + 2))
              | _ => if n1 <=? n2
                     then Some (Val (n1, Some n2, length d1 + length d2 + 2))
                     else Some (Exn SyntaxError)
              end
            else None
        | [] => None
        end
      else None
  | _, [] => None
  end.

(** A quantifier is lazy when a question mark follows it. *)
Definition lazy_suffix (inp : text) : bool :=
  match inp with
  | c :: _ => is_char "?" c
  | [] => false
  end.

Definition quant_token (min : nat) (max : option nat) (used : nat) (after : text)
  : res (token * nat) :=
  if lazy_suffix after then Val (TQuant min max false, S used)
  else Val (TQuant min max true, used).

(** The atom an escape [\e] denotes outside a class. *)
Definition escape_atom (e : ascii) : res regex :=
  if is_char "d" e then Val (RSet false [CDigit true])
  else if is_char "D" e then Val (RSet false [CDigit false])
  else if is_char "s" e then Val (RSet false [CSpace true])
  else if is_char "S" e then Val (RSet false [CSpace false])
  else if is_char "w" e then Val (RSet false [CWord true])
  else if is_char "W" e then Val (RSet false [CWord false])
  else if is_char "n" e then Val (RChar (ascii_of_nat 10))
  else if is_char "t" e then Val (RChar (ascii_of_nat 9))
  else if is_char "r" e then Val (RChar (ascii_of_nat 13))
  else if is_char "f" e then Val (RChar (ascii_of_nat 12))
  else if is_char "v" e then Val (RChar (ascii_of_nat 11))
  else if is_alnum e then Beyond
  else Val (RChar e).

Inductive class_atom : Type :=
| KChar (c : ascii) (dash : bool)   (* [dash]: an unescaped hyphen *)
| KClass (i : class_item).

Definition class_escape (e : ascii) : res class_atom :=
  if is_char "d" e then Val (KClass (CDigit true))
  else if is_char "D" e then Val (KClass (CDigit false))
  else if is_char "s" e then Val (KClass (CSpace true))
  else if is_char "S" e then Val (KClass (CSpace false))
  else if is_char "w" e then Val (KClass (CWord true))
  else if is_char "W" e then Val (KClass (CWord false))
  else if is_char "n" e then Val (KChar (ascii_of_nat 10) false)
  else if is_char "t" e then Val (KChar (ascii_of_nat 9) false)
  else if is_char "r" e then Val (KChar (ascii_of_nat 13) false)
  else if is_char "f" e then Val (KChar (ascii_of_nat 12) false)
  else if is_char "v" e then Val (KChar (ascii_of_nat 11) false)
  else if is_char "b" e then Val (KChar (ascii_of_nat 8) false)
  else if is_alnum e then Beyond
  else Val (KChar e false).

(** The atoms of a class, up to its closing bracket, and the number of
    characters read, the bracket included. *)
Fixpoint class_atoms (inp : text) : res (list class_atom * nat) :=
  match inp with
  | [] => Exn SyntaxError
  | c :: rest =>
      if is_char "]" c then Val ([], 1)
      else if is_char "\" c then
        match rest with
        | [] => Exn SyntaxError
        | e :: rest' =>
            do a <- class_escape e;
            do r <- class_atoms rest';
            Val (a :: fst r, snd r + 2)
        end
      else
        do r <- class_atoms rest;
        Val (KChar c (is_char "-" c) :: fst r, S (snd r))
  end.

Definition item_of (a : class_atom) : class_item :=
  match a with
  | KChar c _ => CChar c
  | KClass i => i
  end.

(** ClassRanges: [a-b] is a range when both ends are characters. *)
Fixpoint class_ranges (l : list class_atom) : res (list class_item) :=
  match l with
  | a :: ((KChar _ true :: b :: rest) as tl) =>
      match a, b with
      | KChar lo _, KChar hi _ =>
          if code lo <=? code hi
          then do its <- class_ranges rest; Val (CRange lo hi :: its)
          else Exn SyntaxError
      | _, _ =>
          do its <- class_ranges rest;
          Val (item_of a :: CChar "-" :: item_of b :: its)
      end
  | a :: tl => do its <- class_ranges tl; Val (item_of a :: its)
  | [] => Val []
  end.

Definition scan_class (inp : text) : res (regex * nat) :=
  match inp with
  | c :: rest =>
      if is_char "^" c then
        do r <- class_atoms rest;
        do its <- class_ranges (fst r);
        Val (RSet true its, S (snd r))
      else
        do r <- class_atoms inp;
        do its <- class_ranges (fst r);
        Val (RSet false its, snd r)
  | [] => Exn SyntaxError
  end.

(** The token that starts with [c], and how many of the characters after
    [c] belong to it. *)
Definition lex_one (c : ascii) (rest : text) : res (token * nat) :=
  if is_char "\" c then
    match rest with
    | [] => Exn SyntaxError
    | e :: _ => do a <- escape_atom e; Val (TAtom a, 1)
    end
  else if is_char "." c then Val (TAtom RAny, 0)
  else if is_char "^" c then Val (TAssert RBol, 0)
  else if is_char "$" c then Val (TAssert REol, 0)
  else if is_char "|" c then Val (TBar, 0)
  else if is_char ")" c then Val (TClose, 0)
  else if is_char "(" c then
    match rest with
    | q :: k :: _ =>
        if is_char "?" q then
          if is_char ":" k then Val (TOpen false, 2)
          else if is_char "=" k || is_char "!" k || is_char "<" k then Beyond
          else Exn SyntaxError
        else Val (TOpen true, 0)
    | [q] => if is_char "?" q then Exn SyntaxError else Val (TOpen true, 0)
    | [] => Val (TOpen true, 0)
    end
  else if is_char "*" c then quant_token 0 None 0 rest
  else if is_char "+" c then quant_token 1 None 0 rest
  else if is_char "?" c then quant_token 0 (Some 1) 0 rest
  else if is_char "{" c then
    match brace_quant rest with
    | Some (Val (mn, mx, n)) => quant_token mn mx n (skipn n rest)
    | Some _ => Exn SyntaxError
    | None => Val (TAtom (RChar c), 0)
    end
  else if is_char "[" c then
    do r <- scan_class rest; Val (TAtom (fst r), snd r)
  else Val (TAtom (RChar c), 0).

Fixpoint tokenize (skip : nat) (inp : text) : res (list token) :=
  match inp with
  | [] => Val []
  | c :: rest =>
      match skip with
      | S k => tokenize k rest
      | 0 =>
          do t <- lex_one c rest;
          do ts <- tokenize (snd t) rest;
          Val (fst t :: ts)
      end
  end.

(** Terms are gathered last first; [seq_of] and [alt_of] put them back in
    reading order. *)
Definition seq_of (terms_rev : list regex) : regex :=
  fold_left (fun acc r => RSeq r acc) terms_rev REmpty.

Definition alt_of (alts_rev : list regex) (last : regex) : regex :=
  fold_left (fun acc a => RAlt a acc) alts_rev last.

Record frame : Type := {
  f_index : option nat;
  f_alts : list regex;
  f_seq : list regex
}.

Record pstate : Type := {
  p_stack : list frame;
  p_alts : list regex;
  p_seq : list regex;
  p_groups : nat;
  p_quantifiable : bool
}.

Definition pstate0 : pstate :=
  {| p_stack := []; p_alts := []; p_seq := []; p_groups := 0;
     p_quantifiable := false |}.

Definition parse_token (st : pstate) (t : token) : res pstate :=
  match t with
  | TAtom r =>
      Val {| p_stack := p_stack st; p_alts := p_alts st; p_seq := r :: p_seq st;
             p_groups := p_groups st; p_quantifiable := true |}
  | TAssert r =>
      Val {| p_stack := p_stack st; p_alts := p_alts st; p_seq := r :: p_seq st;
             p_groups := p_groups st; p_quantifiable := false |}
  | TQuant mn mx g =>
      match p_quantifiable st, p_seq st with
      | true, r :: terms =>
          Val {| p_stack := p_stack st; p_alts := p_alts st;
                 p_seq := RRep mn mx g r :: terms;
                 p_groups := p_groups st; p_quantifiable := false |}
      | _, _ => Exn SyntaxError
      end
  | TBar =>
      Val {| p_stack := p_stack st; p_alts := seq_of (p_seq st) :: p_alts st;
             p_seq := []; p_groups := p_groups st; p_quantifiable := false |}
  | TOpen capturing =>
      let n := if capturing then S (p_groups st) else p_groups st in
      Val {| p_stack := {| f_index := if capturing then Some n else None;
                           f_alts := p_alts st; f_seq := p_seq st |} :: p_stack st;
             p_alts := []; p_seq := []; p_groups := n; p_quantifiable := false |}
  | TClose =>
      match p_stack st with
      | [] => Exn SyntaxError
      | fr :: stack =>
          let g := RGroup (f_index fr) (alt_of (p_alts st) (seq_of (p_seq st))) in
          Val {| p_stack := stack; p_alts := f_alts fr; p_seq := g :: f_seq fr;
                 p_groups := p_groups st; p_quantifiable := true |}
      end
  end.

(** A compiled pattern: its syntax and the number of its capturing groups. *)
Record RegExp : Type := {
  re_syntax : regex;
  re_groups : nat
}.

Definition parse_end (st : pstate) : res RegExp :=
  match p_stack st with
  | [] => Val {| re_syntax := alt_of (p_alts st) (seq_of (p_seq st));
                 re_groups := p_groups st |}
  | _ :: _ => Exn SyntaxError
  end.

(** [new RegExp(source)]; a pattern the grammar refuses raises SyntaxError. *)
Definition RegExp_new (source : text) : res RegExp :=
  do ts <- tokenize 0 source;
  do st <- foldM parse_token ts pstate0;
  parse_end st.

(* ================================================================== *)
(** ** [String.prototype.replace] *)

(** The value of capture [n] as a callback receives it: a group that took
    no part in the match is [undefined]. *)
Definition capture (n : nat) (mt : rmatch) : option text := get_cap n (m_caps mt).

(** [String(x)] of a string that may be [undefined]. *)
Definition or_undefined (x : option text) : text :=
  match x with
  | Some s => s
  | None => L "undefined"
  end.

Definition digit_of (c : ascii) : nat := code c - 48.

(** GetSubstitution, for one dollar sign: the text it stands for and the
    number of characters after the dollar sign that it takes.  [groups] is
    the number of capturing groups of the pattern. *)
Definition dollar (groups : nat) (mt : rmatch) (subject : text) (after : text)
  : text * nat :=
  let group (index used : nat) (ref : text) : text * nat :=
    if (1 <=? index) && (index <=? groups)
    then (match capture index mt with Some s => s | None => [] end, used)
    else (ref, used) in
  match after with
  | c :: after' =>
      if is_char "$" c then ([c], 1)
      else if is_char "&" c then (m_text mt, 1)
      else if is_char "`" c then (firstn (m_index mt) subject, 1)
      else if is_char "'" c
      then (skipn (m_index mt + length (m_text mt)) subject, 1)
      else if is_digit c then
        match after' with
        | c2 :: _ =>
            if is_digit c2 && (10 * digit_of c + digit_of c2 <=? groups)
            then group (10 * digit_of c + digit_of c2) 2 [ "$"%char; c; c2 ]
            else group (digit_of c) 1 [ "$"%char; c ]
        | [] => group (digit_of c) 1 [ "$"%char; c ]
        end
      else ([ "$"%char ], 0)
  | [] => ([ "$"%char ], 0)
  end.

Fixpoint substitute (groups : nat) (mt : rmatch) (subject : text)
    (skip : nat) (template : text) : text :=
  match template with
  | [] => []
  | c :: rest =>
      match skip with
      | S k => substitute groups mt subject k rest
      | 0 =>
          if is_char "$" c then
            let (out, used) := dollar groups mt subject rest in
            out ++ substitute groups mt subject used rest
          else c :: substitute groups mt subject 0 rest
      end
  end.

Definition GetSubstitution (groups : nat) (mt : rmatch) (subject template : text) : text :=
  substitute groups mt subject 0 template.

(** The result of a replacement: the subject with each match replaced, in
    order, the replacer being called once per match, left to right. *)
Fixpoint splice (f : rmatch -> res text) (subject : text) (next : nat)
    (ms : list rmatch) : res text :=
  match ms with
  | [] => Val (skipn next subject)
  | mt :: ms' =>
      do r <- f mt;
      do tl <- splice f subject (m_index mt + length (m_text mt)) ms';
      Val (firstn (m_index mt - next) (skipn next subject) ++ r ++ tl)
  end.

(** [subject.replace(re, callback)] with a [g] pattern. *)
Definition replace_all_with (re : RegExp) (f : rmatch -> res text) (subject : text)
  : res text :=
  do ms <- matchAll (re_syntax re) subject;
  splice f subject 0 ms.

(** [subject.replace(re, replacement)] with a [g] pattern and a string. *)
Definition replace_all (re : RegExp) (replacement : text) (subject : text) : res text :=
  replace_all_with re
    (fun mt => Val (GetSubstitution (re_groups re) mt subject replacement)) subject.

(** [subject.replace(re, replacement)] with a pattern without flags: the
    first match only. *)
Definition replace_first (re : RegExp) (replacement : text) (subject : text) : res text :=
  do found <- exec (re_syntax re) subject;
  match found with
  | Some mt =>
      Val (firstn (m_index mt) subject
           ++ GetSubstitution (re_groups re) mt subject replacement
           ++ skipn (m_index mt + length (m_text mt)) subject)
  | None => Val subject
  end.

(** [subject.replace(pattern, replacement)] with a string for pattern: its
    first occurrence only; the replacement is still a template. *)
Definition replace_string (pattern replacement subject : text) : text :=
  match index_of pattern subject with
  | Some i =>
      let mt := {| m_index := i; m_text := pattern; m_caps := [] |} in
      firstn i subject ++ GetSubstitution 0 mt subject replacement
      ++ skipn (i + length pattern) subject
  | None => subject
  end.

(* ================================================================== *)
(** ** [JSON.parse]

    The JSON grammar of ECMA-404.  A number keeps its literal.  A string
    with a [\u] escape above 8 bits is parsed like any other, but it
    cannot be held as text: the value is [JWide], and an object with such
    a key is [JWideObj]; reading their characters leaves the embedded
    fragment. *)

#[warnings="-register-all"]
Inductive json : Type :=
| JNull
| JBool (b : bool)
| JNum (literal : text)
| JStr (s : text)
| JArr (items : list json)
| JObj (fields : list (text * json))
| JWide
| JWideObj.

Definition is_quote (c : ascii) : bool := code c =? 34.

Definition is_json_space (c : ascii) : bool :=
  (code c =? 32) || (code c =? 9) || (code c =? 10) || (code c =? 13).

Definition skip_ws (s : text) : text := drop_while is_json_space s.

Definition hex_value (c : ascii) : option nat :=
  if is_digit c then Some (code c - 48)
  else if between 97 102 c then Some (code c - 87)
  else if between 65 70 c then Some (code c - 55)
  else None.

(** The characters of a string literal after its opening quote ([None]
    when one of them is above 8 bits), and what follows the closing
    quote. *)
Fixpoint json_string (inp : text) : res (option text * text) :=
  match inp with
  | [] => Exn SyntaxError
  | c :: rest =>
      if is_quote c then Val (Some [], rest)
      else if code c <? 32 then Exn SyntaxError
      else if is_char "\" c then
        match rest with
        | [] => Exn SyntaxError
        | e :: rest' =>
            let simple (x : ascii) :=
              do r <- json_string rest'; Val (option_map (cons x) (fst r), snd r) in
            if is_quote e || is_char "\" e || is_char "/" e then simple e
            else if is_char "b" e then simple (ascii_of_nat 8)
            else if is_char "f" e then simple (ascii_of_nat 12)
            else if is_char "n" e then simple (ascii_of_nat 10)
            else if is_char "r" e then simple (ascii_of_nat 13)
            else if is_char "t" e then simple (ascii_of_nat 9)
            else if is_char "u" e then
              match rest' with
              | h1 :: h2 :: h3 :: h4 :: rest'' =>
                  match hex_value h1, hex_value h2, hex_value h3, hex_value h4 with
                  | Some a, Some b, Some c3, Some d =>
                      do r <- json_string rest'';
                      if (a =? 0) && (b =? 0)
                      then Val (option_map (cons (ascii_of_nat (16 * c3 + d))) (fst r),
                                snd r)
                      else Val (None, snd r)
                  | _, _, _, _ => Exn SyntaxError
                  end
              | _ => Exn SyntaxError
              end
            else Exn SyntaxError
        end
      else do r <- json_string rest; Val (option_map (cons c) (fst r), snd r)
  end.

(** The value of a string literal, of an object. *)
Definition string_value (s : option text) : json :=
  match s with Some s => JStr s | None => JWide end.

Definition object_value (fields : option (list (text * json))) : json :=
  match fields with Some fields => JObj fields | None => JWideObj end.

(** A member more, when its key and the keys after it are text. *)
Definition add_member (k : option text) (v : json)
    (fields : option (list (text * json))) : option (list (text * json)) :=
  match k, fields with
  | Some k, Some fields => Some ((k, v) :: fields)
  | _, _ => None
  end.

(** A number literal at the head of [inp], if there is one. *)
Definition json_number (inp : text) : option (text * text) :=
  let (sign, r0) := match inp with
                    | c :: r => if is_char "-" c then ([c], r) else ([], inp)
                    | [] => ([], inp)
                    end in
  let (int, r1) := span is_digit r0 in
  let int_ok := match int with
                | [] => false
                | [_] => true
                | c :: _ => negb (is_char "0" c)
                end in
  let '(frac, r2, frac_ok) :=
    match r1 with
    | c :: r =>
        if is_char "." c
        then let (ds, r') := span is_digit r in
             (c :: ds, r', negb (length ds =? 0))
        else ([], r1, true)
    | [] => ([], r1, true)
    end in
  let '(expo, r3, expo_ok) :=
    match r2 with
    | c :: r =>
        if is_char "e" c || is_char "E" c then
          let (sg, r') := match r with
                          | s :: r'' => if is_char "+" s || is_char "-" s
                                        then ([s], r'') else ([], r)
                          | [] => ([], r)
                          end in
          let (ds, r'') := span is_digit r' in
          (c :: sg ++ ds, r'', negb (length ds =? 0))
        else ([], r2, true)
    | [] => ([], r2, true)
    end in
  if int_ok && frac_ok && expo_ok
  then Some (sign ++ int ++ frac ++ expo, r3)
  else None.

Fixpoint json_value (fuel : nat) (inp : text) : res (json * text) :=
  match fuel with
  | 0 => Beyond
  | S fuel' =>
      match skip_ws inp with
      | [] => Exn SyntaxError
      | c :: rest =>
          if is_quote c then
            do r <- json_string rest; Val (string_value (fst r), snd r)
          else if is_char "[" c then
            match skip_ws rest with
            | c' :: rest' =>
                if is_char "]" c' then Val (JArr [], rest')
                else do r <- json_elements fuel' rest; Val (JArr (fst r), snd r)
            | [] => Exn SyntaxError
            end
          else if is_char "{" c then
            match skip_ws rest with
            | c' :: rest' =>
                if is_char "}" c' then Val (JObj [], rest')
                else do r <- json_members fuel' rest; Val (object_value (fst r), snd r)
            | [] => Exn SyntaxError
            end
          else if starts_with (L "true") (c :: rest) then Val (JBool true, skipn 3 rest)
          else if starts_with (L "false") (c :: rest) then Val (JBool false, skipn 4 rest)
          else if starts_with (L "null") (c :: rest) then Val (JNull, skipn 3 rest)
          else match json_number (c :: rest) with
               | Some (lit, rest') => Val (JNum lit, rest')
               | None => Exn SyntaxError
               end
      end
  end

(** The elements of an array after its opening bracket. *)
with json_elements (fuel : nat) (inp : text) : res (list json * text) :=
  match fuel with
  | 0 => Beyond
  | S fuel' =>
      do v <- json_value fuel' inp;
      match skip_ws (snd v) with
      | c :: rest =>
          if is_char "]" c then Val ([fst v], rest)
          else if is_char "," c then
            do r <- json_elements fuel' rest; Val (fst v :: fst r, snd r)
          else Exn SyntaxError
      | [] => Exn SyntaxError
      end
  end

(** The members of an object after its opening brace. *)
with json_members (fuel : nat) (inp : text)
  : res (option (list (text * json)) * text) :=
  match fuel with
  | 0 => Beyond
  | S fuel' =>
      match skip_ws inp with
      | q :: after_quote =>
          if is_quote q then
            do k <- json_string after_quote;
            match skip_ws (snd k) with
            | colon :: after_colon =>
                if is_char ":" colon then
                  do v <- json_value fuel' after_colon;
                  match skip_ws (snd v) with
                  | c :: rest =>
                      if is_char "}" c then Val (add_member (fst k) (fst v) (Some []), rest)
                      else if is_char "," c then
                        do r <- json_members fuel' rest;
                        Val (add_member (fst k) (fst v) (fst r), snd r)
                      else Exn SyntaxError
                  | [] => Exn SyntaxError
                  end
                else Exn SyntaxError
            | [] => Exn SyntaxError
            end
          else Exn SyntaxError
      | [] => Exn SyntaxError
      end
  end.

(** [JSON.parse(source)].  The parser goes down one step per value and
    per list of elements or members, each of which takes a character at
    least: [2 * length source + 1] steps are never used up. *)
Definition JSON_parse (source : text) : res json :=
  do r <- json_value (2 * length source + 1) source;
  match skip_ws (snd r) with
  | [] => Val (fst r)
  | _ :: _ => Exn SyntaxError
  end.

(** *** Values as the program inspects them *)

(** An array index: a decimal numeral without leading zero, below 2^32 - 1. *)
Definition array_index (k : text) : option N :=
  match k with
  | [] => None
  | c :: _ =>
      if forallb is_digit k
         && (negb (is_char "0" c) || (length k =? 1))
         && (length k <=? 10)
         && (digits_value k <? 4294967295)%N
      then Some (digits_value k)
      else None
  end.

Fixpoint insert_index (k : text) (l : list text) : list text :=
  match l with
  | [] => [k]
  | x :: l' =>
      if (digits_value k <? digits_value x)%N then k :: l
      else x :: insert_index k l'
  end.

Fixpoint first_occurrences (seen : list text) (l : list text) : list text :=
  match l with
  | [] => []
  | k :: l' =>
      if existsb (text_eqb k) seen then first_occurrences seen l'
      else k :: first_occurrences (k :: seen) l'
  end.

(** OrdinaryOwnPropertyKeys: array indices in ascending order, then the
    other keys in the order of their creation. *)
Definition own_keys (fields : list (text * json)) : list text :=
  let ks := first_occurrences [] (map fst fields) in
  let is_index k := match array_index k with Some _ => true | None => false end in
  fold_right insert_index [] (filter is_index ks)
  ++ filter (fun k => negb (is_index k)) ks.

(** The value of a property: of a repeated key the last one stands. *)
Fixpoint field (k : text) (fields : list (text * json)) : option json :=
  match fields with
  | [] => None
  | (k', v) :: rest =>
      match field k rest with
      | Some later => Some later
      | None => if text_eqb k k' then Some v else None
      end
  end.

(** [Object.keys(item)] *)
Definition Object_keys (item : json) : res (list text) :=
  match item with
  | JNull => Exn TypeError
  | JObj fields => Val (own_keys fields)
  | JArr items => Val (map decimal (seq 0 (length items)))
  | JStr s => Val (map decimal (seq 0 (length s)))
  | JNum _ | JBool _ => Val []
  | JWide | JWideObj => Beyond
  end.

(** [item[key]] *)
Definition get_property (item : json) (key : text) : res (option json) :=
  match item with
  | JObj fields => Val (field key fields)
  | JArr items =>
      match array_index key with
      | Some i => Val (nth_error items (N.to_nat i))
      | None => Val None
      end
  | JStr s =>
      match array_index key with
      | Some i => Val (option_map (fun c => JStr [c]) (nth_error s (N.to_nat i)))
      | None => Val None
      end
  | JBool _ | JNum _ => Val None
  | JNull => Exn TypeError
  | JWide | JWideObj => Beyond
  end.

(** [String(n)] of a number, from its literal: an integer literal of at
    most fifteen digits prints as itself; other literals are [Beyond]. *)
Definition number_to_string (literal : text) : res text :=
  let digits := match literal with
                | c :: r => if is_char "-" c then r else literal
                | [] => literal
                end in
  if forallb is_digit digits && (1 <=? length digits) && (length digits <=? 15)
  then if text_eqb literal (L "-0") then Val (L "0") else Val literal
  else Beyond.

(** [String(v)] *)
Fixpoint json_to_string (v : json) : res text :=
  match v with
  | JNull => Val (L "null")
  | JBool true => Val (L "true")
  | JBool false => Val (L "false")
  | JNum literal => number_to_string literal
  | JStr s => Val s
  | JWide => Beyond
  | JObj _ | JWideObj => Val (L "[object Object]")
  | JArr items =>
      do parts <-
        (fix elements (l : list json) : res (list text) :=
           match l with
           | [] => Val []
           | x :: l' =>
               do s <- match x with
                       | JNull => Val []
                       | _ => json_to_string x
                       end;
               do ss <- elements l';
               Val (s :: ss)
           end) items;
      Val (join (L ",") parts)
  end.

(* ================================================================== *)
(** ** The template engine: [useVariables.ts] *)

Inductive var_type : Type := TText | TNumber | TDate | TBoolean | TList.

(** The interface [Variable] of the source. *)
Record TemplateVariable : Type := {
  name : text;
  value : text;
  type : var_type;
  description : option text
}.

Definition is_list_type (t : var_type) : bool :=
  match t with TList => true | _ => false end.

(** A value bound in the evaluation context of a computed expression. *)
Inductive context_value : Type :=
| CNumber (source : text)        (* parseFloat(source) *)
| CBoolean (b : bool)
| CString (s : text).

Definition context_of (vars : list TemplateVariable) : list (text * context_value) :=
  map (fun v =>
         (name v,
          match type v with
          | TNumber => CNumber (value v)
          | TBoolean => CBoolean (text_eqb (value v) (L "true"))
          | _ => CString (value v)
          end)) vars.

(** The test of the conditional passes:
    [value && value !== 'false' && value !== '0']. *)
Definition truthy (v : text) : bool :=
  negb (length v =? 0) && negb (text_eqb v (L "false")) && negb (text_eqb v (L "0")).

Section TemplateEngine.

(** [String(new Function(...Object.keys(context), body)(...Object.values(context)))],
    where [context] is built by the given assignments in order; [None]
    when constructing or calling the function raises. *)
Variable Function_call : list (text * context_value) -> text -> option text.

(** Pass 1, for one variable. *)
Definition substitute_variable (processed : text) (variable : TemplateVariable) : res text :=
  do regex <- RegExp_new (L "{{" ++ name variable ++ L "}}");
  replace_all regex (value variable) processed.

Definition simple_pass (vars : list TemplateVariable) (processed : text) : res text :=
  foldM substitute_variable vars processed.

(** Pass 2: one record of the list, rendered from the block's template. *)
Definition render_field (item : json) (itemProcessed : option text) (key : text)
  : res (option text) :=
  do itemRegex <- RegExp_new (L "{{" ++ key ++ L "}}");
  match itemProcessed with
  | None => Exn TypeError
  | Some t =>
      do property <- get_property item key;
      do replacement <- match property with
                        | Some v => json_to_string v
                        | None => Val (L "undefined")
                        end;
      do t' <- replace_all itemRegex replacement t;
      Val (Some t')
  end.

Definition render_item (template : option text) (item : json) : res text :=
  do keys <- Object_keys item;
  do itemProcessed <- foldM (render_field item) keys template;
  match itemProcessed with
  | Some t => Val (trim t)
  | None => Exn TypeError
  end.

Definition render_list (listData : list json) (mt : rmatch) : res text :=
  do rendered <- mapM (render_item (capture 1 mt)) listData;
  Val (join (L (String (ascii_of_nat 10) EmptyString)) rendered).

(** Pass 2, for one variable of type list; whatever is raised inside the
    [try] is logged and the text is left as it was. *)
Definition expand_list (processed : text) (variable : TemplateVariable) : res text :=
  try_catch
    (do listData <- JSON_parse (value variable);
     match listData with
     | JArr items =>
         do listRegex <- RegExp_new (L "{{#" ++ name variable ++ L "}}([\s\S]*?){{/"
                                     ++ name variable ++ L "}}");
         replace_all_with listRegex (render_list items) processed
     | _ => Val processed
     end)
    (fun _ => Val processed).

Definition list_pass (vars : list TemplateVariable) (processed : text) : res text :=
  foldM expand_list (filter (fun v => is_list_type (type v)) vars) processed.

(** Pass 3, for one variable. *)
Definition expand_if (processed : text) (variable : TemplateVariable) : res text :=
  do ifRegex <- RegExp_new (L "{{#if " ++ name variable ++ L "}}([\s\S]*?){{/if}}");
  replace_all_with ifRegex
    (fun mt => if truthy (value variable)
               then Val (or_undefined (capture 1 mt))
               else Val [])
    processed.

Definition if_pass (vars : list TemplateVariable) (processed : text) : res text :=
  foldM expand_if vars processed.

(** Pass 4, for one variable. *)
Definition expand_unless (processed : text) (variable : TemplateVariable) : res text :=
  do unlessRegex <- RegExp_new (L "{{#unless " ++ name variable
                                ++ L "}}([\s\S]*?){{/unless}}");
  replace_all_with unlessRegex
    (fun mt => if negb (truthy (value variable))
               then Val (or_undefined (capture 1 mt))
               else Val [])
    processed.

Definition unless_pass (vars : list TemplateVariable) (processed : text) : res text :=
  foldM expand_unless vars processed.

(** Pass 5: the replacer of one computed expression. *)
Definition compute_expression (vars : list TemplateVariable) (mt : rmatch) : res text :=
  try_catch
    (let context := context_of vars in
     do expression <- match capture 1 mt with
                      | Some e => Val e
                      | None => Exn TypeError
                      end;
     do unsafe <- RegExp_new (L "[^a-zA-Z0-9_+\-*/\s().]");
     do safeExpression <- replace_all unsafe [] expression;
     match Function_call context (L "return " ++ safeExpression) with
     | Some result => Val result
     | None => Exn (Error (L "evaluation"))
     end)
    (fun _ => Val (m_text mt)).

Definition computed_pass (vars : list TemplateVariable) (processed : text) : res text :=
  do computedRegex <- RegExp_new (L "{{=\s*(.+?)\s*}}");
  replace_all_with computedRegex (compute_expression vars) processed.

(** [processTemplate(content, vars)] *)
Definition processTemplate (content : text) (vars : list TemplateVariable) : res text :=
  let processed := content in
  do processed <- simple_pass vars processed;
  do processed <- list_pass vars processed;
  do processed <- if_pass vars processed;
  do processed <- unless_pass vars processed;
  do processed <- computed_pass vars processed;
  Val processed.

End TemplateEngine.

(* ================================================================== *)
(** ** Smart components: [useSmartComponents.tsx], [SmartComponents.tsx] *)

Definition LF : ascii := ascii_of_nat 10.

(** [parseInt] of a run of digits.  The host rounds the result to a double;
    the rounding fixes every integer up to 2^53 and keeps larger ones
    above it, so comparisons with 100 are those of the exact value. *)
Definition parseInt (digits : text) : Z := Z.of_N (digits_value digits).

Record ChartData : Type := {
  labels : list text;
  data : list text          (* each one the argument of parseFloat *)
}.

Record Stat : Type := {
  stat_title : text;
  stat_value : text;
  stat_change : option text;
  stat_icon : option text
}.

(** The elements the hook creates, each with its [key]. *)
Inductive component : Type :=
| BarChart (key : text) (d : ChartData)
| PieChart (key : text) (d : ChartData)
| Timeline (key : text) (items : list text)
| ProgressBar (key : text) (value : Z) (label : option text)
| TaskList (key : text) (tasks : list text)
| Alert (key : text) (type : text) (children : text)
| StatsGrid (key : text) (stats : list Stat).

Record SmartComponentMatch : Type := {
  sc_type : text;
  startIndex : nat;
  endIndex : nat;
  content : text;
  sc_component : component
}.

Definition component_of (mt : rmatch) (kind : string) (c : component)
  : SmartComponentMatch :=
  {| sc_type := L kind;
     startIndex := m_index mt;
     endIndex := m_index mt + length (m_text mt);
     content := m_text mt;
     sc_component := c |}.

(** The scanner's state: the components found and [componentKey]. *)
Definition scan_state : Type := list SmartComponentMatch * nat.

Definition keyed (prefix : string) (componentKey : nat) : text :=
  L prefix ++ decimal componentKey.

Definition nonempty (s : text) : bool := negb (length s =? 0).

(** [capture n] of a group that always takes part in a match. *)
Definition group (n : nat) (mt : rmatch) : text :=
  match capture n mt with Some s => s | None => [] end.

(** [lines[0]?.toLowerCase()], when it names a chart type. *)
Definition chart_type (mt : rmatch) : option text :=
  let lines := split_on LF (trim (group 1 mt)) in
  let type := toLowerCase (hd [] lines) in
  if text_eqb type (L "bar") || text_eqb type (L "line")
     || text_eqb type (L "pie") || text_eqb type (L "donut")
  then Some type else None.

Definition chart_data (mt : rmatch) : ChartData :=
  let lines := split_on LF (trim (group 1 mt)) in
  let rows :=
    filter (fun lv => nonempty (fst lv) && nonempty (snd lv))
      (map (fun line =>
              let parts := map trim (split_on ":" line) in
              (nth 0 parts [], nth 1 parts []))
         (tl lines)) in
  {| labels := map fst rows; data := map snd rows |}.

Definition scan_chart (st : scan_state) (mt : rmatch) : scan_state :=
  let (components, componentKey) := st in
  match chart_type mt with
  | Some type =>
      let c := if text_eqb type (L "bar") || text_eqb type (L "line")
               then BarChart (keyed "chart-" componentKey) (chart_data mt)
               else PieChart (keyed "chart-" componentKey) (chart_data mt) in
      (components ++ [component_of mt "chart" c], S componentKey)
  | None => st
  end.

Definition nonblank_lines (s : text) : list text :=
  filter (fun line => nonempty (trim line)) (split_on LF (trim s)).

Definition scan_timeline (st : scan_state) (mt : rmatch) : scan_state :=
  let (components, componentKey) := st in
  (components ++ [component_of mt "timeline"
                    (Timeline (keyed "timeline-" componentKey)
                       (nonblank_lines (group 1 mt)))],
   S componentKey).

Definition scan_progress (st : scan_state) (mt : rmatch) : scan_state :=
  let (components, componentKey) := st in
  (components ++ [component_of mt "progress"
                    (ProgressBar (keyed "progress-" componentKey)
                       (parseInt (group 1 mt)) (capture 2 mt))],
   S componentKey).

Definition scan_tasks (st : scan_state) (mt : rmatch) : scan_state :=
  let (components, componentKey) := st in
  (components ++ [component_of mt "tasks"
                    (TaskList (keyed "tasks-" componentKey)
                       (nonblank_lines (group 1 mt)))],
   S componentKey).

Definition scan_alert (st : scan_state) (mt : rmatch) : scan_state :=
  let (components, componentKey) := st in
  (components ++ [component_of mt "alert"
                    (Alert (keyed "alert-" componentKey)
                       (group 1 mt) (trim (group 2 mt)))],
   S componentKey).

Definition stat_of (line : text) : Stat :=
  let parts := map trim (split_on "|" line) in
  {| stat_title := nth 0 parts [];
     stat_value := nth 1 parts [];
     stat_change := nth_error parts 2;
     stat_icon := nth_error parts 3 |}.

Definition scan_stats (st : scan_state) (mt : rmatch) : scan_state :=
  let (components, componentKey) := st in
  (components ++ [component_of mt "stats"
                    (StatsGrid (keyed "stats-" componentKey)
                       (map stat_of (split_on LF (trim (group 1 mt)))))],
   S componentKey).

(** One [while ((match = regex.exec(markdown)) !== null)] loop. *)
Definition scan_with (pattern : string) (step : scan_state -> rmatch -> scan_state)
    (markdown : text) (st : scan_state) : res scan_state :=
  do regex <- RegExp_new (L pattern);
  do ms <- matchAll (re_syntax regex) markdown;
  Val (fold_left step ms st).

(** [Array.prototype.sort] by start index; the sort is stable. *)
Fixpoint insert_sorted (x : SmartComponentMatch) (l : list SmartComponentMatch)
  : list SmartComponentMatch :=
  match l with
  | [] => [x]
  | y :: l' =>
      if startIndex x <=? startIndex y then x :: l
      else y :: insert_sorted x l'
  end.

Definition sort_by_start (l : list SmartComponentMatch) : list SmartComponentMatch :=
  fold_right insert_sorted [] l.

Definition chartRegex : string := "```chart\n([\s\S]*?)```".
Definition timelineRegex : string := "```timeline\n([\s\S]*?)```".
Definition progressRegex : string := "\[progress:(\d+)(?::(.+?))?\]".
Definition taskRegex : string := "```tasks?\n([\s\S]*?)```".
Definition alertRegex : string := ":::(info|warning|error|success|tip)\n([\s\S]*?):::".
Definition statsRegex : string := "```stats?\n([\s\S]*?)```".

(** The memoised [smartComponents] of [useSmartComponents(markdown)]. *)
Definition smartComponents (markdown : text) : res (list SmartComponentMatch) :=
  do st <- scan_with chartRegex scan_chart markdown ([], 0);
  do st <- scan_with timelineRegex scan_timeline markdown st;
  do st <- scan_with progressRegex scan_progress markdown st;
  do st <- scan_with taskRegex scan_tasks markdown st;
  do st <- scan_with alertRegex scan_alert markdown st;
  do st <- scan_with statsRegex scan_stats markdown st;
  Val (sort_by_start (fst st)).

Definition placeholder (index : nat) : text :=
  L "<!--SMART_COMPONENT_" ++ decimal index ++ L "-->".

(** [transformMarkdown(md)] over the components of the hook. *)
Fixpoint transform_from (index : nat) (comps : list SmartComponentMatch)
    (transformedMd : text) : text :=
  match comps with
  | [] => transformedMd
  | comp :: rest =>
      transform_from (S index) rest
        (replace_string (content comp) (placeholder index) transformedMd)
  end.

Definition transformMarkdown (comps : list SmartComponentMatch) (md : text) : text :=
  transform_from 0 comps md.

Fixpoint component_map_from (index : nat) (comps : list SmartComponentMatch)
  : list (text * component) :=
  match comps with
  | [] => []
  | comp :: rest =>
      (placeholder index, sc_component comp) :: component_map_from (S index) rest
  end.

Record SmartComponents : Type := {
  sc_components : list SmartComponentMatch;
  enhancedMarkdown : text;
  componentMap : list (text * component);
  hasSmartComponents : bool
}.

(** [useSmartComponents(markdown)] *)
Definition useSmartComponents (markdown : text) : res SmartComponents :=
  do comps <- smartComponents markdown;
  Val {| sc_components := comps;
         enhancedMarkdown := transformMarkdown comps markdown;
         componentMap := component_map_from 0 comps;
         hasSmartComponents := negb (length comps =? 0) |}.




(* ================================================================== *)
(** ** Images: [utils/imageHandler] and [handleImageUpload] *)

(** A [File] of the host: what the program reads of it, and the data URL
    that [FileReader.readAsDataURL] yields for it ([None]: the reader
    fails). *)
Record File : Type := {
  file_name : text;
  file_type : text;
  file_size : N;
  file_dataURL : option text
}.

Definition MAX_FILE_SIZE : N := 5 * 1024 * 1024.

(** The rejection of a promise is an exception at the [await]. *)
Definition convertImageToBase64 (file : File) : res text :=
  if (MAX_FILE_SIZE <? file_size file)%N then
    Exn (Error (L "File " ++ file_name file ++ L " is too large. Max size is 5MB."))
  else
    match file_dataURL file with
    | Some base64 => Val base64
    | None => Exn (Error [])
    end.

Definition extensionRegex : string := "\.[^/.]+$".

(** [generatePathVariations(filename)] *)
Definition generatePathVariations (filename : text) : res (list text) :=
  let variations :=
    [ filename;
      L "./" ++ filename;
      L "images/" ++ filename;
      L "./images/" ++ filename;
      L "assets/" ++ filename;
      L "./assets/" ++ filename;
      L "img/" ++ filename;
      L "./img/" ++ filename;
      L "pics/" ++ filename;
      L "./pics/" ++ filename;
      L "media/" ++ filename;
      L "./media/" ++ filename ] in
  do re <- RegExp_new (L extensionRegex);
  do nameWithoutExt <- replace_first re [] filename;
  do found <- exec (re_syntax re) filename;
  let ext := match found with Some mt => m_text mt | None => [] end in
  if nonempty ext
  then Val (variations ++ [ nameWithoutExt ++ toLowerCase ext;
                            nameWithoutExt ++ toUpperCase ext ])
  else Val variations.

(** A [Map<string, string>]: [set] shadows, [get] finds the latest. *)
Definition image_map : Type := list (text * text).

Definition map_set (k v : text) (mp : image_map) : image_map := (k, v) :: mp.

Fixpoint map_get (k : text) (mp : image_map) : option text :=
  match mp with
  | [] => None
  | (k', v) :: rest => if text_eqb k k' then Some v else map_get k rest
  end.

Definition map_has (k : text) (mp : image_map) : bool :=
  match map_get k mp with Some _ => true | None => false end.

Record upload_state : Type := {
  newImageMap : image_map;
  addedImages : list text;
  error_toasts : list text
}.

Definition RECOMPRESS_ABOVE : N := 100 * 1024.

Section Upload.

(** [compressImage(file)]: decoding, scaling and re-encoding are the
    host's; the promise resolves with a file or is rejected. *)
Variable compressImage : File -> res File.

(** The body of the [try] for one file: the embedded image and the keys
    it is stored under. *)
Definition ingest (file : File) : res (text * list text) :=
  do processedFile <- (if (RECOMPRESS_ABOVE <? file_size file)%N
                       then compressImage file
                       else Val file);
  do base64 <- convertImageToBase64 processedFile;
  do variations <- generatePathVariations (file_name file);
  Val (base64, variations).

(** [error.message || `Failed to load: ${file.name}`] *)
Definition toast_of (e : exn) (file : File) : text :=
  match e with
  | Error message =>
      if nonempty message then message else L "Failed to load: " ++ file_name file
  | SyntaxError => L "SyntaxError"
  | TypeError => L "TypeError"
  end.

(** One turn of the loop over [files]. *)
Definition upload_one (st : upload_state) (file : File) : res upload_state :=
  if starts_with (L "image/") (file_type file) then
    try_catch
      (do r <- ingest file;
       Val {| newImageMap :=
                fold_left (fun mp path => map_set path (fst r) mp) (snd r)
                  (newImageMap st);
              addedImages := addedImages st ++ [file_name file];
              error_toasts := error_toasts st |})
      (fun e =>
         Val {| newImageMap := newImageMap st;
                addedImages := addedImages st;
                error_toasts := error_toasts st ++ [toast_of e file] |})
  else Val st.

(** [handleImageUpload]: the new image map, the names added and the
    errors shown. *)
Definition handleImageUpload (files : list File) (imageMap : image_map)
  : res upload_state :=
  let st0 := {| newImageMap := imageMap; addedImages := []; error_toasts := [] |} in
  if length files =? 0 then Val st0
  else if 20 <? length files then
    Val {| newImageMap := imageMap; addedImages := [];
           error_toasts := [L "Please select 20 or fewer images at a time"] |}
  else foldM upload_one files st0.

End Upload.

Definition standardImageRegex : string := "!\[([^\]]*)\]\(([^)]+)\)".
Definition obsidianImageRegex : string := "!\[\[([^\]|]+)(?:\|([^\]]+))?\]\]".

(** [imageMap.get(path)] when it is a non-empty string. *)
Definition embedded (imageMap : image_map) (path : text) : option text :=
  match map_get path imageMap with
  | Some base64 => if nonempty base64 then Some base64 else None
  | None => None
  end.

Definition embed_standard (imageMap : image_map) (processedMarkdown : text)
    (mt : rmatch) : text :=
  match embedded imageMap (group 2 mt) with
  | Some base64Data =>
      replace_string (m_text mt)
        (L "![" ++ group 1 mt ++ L "](" ++ base64Data ++ L ")") processedMarkdown
  | None => processedMarkdown
  end.

Definition embed_obsidian (imageMap : image_map) (processedMarkdown : text)
    (mt : rmatch) : text :=
  match embedded imageMap (group 1 mt) with
  | Some base64Data =>
      replace_string (m_text mt)
        (L "![" ++ group 1 mt ++ L "](" ++ base64Data ++ L ")") processedMarkdown
  | None => processedMarkdown
  end.

(** [processMarkdownImages(markdown, imageMap)] *)
Definition processMarkdownImages (markdown : text) (imageMap : image_map) : res text :=
  do re1 <- RegExp_new (L standardImageRegex);
  do standardMatches <- matchAll (re_syntax re1) markdown;
  let processedMarkdown := fold_left (embed_standard imageMap) standardMatches markdown in
  do re2 <- RegExp_new (L obsidianImageRegex);
  do obsidianMatches <- matchAll (re_syntax re2) processedMarkdown;
  Val (fold_left (embed_obsidian imageMap) obsidianMatches processedMarkdown).

(** [toast.success], [toast.error] *)
Inductive toast_kind : Type := toast_success | toast_error.

(* ================================================================== *)
(** ** The export history: [store/exportHistoryStore.ts] *)

Module ExportHistory.

Inductive export_format : Type := html | pdf | markdown | react.



Record Enhancements : Type := {
  coverPage : bool;
  tableOfContents : bool;
  pageNumbers : bool;
  headerFooter : bool
}.

Record Settings : Type := {
  settings_theme : text;
  fontSize : text;
  spacing : text;
  fontFamily : text;
  enhancements : Enhancements
}.

Record ExportHistoryItem : Type := {
  id : text;
  title : text;
  format : export_format;
  timestamp : Z;
  theme : text;
  fileName : text;
  fileSize : option Z;
  exportData : option text;
  settings : Settings;
  contentHash : text
}.

(** The state of the store, and what the actions do besides: the list
    whose JSON text is in [localStorage] under [STORAGE_KEY] ([None]: no
    entry), and the notifications shown. *)
Record ExportHistoryState : Type := {
  exports : list ExportHistoryItem;
  isVisible : bool;
  searchQuery : text;
  selectedFormat : option export_format;      (* [None]: 'all' *)
  storage : option (list ExportHistoryItem);
  toasts : list (toast_kind * text)
}.

Definition MAX_EXPORTS : nat := 50.

(** [ToInt32] *)
Definition to_int32 (z : Z) : Z :=
  let w := (z mod 2 ^ 32)%Z in
  if (w <? 2 ^ 31)%Z then w else (w - 2 ^ 32)%Z.

(** [String(z)] for an integer. *)
Definition integer_text (z : Z) : text :=
  if (z <? 0)%Z then L "-" ++ decimal (Z.to_nat (- z)) else decimal (Z.to_nat z).

(** One turn of the loop of [generateContentHash]:
    [hash = ((hash << 5) - hash) + char; hash = hash & hash]. *)
Definition hash_step (hash : Z) (c : ascii) : Z :=
  let char := Z.of_nat (code c) in
  let hash := (to_int32 (Z.shiftl (to_int32 hash) 5) - hash + char)%Z in
  to_int32 (Z.land (to_int32 hash) (to_int32 hash)).

(** [generateContentHash(content, settings)], [settings] standing for the
    text [JSON.stringify(settings)]. *)
Definition generateContentHash (content settings : text) : text :=
  let combined := content ++ settings in
  integer_text (fold_left hash_step combined 0%Z).

(** [{ ...item, exportData: undefined }] *)
Definition without_data (item : ExportHistoryItem) : ExportHistoryItem :=
  {| id := id item; title := title item; format := format item;
     timestamp := timestamp item; theme := theme item; fileName := fileName item;
     fileSize := fileSize item; exportData := None; settings := settings item;
     contentHash := contentHash item |}.

Definition set_exports (l : list ExportHistoryItem) (s : ExportHistoryState)
  : ExportHistoryState :=
  {| exports := l; isVisible := isVisible s; searchQuery := searchQuery s;
     selectedFormat := selectedFormat s; storage := storage s; toasts := toasts s |}.

Definition toast (kind : toast_kind) (message : text) (s : ExportHistoryState)
  : ExportHistoryState :=
  {| exports := exports s; isVisible := isVisible s; searchQuery := searchQuery s;
     selectedFormat := selectedFormat s; storage := storage s;
     toasts := toasts s ++ [(kind, message)] |}.

Section Store.

(** Whether [localStorage.setItem] takes the JSON text of a list (it raises
    when the quota is exceeded). *)
Variable setItem_takes : list ExportHistoryItem -> bool.

(** [new Date(timestamp).toLocaleDateString()] *)
Variable toLocaleDateString : Z -> text.

Definition saveExportsToStorage (l : list ExportHistoryItem) (s : ExportHistoryState)
  : ExportHistoryState :=
  let exportsToStore := map without_data l in
  if setItem_takes exportsToStore then
    {| exports := exports s; isVisible := isVisible s; searchQuery := searchQuery s;
       selectedFormat := selectedFormat s; storage := Some exportsToStore;
       toasts := toasts s |}
  else toast toast_error (L "Failed to save export history") s.

(** [loadExportsFromStorage()], for an entry this store has written. *)
Definition loadExportsFromStorage (s : ExportHistoryState) : list ExportHistoryItem :=
  match storage s with
  | Some stored => stored
  | None => []
  end.

(** [addExport(exportItem)]; [generatedId] and [now] are what
    [generateExportId()] and [Date.now()] return. *)
Definition addExport (generatedId : text) (now : Z) (exportItem : ExportHistoryItem)
    (s : ExportHistoryState) : ExportHistoryState :=
  let newExport :=
    {| id := generatedId; title := title exportItem; format := format exportItem;
       timestamp := now; theme := theme exportItem; fileName := fileName exportItem;
       fileSize := fileSize exportItem; exportData := exportData exportItem;
       settings := settings exportItem; contentHash := contentHash exportItem |} in
  let updatedExports := firstn MAX_EXPORTS (newExport :: exports s) in
  let s := set_exports updatedExports s in
  let s := saveExportsToStorage updatedExports s in
  toast toast_success (L "Export added to history: " ++ fileName newExport) s.

Definition removeExport (exportId : text) (s : ExportHistoryState) : ExportHistoryState :=
  let updatedExports := filter (fun exp => negb (text_eqb (id exp) exportId)) (exports s) in
  let s := set_exports updatedExports s in
  let s := saveExportsToStorage updatedExports s in
  toast toast_success (L "Export removed from history") s.

Definition clearHistory (s : ExportHistoryState) : ExportHistoryState :=
  let s := set_exports [] s in
  let s := saveExportsToStorage [] s in
  toast toast_success (L "Export history cleared") s.

Definition reDownloadExport (exportId : text) (s : ExportHistoryState)
  : ExportHistoryState :=
  match find (fun exp => text_eqb (id exp) exportId) (exports s) with
  | None => toast toast_error (L "Export not found") s
  | Some _ =>
      toast toast_error (L "File data not available. Use " ++ [ascii_of_nat 34]
             ++ L "Quick Re-export" ++ [ascii_of_nat 34]
             ++ L " to generate the file again.") s
  end.

Definition toggleVisibility (s : ExportHistoryState) : ExportHistoryState :=
  {| exports := exports s; isVisible := negb (isVisible s);
     searchQuery := searchQuery s; selectedFormat := selectedFormat s;
     storage := storage s; toasts := toasts s |}.


Definition setSelectedFormat (f : option export_format) (s : ExportHistoryState)
  : ExportHistoryState :=
  {| exports := exports s; isVisible := isVisible s; searchQuery := searchQuery s;
     selectedFormat := f; storage := storage s; toasts := toasts s |}.

Definition initializeFromStorage (s : ExportHistoryState) : ExportHistoryState :=
  set_exports (loadExportsFromStorage s) s.



(** [`${n} unit${n > 1 ? 's' : ''} ago`] *)
Definition ago (n : Z) (unit : string) : text :=
  integer_text n ++ L " " ++ L unit ++ (if (1 <? n)%Z then L "s" else []) ++ L " ago".

(** [formatTimeAgo(timestamp)], [now] being what [Date.now()] returns. *)
Definition formatTimeAgo (now timestamp : Z) : text :=
  let diff := (now - timestamp)%Z in
  let minutes := (diff / (1000 * 60))%Z in
  let hours := (diff / (1000 * 60 * 60))%Z in
  let days := (diff / (1000 * 60 * 60 * 24))%Z in
  if (minutes <? 1)%Z then L "Just now"
  else if (minutes <? 60)%Z then ago minutes "min"
  else if (hours <? 24)%Z then ago hours "hour"
  else if (days <? 7)%Z then ago days "day"
  else toLocaleDateString timestamp.

End Store.

End ExportHistory.

(* ================================================================== *)
(** ** Keyboard shortcuts: [hooks/useKeyboardShortcuts] *)

Module Shortcuts.

Section Actions.

(** What a shortcut runs: [action: () => void]. *)
Variable Action : Type.

(** An optional flag that is absent reads as [false]. *)
Record KeyboardShortcut : Type := {
  key : text;
  ctrl : bool;
  cmd : bool;
  shift : bool;
  alt : bool;
  description : text;
  action : Action;
  category : option text;
  customizable : bool
}.

(** What the handlers read of a [KeyboardEvent] and of its target. *)
Record KeyboardEvent : Type := {
  e_key : text;
  ctrlKey : bool;
  metaKey : bool;
  altKey : bool;
  shiftKey : bool;
  tagName : text;
  contentEditable : text
}.

Definition part (flag : bool) (name : string) : list text :=
  if flag then [L name] else [].

(** [buildShortcutKey(shortcut)] *)
Definition buildShortcutKey (shortcut : KeyboardShortcut) : text :=
  let parts :=
    part (ctrl shortcut) "ctrl" ++ part (cmd shortcut) "cmd"
    ++ part (alt shortcut) "alt" ++ part (shift shortcut) "shift"
    ++ [toLowerCase (key shortcut)] in
  join (L "+") parts.

(** [buildEventKey(e)] *)
Definition buildEventKey (e : KeyboardEvent) : text :=
  let parts :=
    part (ctrlKey e) "ctrl" ++ part (metaKey e) "cmd"
    ++ part (altKey e) "alt" ++ part (shiftKey e) "shift"
    ++ [toLowerCase (e_key e)] in
  join (L "+") parts.

(** A [Map<string, KeyboardShortcut>]: the entries in the order of their
    creation; [set] on a key that is there replaces the value in place. *)
Definition shortcut_map : Type := list (text * KeyboardShortcut).

Fixpoint Map_set (k : text) (v : KeyboardShortcut) (mp : shortcut_map) : shortcut_map :=
  match mp with
  | [] => [(k, v)]
  | (k', v') :: rest =>
      if text_eqb k k' then (k, v) :: rest else (k', v') :: Map_set k v rest
  end.

Fixpoint Map_get (k : text) (mp : shortcut_map) : option KeyboardShortcut :=
  match mp with
  | [] => None
  | (k', v) :: rest => if text_eqb k k' then Some v else Map_get k rest
  end.

Definition Map_delete (k : text) (mp : shortcut_map) : shortcut_map :=
  filter (fun kv => negb (text_eqb k (fst kv))) mp.

(** The effect that fills the map: [clear()], then one [set] per shortcut. *)
Definition fill (shortcuts : list KeyboardShortcut) : shortcut_map :=
  fold_left (fun mp shortcut => Map_set (buildShortcutKey shortcut) shortcut mp)
    shortcuts [].

Definition registerShortcut (shortcut : KeyboardShortcut) (mp : shortcut_map)
  : shortcut_map :=
  Map_set (buildShortcutKey shortcut) shortcut mp.

Definition unregisterShortcut (shortcut : KeyboardShortcut) (mp : shortcut_map)
  : shortcut_map :=
  Map_delete (buildShortcutKey shortcut) mp.

(** A [Set<string>]. *)
Definition Set_add (k : text) (s : list text) : list text :=
  if existsb (text_eqb k) s then s else s ++ [k].

Definition Set_delete (k : text) (s : list text) : list text :=
  filter (fun x => negb (text_eqb k x)) s.

(** Whether running an action raises. *)
Variable raises : Action -> bool.

(** What [handleKeyDown] did: the keys held, whether the event was stopped
    ([preventDefault], [stopPropagation]), the action that ran, and the
    error shown. *)
Record key_outcome : Type := {
  pressedKeys : list text;
  stopped : bool;
  ran : option Action;
  shown : option text
}.

Definition isTyping (e : KeyboardEvent) : bool :=
  text_eqb (tagName e) (L "INPUT") || text_eqb (tagName e) (L "TEXTAREA")
  || text_eqb (contentEditable e) (L "true").

Definition allowedWhileTyping : list text := [L "cmd+s"; L "ctrl+s"].

Definition handleKeyDown (mp : shortcut_map) (pressed : list text) (e : KeyboardEvent)
  : key_outcome :=
  let eventKey := buildEventKey e in
  if isTyping e && negb (existsb (text_eqb eventKey) allowedWhileTyping) then
    {| pressedKeys := pressed; stopped := false; ran := None; shown := None |}
  else
    let pressed := Set_add (toLowerCase (e_key e)) pressed in
    match Map_get eventKey mp with
    | Some shortcut =>
        {| pressedKeys := pressed; stopped := true; ran := Some (action shortcut);
           shown := if raises (action shortcut)
                    then Some (L "Failed to execute: " ++ description shortcut)
                    else None |}
    | None => {| pressedKeys := pressed; stopped := false; ran := None; shown := None |}
    end.

Definition handleKeyUp (pressed : list text) (e : KeyboardEvent) : list text :=
  Set_delete (toLowerCase (e_key e)) pressed.

Definition handleBlur (pressed : list text) : list text := [].

(** The names every object inherits: [grouped[name]] is there before
    anything is stored under it. *)
Definition inherited_names : list text :=
  map L [ "constructor"; "hasOwnProperty"; "isPrototypeOf"; "propertyIsEnumerable";
          "toLocaleString"; "toString"; "valueOf"; "__proto__";
          "__defineGetter__"; "__defineSetter__"; "__lookupGetter__";
          "__lookupSetter__" ]%string.

(** [shortcut.category || 'General'] *)
Definition category_of (shortcut : KeyboardShortcut) : text :=
  match category shortcut with
  | Some c => if nonempty c then c else L "General"
  | None => L "General"
  end.

Fixpoint group_push (c : text) (shortcut : KeyboardShortcut)
    (grouped : list (text * list KeyboardShortcut)) : list (text * list KeyboardShortcut) :=
  match grouped with
  | [] => [(c, [shortcut])]
  | (c', members) :: rest =>
      if text_eqb c c' then (c', members ++ [shortcut]) :: rest
      else (c', members) :: group_push c shortcut rest
  end.

(** [getShortcutsByCategory()]: the groups in the order of their creation.
    Under an inherited name [grouped[category]] is not an array, and
    [push] raises. *)
Definition getShortcutsByCategory (mp : shortcut_map)
  : res (list (text * list KeyboardShortcut)) :=
  foldM (fun grouped kv =>
           let c := category_of (snd kv) in
           if existsb (text_eqb c) inherited_names then Exn TypeError
           else Val (group_push c (snd kv) grouped))
    mp [].

End Actions.

End Shortcuts.

Arguments Shortcuts.key {Action} _.
Arguments Shortcuts.ctrl {Action} _.
Arguments Shortcuts.cmd {Action} _.
Arguments Shortcuts.shift {Action} _.
Arguments Shortcuts.alt {Action} _.
Arguments Shortcuts.description {Action} _.
Arguments Shortcuts.action {Action} _.
Arguments Shortcuts.category {Action} _.
Arguments Shortcuts.buildShortcutKey {Action} _.
Arguments Shortcuts.Map_get {Action} _ _.
Arguments Shortcuts.Map_set {Action} _ _ _.
Arguments Shortcuts.Map_delete {Action} _ _.
Arguments Shortcuts.fill {Action} _.
Arguments Shortcuts.registerShortcut {Action} _ _.
Arguments Shortcuts.unregisterShortcut {Action} _ _.
Arguments Shortcuts.handleKeyDown {Action} _ _ _ _.
Arguments Shortcuts.category_of {Action} _.
Arguments Shortcuts.group_push {Action} _ _ _.
Arguments Shortcuts.getShortcutsByCategory {Action} _.
Arguments Shortcuts.pressedKeys {Action} _.
Arguments Shortcuts.stopped {Action} _.
Arguments Shortcuts.ran {Action} _.
Arguments Shortcuts.shown {Action} _.

(* ================================================================== *)
(** ** Images: the rest of [utils/imageHandler] *)

(** A path that [extractImagePaths] does not take for a local one. *)
Definition is_remote (imagePath : text) : bool :=
  starts_with (L "http://") imagePath || starts_with (L "https://") imagePath
  || starts_with (L "data:") imagePath.

(** [extractImagePaths(markdown)].  The two [exec] loops visit the matches
    that [matchAll] lists, no match of these patterns being empty;
    [[...new Set(paths)]] keeps the first occurrence of each path. *)
Definition extractImagePaths (markdown : text) : res (list text) :=
  do re1 <- RegExp_new (L standardImageRegex);
  do standardMatches <- matchAll (re_syntax re1) markdown;
  let paths := filter (fun imagePath => negb (is_remote imagePath))
                 (map (group 2) standardMatches) in
  do re2 <- RegExp_new (L obsidianImageRegex);
  do obsidianMatches <- matchAll (re_syntax re2) markdown;
  let paths := paths ++ map (group 1) obsidianMatches in
  Val (first_occurrences [] paths).

Record ImageMatchStatus : Type := {
  matched : list text;
  unmatched : list text;
  total : nat
}.

(** [getImageMatchStatus(markdown, imageMap)] *)
Definition getImageMatchStatus (markdown : text) (imageMap : image_map)
  : res ImageMatchStatus :=
  do requiredPaths <- extractImagePaths markdown;
  Val {| matched := filter (fun path => map_has path imageMap) requiredPaths;
         unmatched := filter (fun path => negb (map_has path imageMap)) requiredPaths;
         total := length requiredPaths |}.

(** The loop of [hasTransparency] over the bytes of the image data, from
    index [i] on: [for (; i < data.length; i += 40) if (data[i] < 255) return true]. *)
Fixpoint transparency_from (fuel : nat) (data : list nat) (i : nat) : bool :=
  match fuel with
  | 0 => false
  | S fuel' =>
      if i <? length data then
        if nth i data 255 <? 255 then true
        else transparency_from fuel' data (i + 40)
      else false
  end.

(** [hasTransparency(ctx, width, height)], [data] being
    [ctx.getImageData(0, 0, width, height).data]. *)
Definition hasTransparency (data : list nat) : bool :=
  transparency_from (length data) data 3.

(* ================================================================== *)
(** ** Variables and templates: the rest of [hooks/useVariables.ts] *)

(** What the hook holds: the variables, the templates, the list of user
    templates whose JSON text [localStorage] holds under
    'enhancemd-templates' ([None]: no entry), and the notifications shown. *)
Record Template : Type := {
  template_id : text;
  template_name : text;
  template_description : option text;
  template_content : text;
  template_variables : list TemplateVariable;
  template_category : option text
}.

Record VariablesState : Type := {
  variables : list TemplateVariable;
  templates : list Template;
  saved_templates : option (list Template);
  notices : list (toast_kind * text)
}.

Definition quote : text := [ascii_of_nat 34].

Definition notify (kind : toast_kind) (message : text) (s : VariablesState)
  : VariablesState :=
  {| variables := variables s; templates := templates s;
     saved_templates := saved_templates s;
     notices := notices s ++ [(kind, message)] |}.

Definition setVariables (vars : list TemplateVariable) (s : VariablesState)
  : VariablesState :=
  {| variables := vars; templates := templates s;
     saved_templates := saved_templates s; notices := notices s |}.

(** [addVariable(variable)] *)
Definition addVariable (variable : TemplateVariable) (s : VariablesState)
  : VariablesState :=
  notify toast_success (L "Variable " ++ quote ++ name variable ++ quote ++ L " added")
    (setVariables (variables s ++ [variable]) s).

(** [updateVariable(name, value)] *)
Definition updateVariable (name' value' : text) (s : VariablesState) : VariablesState :=
  setVariables
    (map (fun v => if text_eqb (name v) name'
                   then {| name := name v; value := value'; type := type v;
                           description := description v |}
                   else v)
       (variables s)) s.

(** [removeVariable(name)] *)
Definition removeVariable (name' : text) (s : VariablesState) : VariablesState :=
  notify toast_success (L "Variable " ++ quote ++ name' ++ quote ++ L " removed")
    (setVariables (filter (fun v => negb (text_eqb (name v) name')) (variables s)) s).

(** The [Partial<Variable>] the panel edits. *)
Record NewVariable : Type := {
  new_name : option text;
  new_value : option text;
  new_type : option var_type;
  new_description : option text
}.

Definition given (x : option text) : bool :=
  match x with Some s => nonempty s | None => false end.

(** [handleAddVariable] of the panel: the error it shows, or the variable
    it hands to [onAddVariable]. *)
Definition handleAddVariable (vars : list TemplateVariable) (newVariable : NewVariable)
  : text + TemplateVariable :=
  if negb (given (new_name newVariable)) || negb (given (new_value newVariable)) then
    inl (L "Variable name and value are required")
  else if existsb (fun v => text_eqb (name v) (or_undefined (new_name newVariable))) vars
  then inl (L "Variable name already exists")
  else inr {| name := or_undefined (new_name newVariable);
              value := or_undefined (new_value newVariable);
              type := match new_type newVariable with Some t => t | None => TText end;
              description := new_description newVariable |}.

Definition is_user_template (t : Template) : bool :=
  starts_with (L "user-") (template_id t).

Section TemplateStore.

(** [Date.now()] at the call, and whether [localStorage.setItem] takes
    the JSON text of a list of templates: when it does not it raises, and
    nothing catches it. *)
Variable setItem_takes : list Template -> bool.

Definition store_user_templates (updated : list Template) (s : VariablesState)
  : res VariablesState :=
  let userTemplates := filter is_user_template updated in
  if setItem_takes userTemplates then
    Val {| variables := variables s; templates := updated;
           saved_templates := Some userTemplates; notices := notices s |}
  else Beyond.

(** [saveTemplate(template)] *)
Definition saveTemplate (now : nat) (template : Template) (s : VariablesState)
  : res VariablesState :=
  let newTemplate :=
    {| template_id := L "user-" ++ decimal now;
       template_name := template_name template;
       template_description := template_description template;
       template_content := template_content template;
       template_variables := template_variables template;
       template_category := template_category template |} in
  do s <- store_user_templates (templates s ++ [newTemplate]) s;
  Val (notify toast_success
         (L "Template " ++ quote ++ template_name template ++ quote ++ L " saved") s).

(** [deleteTemplate(id)] *)
Definition deleteTemplate (id : text) (s : VariablesState) : res VariablesState :=
  if negb (starts_with (L "user-") id) then
    Val (notify toast_error (L "Cannot delete built-in templates") s)
  else
    do s <- store_user_templates
              (filter (fun t => negb (text_eqb (template_id t) id)) (templates s)) s;
    Val (notify toast_success (L "Template deleted") s).

End TemplateStore.

Section TemplateEngineUses.

Variable Function_call : list (text * context_value) -> text -> option text.

(** [loadTemplate(templateId)]: the state, in which the variables of the
    template are set before its content is processed, and what is returned
    ([None] for [null]). *)
Definition loadTemplate (templateId : text) (s : VariablesState)
  : VariablesState * res (option (text * list TemplateVariable)) :=
  match find (fun t => text_eqb (template_id t) templateId) (templates s) with
  | None => (s, Val None)
  | Some template =>
      (setVariables (template_variables template) s,
       do content <- processTemplate Function_call (template_content template)
                       (template_variables template);
       Val (Some (content, template_variables template)))
  end.

(** [getProcessedContent(content)] *)
Definition getProcessedContent (content : text) (s : VariablesState) : res text :=
  processTemplate Function_call content (variables s).

End TemplateEngineUses.

(* ================================================================== *)
(** ** The task list: [TaskList] in [components/SmartComponents.tsx] *)

Record ParsedTask : Type := {
  completed : bool;
  task_text : text
}.

Definition taskMarkerRegex : string := "^\[[xX\s]\]\s*".

(** The callback of [tasks.map] in [TaskList]. *)
Definition parseTask (task : text) : res ParsedTask :=
  let completed := starts_with (L "[x]") task || starts_with (L "[X]") task in
  do re <- RegExp_new (L taskMarkerRegex);
  do text <- replace_first re [] task;
  Val {| completed := completed; task_text := text |}.

(** [parsedTasks] and [completedCount] of [TaskList]. *)
Definition parsedTasks (tasks : list text) : res (list ParsedTask) :=
  mapM parseTask tasks.

Definition completedCount (parsed : list ParsedTask) : nat :=
  length (filter completed parsed).

(* ================================================================== *)
(** ** Recent documents: [updateRecentDocuments] in [App.tsx] *)

Record RecentDocument : Type := {
  doc_title : text;
  doc_savedAt : text;
  doc_content : text
}.

(** [content.substring(0, 200) + (content.length > 200 ? '...' : '')] *)
Definition preview (content : text) : text :=
  firstn 200 content ++ (if 200 <? length content then L "..." else []).

(** [updateRecentDocuments(title, content)]: the list it sets as the
    recent documents and writes to [localStorage]; [savedAt] is what
    [new Date().toISOString()] returns. *)
Definition updateRecentDocuments (savedAt title content : text)
    (recentDocuments : list RecentDocument) : list RecentDocument :=
  let newDocument :=
    {| doc_title := title; doc_savedAt := savedAt; doc_content := preview content |} in
  firstn 10
    (newDocument
       :: filter (fun doc => negb (text_eqb (doc_title doc) title)) recentDocuments).

(* ================================================================== *)
(** * Vocabulary of the properties *)

(** ** What a pattern matches

    [Steps total r inp rest]: the pattern [r] can take [inp] down to
    [rest], in a subject of [total] characters. *)

Inductive Steps (total : nat) : regex -> text -> text -> Prop :=
| St_empty inp : Steps total REmpty inp inp
| St_char a inp : Steps total (RChar a) (a :: inp) inp
| St_any x inp :
    is_line_terminator x = false -> Steps total RAny (x :: inp) inp
| St_set neg items x inp :
    set_matches neg items x = true -> Steps total (RSet neg items) (x :: inp) inp
| St_bol inp : length inp = total -> Steps total RBol inp inp
| St_eol : Steps total REol [] []
| St_seq a b i1 i2 i3 :
    Steps total a i1 i2 -> Steps total b i2 i3 -> Steps total (RSeq a b) i1 i3
| St_alt_l a b i1 i2 : Steps total a i1 i2 -> Steps total (RAlt a b) i1 i2
| St_alt_r a b i1 i2 : Steps total b i1 i2 -> Steps total (RAlt a b) i1 i2
| St_group idx a i1 i2 : Steps total a i1 i2 -> Steps total (RGroup idx a) i1 i2
| St_rep_done min max g a inp :
    min = 0 \/ max = Some 0 -> Steps total (RRep min max g a) inp inp
| St_rep_more min max g a i1 i2 i3 :
    max <> Some 0 ->
    Steps total a i1 i2 ->
    Steps total (RRep (pred min) (option_map pred max) g a) i2 i3 ->
    Steps total (RRep min max g a) i1 i3.

(** A matcher that finds only what the pattern admits. *)
Definition sound (total : nat) (r : regex) (b : matcher) : Prop :=
  forall inp c k x,
    b inp c k = x -> x <> MFail ->
    exists rest c', Steps total r inp rest /\ k rest c' = x.

(** The continuation of one iteration of a quantifier. *)
Definition iter_cont (fuel : nat) (body : matcher) (clear : caps -> caps)
    (min : nat) (max : option nat) (g : bool) (inp : text) (k : cont) : cont :=
  fun inp' c' =>
    if (min =? 0) && (length inp' =? length inp) then MFail
    else rep fuel body clear (pred min) (option_map pred max) g inp' c' k.

(** No position of [inp] admits a match. *)
Definition matchless (total : nat) (r : regex) (inp : text) : Prop :=
  forall before here rest, inp = before ++ here -> ~ Steps total r here rest.

(** A character that every match of the pattern takes. *)
Fixpoint must_take (a : ascii) (r : regex) : bool :=
  match r with
  | RChar c => Ascii.eqb c a
  | RSeq x y => must_take a x || must_take a y
  | RAlt x y => must_take a x && must_take a y
  | RGroup _ x => must_take a x
  | RRep min max _ x =>
      negb (min =? 0) && must_take a x
      && match max with Some 0 => false | _ => true end
  | _ => false
  end.

(** ** The patterns the program builds *)

(** [lits s r]: the characters of [s], one after the other, then [r]. *)
Definition lits (s : text) (r : regex) : regex :=
  fold_right (fun c acc => RSeq (RChar c) acc) r s.

(** Every character of the run reads as itself in a pattern: it has no
    meaning of its own, or it is a brace that opens no quantifier. *)
Fixpoint literal_run (s : text) : bool :=
  match s with
  | [] => true
  | c :: s' =>
      (negb (is_syntax_char c)
       || is_char "}" c
       || (is_char "{" c
           && match s' with x :: _ => negb (is_digit x) | [] => false end))
      && literal_run s'
  end.

(** Every character of [s] reads as itself in the pattern [s ++ rest]: it
    has no meaning of its own, or it is a brace that opens no quantifier
    there. *)
Fixpoint literal_in (s rest : text) : bool :=
  match s with
  | [] => true
  | c :: s' =>
      (negb (is_syntax_char c)
       || is_char "}" c
       || (is_char "{" c
           && match brace_quant (s' ++ rest) with None => true | Some _ => false end))
      && literal_in s' rest
  end.

(** The token of a literal character. *)
Definition atom_of (c : ascii) : token := TAtom (RChar c).

(** The parser's state after a run of literal characters. *)
Definition push_chars (s : text) (st : pstate) : pstate :=
  {| p_stack := p_stack st; p_alts := p_alts st;
     p_seq := rev (map RChar s) ++ p_seq st;
     p_groups := p_groups st;
     p_quantifiable := match s with [] => p_quantifiable st | _ => true end |}.

(** [[\s\S]*?] *)
Definition any_lazy : regex :=
  RRep 0 None false (RSet false [CSpace true; CSpace false]).

(** An opening tag, a lazily captured body, a closing tag. *)
Definition block_syntax (opening closing : text) : regex :=
  lits opening
    (RSeq (RGroup (Some 1) (RSeq any_lazy REmpty)) (lits closing REmpty)).

(** A name without pattern syntax that does not begin with a digit. *)
Definition plain_char (c : ascii) : bool := negb (is_syntax_char c).

Definition plain_name (n : text) : bool :=
  forallb plain_char n
  && match n with c :: _ => negb (is_digit c) | [] => true end.

(** A name without pattern syntax. *)
Definition syntax_free (n : text) : bool := forallb plain_char n.

(** A repetition count: digits, digits and a comma, or digits, a comma and
    digits.  Between braces it is read as a quantifier. *)
Definition repetition_count (n : text) : bool :=
  let (low, r) := span is_digit n in
  negb (length low =? 0)
  && match r with
     | [] => true
     | c :: high => is_char "," c && forallb is_digit high
     end.

(** A name that reads as itself between two pairs of braces. *)
Definition reference_name (n : text) : bool :=
  syntax_free n && negb (repetition_count n).

(** A parser's outcome on [inp]: a value and a shorter rest, or a
    SyntaxError. *)
Definition parsed {A} (inp : text) (r : res (A * text)) : Prop :=
  (exists a rest, r = Val (a, rest) /\ length rest < length inp)
  \/ r = Exn SyntaxError.

(** The first suffix of [inp] at which [k] does not fail. *)
Fixpoint first_success (k : cont) (inp : text) (c : caps) : mres :=
  orelse (k inp c)
    (fun _ => match inp with
              | _ :: inp' => first_success k inp' c
              | [] => MFail
              end).

(** ** Rewriting as a scan of the text

    [rewrite_text find 0 doc] reads [doc] from the left: where [find] sees
    an occurrence, of [n] characters and to be replaced by [rep], it writes
    [rep] and goes on after the occurrence; elsewhere it copies a
    character. *)

Fixpoint rewrite_text (find : text -> option (nat * text)) (skip : nat) (doc : text)
  : text :=
  match doc with
  | [] => []
  | x :: doc' =>
      match skip with
      | S n => rewrite_text find n doc'
      | 0 =>
          match find doc with
          | Some (n, rep) => rep ++ rewrite_text find (pred n) doc'
          | None => x :: rewrite_text find 0 doc'
          end
      end
  end.


(** Every region from an opening tag to the nearest closing tag replaced
    by its inner text ([keep = true]) or removed ([keep = false]). *)
Definition find_region (opening closing : text) (keep : bool) (d : text)
  : option (nat * text) :=
  if starts_with opening d then
    let body := skipn (length opening) d in
    match index_of closing body with
    | Some j => Some (length opening + j + length closing,
                      if keep then firstn j body else [])
    | None => None
    end
  else None.

Definition expand_regions (opening closing : text) (keep : bool) (doc : text) : text :=
  rewrite_text (find_region opening closing keep) 0 doc.

(** [find] describes the matches of [r] and what [f] makes of them. *)
Definition describes (r : regex) (total : nat) (f : rmatch -> res text)
    (find : text -> option (nat * text)) : Prop :=
  forall pos inp,
    match find inp with
    | Some (n, rep) =>
        1 <= n <= length inp /\
        exists c,
          match_here r total pos inp =
            Val (Some {| m_index := pos; m_text := firstn n inp; m_caps := c |}) /\
          f {| m_index := pos; m_text := firstn n inp; m_caps := c |} = Val rep
    | None => match_here r total pos inp = Val None
    end.

(** A replacement without dollar sign is inserted as it is. *)
Definition dollar_free (s : text) : bool := forallb (fun c => negb (is_char "$" c)) s.

(** [markers t]: somewhere in [t] two opening braces are followed, later,
    by two closing braces. *)
Definition markers (t : text) : bool :=
  match index_of (L "{{") t with
  | Some i => occurs (L "}}") (skipn (i + 2) t)
  | None => false
  end.

(** The pattern of pass 5. *)
Definition computed_syntax : regex :=
  lits (L "{{=")
    (RSeq (RRep 0 None true (RSet false [CSpace true]))
       (RSeq (RGroup (Some 1) (RSeq (RRep 1 None false RAny) REmpty))
          (RSeq (RRep 0 None true (RSet false [CSpace true]))
             (lits (L "}}") REmpty)))).

(** ** Examples of the template engine *)

(** An evaluator that always raises. *)
Definition no_evaluator : list (text * context_value) -> text -> option text :=
  fun _ _ => None.

(** A variable of type text. *)
Definition text_var (n v : string) : TemplateVariable :=
  {| name := L n; value := L v; type := TText; description := None |}.

(** A string literal of JSON. *)
Definition quoted (s : string) : text := [ascii_of_nat 34] ++ L s ++ [ascii_of_nat 34].

(** The list variable and the body of the example of list expansion. *)
Definition items_variable : TemplateVariable :=
  {| name := L "items";
     value := L "[{" ++ quoted "label" ++ L ":" ++ quoted "A" ++ L "},{"
              ++ quoted "label" ++ L ":" ++ quoted "B" ++ L "}]";
     type := TList;
     description := None |}.

Definition items_body : text := L "{{#items}}-{{label}}" ++ [LF] ++ L "{{/items}}".

(** ** Numerals *)



(** ** The patterns of the scanner and of the image helpers *)

(** The syntax tree of a pattern of the source. *)
Definition syntax_of (pattern : string) : regex :=
  match RegExp_new (L pattern) with
  | Val re => re_syntax re
  | _ => REmpty
  end.

Definition chart_syntax : regex := Eval cbv in syntax_of chartRegex.

Definition timeline_syntax : regex := Eval cbv in syntax_of timelineRegex.

Definition progress_syntax : regex := Eval cbv in syntax_of progressRegex.

Definition task_syntax : regex := Eval cbv in syntax_of taskRegex.

Definition alert_syntax : regex := Eval cbv in syntax_of alertRegex.

Definition stats_syntax : regex := Eval cbv in syntax_of statsRegex.

(** What follows the opening of a progress marker. *)
Definition progress_tail : regex :=
  RSeq (RGroup (Some 1) (RSeq (RRep 1 None true (RSet false [CDigit true])) REmpty))
    (RSeq (RRep 0 (Some 1) true
             (RGroup None
                (RSeq (RChar ":")
                   (RSeq (RGroup (Some 2) (RSeq (RRep 1 None false RAny) REmpty)) REmpty))))
       (RSeq (RChar "]") REmpty)).

(** What follows the dot of a file extension. *)
Definition ext_tail : regex :=
  RSeq (RRep 1 None true (RSet true [CChar "/"; CChar "."])) (RSeq REol REmpty).

(** A character of a file extension. *)
Definition ext_char (c : ascii) : bool := negb (is_char "/" c) && negb (is_char "." c).

(** ** Uploads

    The twelve forms of a file name under the conventional folders. *)
Definition twelve (filename : text) : list text :=
  [ filename;
    L "./" ++ filename;
    L "images/" ++ filename;
    L "./images/" ++ filename;
    L "assets/" ++ filename;
    L "./assets/" ++ filename;
    L "img/" ++ filename;
    L "./img/" ++ filename;
    L "pics/" ++ filename;
    L "./pics/" ++ filename;
    L "media/" ++ filename;
    L "./media/" ++ filename ].


(** Case mapping on 7-bit characters: [u] is [c] in upper case when it
    stands 32 places before the letter [c] of a..z, and is [c] itself for
    any other character; [l] is [c] in lower case when it stands 32 places
    after the letter [c] of A..Z, and is [c] itself otherwise. *)
Definition upper_of (c u : ascii) : Prop :=
  if (97 <=? code c) && (code c <=? 122) then code u + 32 = code c
  else code c < 128 -> u = c.

Definition lower_of (c l : ascii) : Prop :=
  if (65 <=? code c) && (code c <=? 90) then code l = code c + 32
  else code c < 128 -> l = c.

(** A character of a data URL: neither [!] nor [$]. *)
Definition url_char (c : ascii) : bool := negb (is_char "!" c) && negb (is_char "$" c).

Definition obsidian_syntax : regex := Eval cbv in syntax_of obsidianImageRegex.

Definition standard_syntax : regex := Eval cbv in syntax_of standardImageRegex.

(** Two compressors for examples: one that changes nothing, one that
    re-encodes every image into 200 KB. *)
Definition keep_as_is (file : File) : res File := Val file.

Definition shrink (file : File) : res File :=
  Val {| file_name := file_name file; file_type := L "image/jpeg";
         file_size := 200 * 1024;
         file_dataURL := Some (L "data:image/jpeg;base64,AAAA") |}.


Definition icon : File :=
  {| file_name := L "icon.gif"; file_type := L "image/gif";
     file_size := 2048;
     file_dataURL := Some (L "data:image/gif;base64,CCCC") |}.

Definition diagram : File :=
  {| file_name := L "diagram.PNG"; file_type := L "image/png";
     file_size := 300 * 1024;
     file_dataURL := Some (L "data:image/png;base64,iVBORw0KGgo=") |}.

(** The replacement of [inp], the part of the subject from [pos] on. *)
Definition resume (r : regex) (total : nat) (f : rmatch -> res text)
    (subject : text) (pos : nat) (inp : text) : res text :=
  do ms <- all_from r total 0 pos inp;
  splice f subject pos ms.

(** The test of the upload loop on the MIME type. *)
Definition is_image (file : File) : bool := starts_with (L "image/") (file_type file).

Section UploadOutcome.

Variable compressImage : File -> res File.

(** What becomes of one file of the batch. *)
Definition accepted (file : File) : bool :=
  is_image file && match ingest compressImage file with Val _ => true | _ => false end.

Definition rejected (file : File) : bool :=
  is_image file && match ingest compressImage file with Exn _ => true | _ => false end.

Definition rejection_toast (file : File) : text :=
  match ingest compressImage file with
  | Exn e => toast_of e file
  | _ => []
  end.

(** The map after the accepted files of a batch, in the order of the batch. *)
Definition embed_all (files : list File) (mp : image_map) : image_map :=
  fold_left
    (fun mp file =>
       match ingest compressImage file with
       | Val (base64, variations) =>
           fold_left (fun mp path => map_set path base64 mp) variations mp
       | _ => mp
       end)
    (filter is_image files) mp.

End UploadOutcome.

(** ** The rest of the program *)


Section ExportHistoryVocabulary.
Import ExportHistory.

(** The polynomial of base 31 over the character codes of a text. *)
Definition poly31 (s : text) : Z :=
  fold_left (fun h c => (31 * h + Z.of_nat (code c))%Z) s 0%Z.

(** An export, and a history that holds one. *)
Definition sample_export (n : string) : ExportHistoryItem :=
  {| id := L n; title := L "Notes"; format := markdown; timestamp := 1;
     theme := L "modern"; fileName := L "notes.md"; fileSize := None;
     exportData := Some (L "# Notes");
     settings := {| settings_theme := L "modern"; fontSize := L "medium";
                    spacing := L "normal"; fontFamily := L "sans-serif";
                    enhancements := {| coverPage := false; tableOfContents := false;
                                       pageNumbers := false; headerFooter := false |} |};
     contentHash := L "0" |}.

Definition sample_history : ExportHistoryState :=
  {| exports := [sample_export "export_1"]; isVisible := false; searchQuery := [];
     selectedFormat := None; storage := None; toasts := [] |}.

End ExportHistoryVocabulary.

Section ShortcutsVocabulary.
Import Shortcuts.

(** The members of a group. *)
Definition members {Action} (c : text)
    (grouped : list (text * list (Shortcuts.KeyboardShortcut Action)))
  : list (Shortcuts.KeyboardShortcut Action) :=
  match find (fun g => text_eqb c (fst g)) grouped with
  | Some g => snd g
  | None => []
  end.

(** A key that holds no plus sign. *)
Definition no_plus (s : text) : bool := forallb (fun c => negb (is_char "+" c)) s.

(** The shortcut that saves the document, under the key [k]. *)
Definition save_shortcut (k : string) : Shortcuts.KeyboardShortcut nat :=
  {| Shortcuts.key := L k; Shortcuts.ctrl := false; Shortcuts.cmd := true;
     Shortcuts.shift := false; Shortcuts.alt := false;
     Shortcuts.description := L "Save document"; Shortcuts.action := 0;
     Shortcuts.category := Some (L "File"); Shortcuts.customizable := true |}.

End ShortcutsVocabulary.

(** The pattern of standard images after its opening [![]. *)
Definition standard_tail : regex :=
  RSeq (RGroup (Some 1) (RSeq (RRep 0 None true (RSet true [CChar "]"])) REmpty))
    (RSeq (RChar "]")
       (RSeq (RChar "(")
          (RSeq (RGroup (Some 2) (RSeq (RRep 1 None true (RSet true [CChar ")"])) REmpty))
             (RSeq (RChar ")") REmpty)))).

(** A character of an alternative text, of a path. *)
Definition alt_char (c : ascii) : bool := negb (is_char "]" c).
Definition path_char (c : ascii) : bool := negb (is_char ")" c).

(** A text without the character [a]. *)
Definition without (a : ascii) (s : text) : bool :=
  forallb (fun c => negb (Ascii.eqb c a)) s.

(** The one reference of a text whose other parts hold no image syntax. *)
Definition reference (alt path : text) : text :=
  L "![" ++ alt ++ L "](" ++ path ++ L ")".

(** A character of an alternative text, of a path and of a data URL that
    neither ends its part of a reference nor has a meaning in a
    replacement. *)
Definition alt_text_char (c : ascii) : bool :=
  negb (is_char "]" c) && negb (is_char "[" c) && negb (is_char "!" c)
  && negb (is_char "$" c).

Definition path_text_char (c : ascii) : bool :=
  negb (is_char ")" c) && negb (is_char "!" c).

Definition data_char (c : ascii) : bool :=
  negb (is_char ")" c) && negb (is_char "!" c) && negb (is_char "$" c).




(** A state of the hook with one variable. *)
Definition author_only : VariablesState :=
  {| variables := [ {| name := L "author"; value := L "Anonymous"; type := TText;
                       description := None |} ];
     templates := []; saved_templates := None; notices := [] |}.

(** The template that [saveTemplate] adds at the time [now]. *)
Definition as_user_template (now : nat) (template : Template) : Template :=
  {| template_id := L "user-" ++ decimal now;
     template_name := template_name template;
     template_description := template_description template;
     template_content := template_content template;
     template_variables := template_variables template;
     template_category := template_category template |}.

(** A match lies in the subject: its text is what the subject holds from
    its index on. *)
Definition lies_in (subject : text) (index : nat) (taken : text) : Prop :=
  exists before after,
    subject = before ++ taken ++ after /\ index = length before.

(** What a descriptor takes from the match it is made from. *)
Definition made_from (mt : rmatch) (d : SmartComponentMatch) : Prop :=
  startIndex d = m_index mt
  /\ endIndex d = m_index mt + length (m_text mt)
  /\ content d = m_text mt.

(** A progress marker without a label. *)
Definition marker (ds : text) : text := L "[progress:" ++ ds ++ L "]".

(** The pattern of the task marker. *)
Definition task_marker_syntax : regex := Eval cbv in syntax_of taskMarkerRegex.

(** The longest prefix whose characters satisfy [p]. *)
Definition take_while (p : ascii -> bool) : text -> text :=
  fix go s := match s with
              | c :: s' => if p c then c :: go s' else []
              | [] => []
              end.

(** The character between the brackets of a task marker. *)
Definition box_char (c : ascii) : bool := is_char "x" c || is_char "X" c || is_space c.

(* ================================================================== *)
(** * Properties *)

(** ** Text *)

Lemma starts_with_app (p s : text) : starts_with p (p ++ s) = true.
Proof.
  induction p as [|a p IH]; simpl; [reflexivity|].
  now rewrite Ascii.eqb_refl, IH.
Qed.

Lemma starts_with_split (p s : text) :
  starts_with p s = true -> s = p ++ skipn (length p) s.
Proof.
  revert s; induction p as [|a p IH]; intros [|b s]; simpl; try easy.
  intros H. apply andb_prop in H as [Hab Hp].
  apply Ascii.eqb_eq in Hab. subst b. f_equal. now apply IH.
Qed.

Lemma occurs_here (p s : text) : starts_with p s = true -> occurs p s = true.
Proof. destruct s; simpl; intros ->; reflexivity. Qed.

Lemma occurs_tail (p : text) (c : ascii) (s : text) :
  occurs p s = true -> occurs p (c :: s) = true.
Proof. simpl. intros ->. apply orb_true_r. Qed.

Lemma occurs_suffix (p a s : text) : occurs p s = true -> occurs p (a ++ s) = true.
Proof. induction a; simpl; auto. intros H. rewrite (IHa H). apply orb_true_r. Qed.

Lemma absent_suffix (p a s : text) : occurs p (a ++ s) = false -> occurs p s = false.
Proof.
  intros H. destruct (occurs p s) eqn:E; [|reflexivity].
  now rewrite (occurs_suffix p a s E) in H.
Qed.

Lemma absent_here (p s : text) : occurs p s = false -> starts_with p s = false.
Proof.
  intros H. destruct (starts_with p s) eqn:E; [|reflexivity].
  now rewrite (occurs_here _ _ E) in H.
Qed.

Lemma starts_with_prefix (a b s : text) :
  starts_with (a ++ b) s = true -> starts_with a s = true.
Proof.
  revert s; induction a as [|x a IH]; intros [|y s]; simpl; try easy.
  intros H. apply andb_prop in H as [-> H]. simpl. now apply IH.
Qed.

Lemma occurs_prefix (a b s : text) : occurs (a ++ b) s = true -> occurs a s = true.
Proof.
  induction s as [|c s IH]; simpl.
  - rewrite !orb_false_r. apply starts_with_prefix.
  - intros H. apply orb_prop in H as [H|H].
    + now rewrite (starts_with_prefix _ _ _ H).
    + rewrite (IH H). apply orb_true_r.
Qed.

(* ------------------------------------------------------------------ *)
(** ** The matcher is sound

    [Steps total r inp rest]: the pattern [r] can take the text between
    [inp] and its suffix [rest]. *)

Lemma Steps_suffix total r inp rest :
  Steps total r inp rest -> exists taken, inp = taken ++ rest.
Proof.
  induction 1;
    try (now exists []); try (now eexists [_]); try assumption.
  - destruct IHSteps1 as [t1 ->], IHSteps2 as [t2 ->].
    exists (t1 ++ t2). now rewrite app_assoc.
  - destruct IHSteps1 as [t1 ->], IHSteps2 as [t2 ->].
    exists (t1 ++ t2). now rewrite app_assoc.
Qed.

Lemma Steps_length {total r inp rest} :
  Steps total r inp rest -> length rest <= length inp.
Proof.
  intros H. apply Steps_suffix in H as [t ->]. rewrite length_app. lia.
Qed.

Lemma orelse_cases (a : mres) (b : unit -> mres) (x : mres) :
  orelse a b = x -> x <> MFail -> a = x \/ (a = MFail /\ b tt = x).
Proof. destruct a; simpl; intros; subst; auto. Qed.

Lemma rep_S fuel body clear min max g inp c k :
  rep (S fuel) body clear min max g inp c k =
  match max with
  | Some 0 => k inp c
  | _ =>
      let again := body inp (clear c) (iter_cont fuel body clear min max g inp k) in
      if negb (min =? 0) then again
      else if g then orelse again (fun _ => k inp c)
      else orelse (k inp c) (fun _ => again)
  end.
Proof. reflexivity. Qed.

Lemma rep_sound total a body clear g :
  sound total a body ->
  forall fuel min max inp c k x,
    min + length inp < fuel ->
    rep fuel body clear min max g inp c k = x -> x <> MFail ->
    exists rest c', Steps total (RRep min max g a) inp rest /\ k rest c' = x.
Proof.
  intros Hbody. induction fuel as [|fuel IH]; intros min max inp c k x Hfuel Hx Hnf.
  { lia. }
  rewrite rep_S in Hx.
  assert (Hiter : forall y,
    body inp (clear c) (iter_cont fuel body clear min max g inp k) = y ->
    y <> MFail -> max <> Some 0 ->
    exists rest c', Steps total (RRep min max g a) inp rest /\ k rest c' = y).
  { intros y Hy Hynf Hmax.
    destruct (Hbody _ _ _ _ Hy Hynf) as (i & ci & Hstep & Hd).
    unfold iter_cont in Hd.
    destruct ((min =? 0) && (length i =? length inp)) eqn:E; [congruence|].
    pose proof (Steps_length Hstep) as Hlen.
    assert (Hf : pred min + length i < fuel).
    { apply andb_false_iff in E as [E|E]; apply Nat.eqb_neq in E; lia. }
    destruct (IH _ _ _ _ _ _ Hf Hd Hynf) as (rest & c' & Hrest & Hk).
    exists rest, c'. split; [|assumption].
    eapply St_rep_more; eassumption. }
  assert (Hdone : forall y, k inp c = y -> min = 0 \/ max = Some 0 ->
    exists rest c', Steps total (RRep min max g a) inp rest /\ k rest c' = y).
  { intros y Hy Hm. exists inp, c. split; [now apply St_rep_done | assumption]. }
  assert (Hloop : max <> Some 0 ->
    (let again := body inp (clear c) (iter_cont fuel body clear min max g inp k) in
     if negb (min =? 0) then again
     else if g then orelse again (fun _ => k inp c)
     else orelse (k inp c) (fun _ => again)) = x ->
    exists rest c', Steps total (RRep min max g a) inp rest /\ k rest c' = x).
  { intros Hmax Hx'. cbv zeta in Hx'.
    destruct (min =? 0) eqn:Emin; simpl negb in Hx'; cbv iota in Hx'.
    - apply Nat.eqb_eq in Emin.
      destruct g; apply orelse_cases in Hx' as [Hx'|[_ Hx']]; auto.
    - auto. }
  destruct max as [[|mx]|].
  - apply Hdone; auto.
  - apply Hloop; [discriminate | exact Hx].
  - apply Hloop; [discriminate | exact Hx].
Qed.

Theorem m_sound total r : sound total r (m r total).
Proof.
  induction r as [ | a | | neg items | | | r1 IH1 r2 IH2 | r1 IH1 r2 IH2
                 | idx r IH | mn mx g r IH ];
    intros inp c k x Hx Hnf; cbn [m] in Hx.
  - exists inp, c. split; [constructor | assumption].
  - destruct inp as [|y inp]; [congruence|].
    destruct (Ascii.eqb y a) eqn:E; [|congruence].
    apply Ascii.eqb_eq in E. subst y.
    exists inp, c. split; [constructor | assumption].
  - destruct inp as [|y inp]; [congruence|].
    destruct (is_line_terminator y) eqn:E; [congruence|].
    exists inp, c. split; [now constructor | assumption].
  - destruct inp as [|y inp]; [congruence|].
    destruct (set_matches neg items y) eqn:E; [|congruence].
    exists inp, c. split; [now constructor | assumption].
  - destruct (length inp =? total) eqn:E; [|congruence].
    apply Nat.eqb_eq in E.
    exists inp, c. split; [now constructor | assumption].
  - destruct inp; [|congruence].
    exists [], c. split; [constructor | assumption].
  - destruct (IH1 _ _ _ _ Hx Hnf) as (i & ci & H1 & H2).
    destruct (IH2 _ _ _ _ H2 Hnf) as (j & cj & H3 & H4).
    exists j, cj. split; [econstructor; eassumption | assumption].
  - apply orelse_cases in Hx as [Hx|[_ Hx]]; try assumption.
    + destruct (IH1 _ _ _ _ Hx Hnf) as (i & ci & H1 & H2).
      exists i, ci. split; [now apply St_alt_l | assumption].
    + destruct (IH2 _ _ _ _ Hx Hnf) as (i & ci & H1 & H2).
      exists i, ci. split; [now apply St_alt_r | assumption].
  - destruct idx as [n|].
    + destruct (IH _ _ _ _ Hx Hnf) as (i & ci & H1 & H2).
      eexists i, _. split; [now constructor | exact H2].
    + destruct (IH _ _ _ _ Hx Hnf) as (i & ci & H1 & H2).
      exists i, ci. split; [now constructor | assumption].
  - apply (rep_sound total r (m r total) (clear_caps (groups_of r)) g IH (S (mn + length inp)) mn mx inp c k x);
      [lia | exact Hx | exact Hnf].
Qed.

(* ------------------------------------------------------------------ *)
(** ** Attempts and searches *)

Lemma firstn_taken (taken rest : text) :
  firstn (length (taken ++ rest) - length rest) (taken ++ rest) = taken.
Proof.
  rewrite length_app, Nat.add_sub. rewrite firstn_app, Nat.sub_diag, firstn_all.
  simpl. apply app_nil_r.
Qed.

Lemma match_here_cases r total pos inp :
  match_here r total pos inp = Val None \/
  exists taken rest c,
    inp = taken ++ rest /\ Steps total r inp rest /\
    match_here r total pos inp =
      Val (Some {| m_index := pos; m_text := taken; m_caps := c |}).
Proof.
  unfold match_here.
  destruct (m r total inp [] (fun rest c => MFound rest c)) as [rest c| |] eqn:E.
  - right.
    destruct (m_sound total r inp [] _ (MFound rest c) E) as (rest' & c' & Hs & Hk);
      [discriminate|].
    injection Hk as -> ->.
    destruct (Steps_suffix _ _ _ _ Hs) as [taken ->].
    exists taken, rest, c. rewrite firstn_taken. auto.
  - now left.
  - destruct (m_sound total r inp [] _ MFuel E) as (rest' & c' & _ & Hk);
      [discriminate|discriminate].
Qed.

Lemma match_here_none r total pos inp :
  (forall rest, ~ Steps total r inp rest) ->
  match_here r total pos inp = Val None.
Proof.
  intros H. destruct (match_here_cases r total pos inp) as [E|(t & rest & c & _ & Hs & _)].
  - exact E.
  - now apply H in Hs.
Qed.

Lemma all_from_total r total skip pos inp :
  exists ms, all_from r total skip pos inp = Val ms.
Proof.
  revert skip pos. induction inp as [|x inp IH]; intros skip pos.
  - destruct skip; simpl; [|now eexists].
    destruct (match_here_cases r total pos []) as [->|(t & rest & c & _ & _ & ->)];
      simpl; now eexists.
  - destruct skip as [|skip]; simpl; [|apply IH].
    destruct (match_here_cases r total pos (x :: inp))
      as [->|(t & rest & c & _ & _ & ->)]; simpl; [apply IH|].
    destruct (IH (pred (length t)) (S pos)) as [ms ->]. simpl. now eexists.
Qed.

Lemma matchAll_total r s : exists ms, matchAll r s = Val ms.
Proof. apply all_from_total. Qed.

Lemma exec_from_total r total pos inp :
  exists found, exec_from r total pos inp = Val found.
Proof.
  revert pos. induction inp as [|x inp IH]; intros pos; simpl.
  - destruct (match_here_cases r total pos []) as [->|(t & rest & c & _ & _ & ->)];
      simpl; now eexists.
  - destruct (match_here_cases r total pos (x :: inp))
      as [->|(t & rest & c & _ & _ & ->)]; simpl; [apply IH | now eexists].
Qed.

Lemma matchless_tail total r x inp :
  matchless total r (x :: inp) -> matchless total r inp.
Proof. intros H b h rest ->. apply (H (x :: b) h rest). reflexivity. Qed.

Lemma all_from_matchless r total pos inp :
  matchless total r inp -> all_from r total 0 pos inp = Val [].
Proof.
  revert pos. induction inp as [|x inp IH]; intros pos H; simpl.
  - rewrite match_here_none; [reflexivity|]. intros rest. now apply (H [] []).
  - rewrite match_here_none; [|intros rest; now apply (H [] (x :: inp))].
    simpl. apply IH. eapply matchless_tail, H.
Qed.

Lemma replace_all_with_matchless re f subject :
  matchless (length subject) (re_syntax re) subject ->
  replace_all_with re f subject = Val subject.
Proof.
  intros H. unfold replace_all_with, matchAll.
  now rewrite all_from_matchless.
Qed.

Lemma must_take_spec total a r inp rest :
  Steps total r inp rest -> must_take a r = true ->
  exists before after, inp = before ++ a :: after ++ rest.
Proof.
  induction 1 as [ | | | | | | r1 r2 i1 i2 i3 H1 IH1 H2 IH2 | r1 r2 i1 i2 H1 IH1
                 | r1 r2 i1 i2 H1 IH1 | idx r1 i1 i2 H1 IH1 | mn mx g r1 i1 Hz
                 | mn mx g r1 i1 i2 i3 Hmx H1 IH1 H2 IH2 ];
    simpl; intros Hm; try discriminate.
  - apply Ascii.eqb_eq in Hm. subst. now exists [], [].
  - destruct (Steps_suffix _ _ _ _ H1) as [t1 E1].
    destruct (Steps_suffix _ _ _ _ H2) as [t2 E2].
    apply orb_prop in Hm as [Hm|Hm].
    + destruct (IH1 Hm) as (bf & af & E). rewrite E, E2.
      exists bf, (af ++ t2). now rewrite <- !app_assoc.
    + destruct (IH2 Hm) as (bf & af & E). rewrite E1, E.
      exists (t1 ++ bf), af. now rewrite <- !app_assoc.
  - apply andb_prop in Hm as [Hm _]. auto.
  - apply andb_prop in Hm as [_ Hm]. auto.
  - auto.
  - apply andb_prop in Hm as [Hm Hmax]. apply andb_prop in Hm as [Hmin _].
    destruct Hz as [->| ->]; discriminate.
  - apply andb_prop in Hm as [Hm _]. apply andb_prop in Hm as [_ Hm].
    destruct (IH1 Hm) as (bf & af & E).
    destruct (Steps_suffix _ _ _ _ H2) as [t2 E2].
    rewrite E, E2. exists bf, (af ++ t2). now rewrite <- !app_assoc.
Qed.


(* ------------------------------------------------------------------ *)
(** ** Patterns that are plain text *)

Lemma syntax_char_cases c :
  is_syntax_char c = false ->
  is_char "\" c = false /\ is_char "^" c = false /\ is_char "$" c = false /\
  is_char "." c = false /\ is_char "*" c = false /\ is_char "+" c = false /\
  is_char "?" c = false /\ is_char "(" c = false /\ is_char ")" c = false /\
  is_char "[" c = false /\ is_char "]" c = false /\ is_char "{" c = false /\
  is_char "}" c = false /\ is_char "|" c = false.
Proof.
  unfold is_syntax_char, is_char. simpl. intros H.
  repeat (apply orb_false_iff in H as [? H]). repeat split; assumption.
Qed.

Lemma lex_one_plain c rest :
  is_syntax_char c = false -> lex_one c rest = Val (atom_of c, 0).
Proof.
  intros H. apply syntax_char_cases in H.
  destruct H as (H1 & H2 & H3 & H4 & H5 & H6 & H7 & H8 & H9 & H10 & H11 & H12 & H13 & H14).
  unfold lex_one.
  now rewrite H1, H2, H3, H4, H5, H6, H7, H8, H9, H10, H12, H14.
Qed.

Lemma lex_one_close_brace c rest :
  is_char "}" c = true -> lex_one c rest = Val (atom_of c, 0).
Proof.
  unfold is_char. intros H. apply Ascii.eqb_eq in H. subst c. reflexivity.
Qed.

Lemma brace_quant_nondigit x rest :
  is_digit x = false -> brace_quant (x :: rest) = None.
Proof. intros H. unfold brace_quant. simpl. now rewrite H. Qed.

Lemma lex_one_open_brace c x rest :
  is_char "{" c = true -> is_digit x = false ->
  lex_one c (x :: rest) = Val (atom_of c, 0).
Proof.
  unfold is_char at 1. intros H Hx. apply Ascii.eqb_eq in H. subst c.
  unfold lex_one. simpl is_char. cbv iota.
  now rewrite brace_quant_nondigit.
Qed.

Lemma lex_one_brace c rest :
  is_char "{" c = true -> brace_quant rest = None ->
  lex_one c rest = Val (atom_of c, 0).
Proof.
  unfold is_char at 1. intros H Hq. apply Ascii.eqb_eq in H. subst c.
  unfold lex_one. simpl is_char. cbv iota. now rewrite Hq.
Qed.

Lemma tokenize_literal_in s rest :
  literal_in s rest = true ->
  (rest = [] \/ s <> []) ->
  tokenize 0 (s ++ rest) = do ts <- tokenize 0 rest; Val (map atom_of s ++ ts).
Proof.
  induction s as [|c s IH]; intros Hrun Hne.
  - simpl. now destruct (tokenize 0 rest).
  - cbn [literal_in] in Hrun. apply andb_prop in Hrun as [Hc Hs].
    assert (Hlex : lex_one c (s ++ rest) = Val (atom_of c, 0)).
    { apply orb_prop in Hc as [Hc|Hc]; [apply orb_prop in Hc as [Hc|Hc]|].
      - apply lex_one_plain. now apply negb_true_iff.
      - now apply lex_one_close_brace.
      - apply andb_prop in Hc as [Hb Hq].
        apply lex_one_brace; [assumption|].
        now destruct (brace_quant (s ++ rest)). }
    change (tokenize 0 ((c :: s) ++ rest))
      with (do t <- lex_one c (s ++ rest);
            do ts <- tokenize (snd t) (s ++ rest); Val (fst t :: ts)).
    rewrite Hlex. simpl bind. simpl snd. simpl fst.
    destruct s as [|x s].
    + simpl app. simpl map. now destruct (tokenize 0 rest).
    + rewrite IH; [|assumption|right; discriminate].
      now destruct (tokenize 0 rest).
Qed.

Lemma literal_run_in s rest : literal_run s = true -> literal_in s rest = true.
Proof.
  induction s as [|c s IH]; [reflexivity|]. cbn [literal_run literal_in].
  intros H. apply andb_prop in H as [Hc Hs]. rewrite (IH Hs), andb_true_r.
  apply orb_prop in Hc as [Hc|Hc]; [now rewrite Hc|].
  apply andb_prop in Hc as [Hb Hd]. rewrite Hb. cbn [andb].
  destruct s as [|x s]; [discriminate|]. apply negb_true_iff in Hd.
  cbn [app]. rewrite (brace_quant_nondigit x (s ++ rest) Hd).
  now rewrite orb_true_r.
Qed.

Lemma tokenize_literal s rest :
  literal_run s = true ->
  (rest = [] \/ s <> []) ->
  tokenize 0 (s ++ rest) = do ts <- tokenize 0 rest; Val (map atom_of s ++ ts).
Proof. intros H. apply tokenize_literal_in. now apply literal_run_in. Qed.

Lemma foldM_app {A S} (f : S -> A -> res S) (a b : list A) (s : S) :
  foldM f (a ++ b) s = do s' <- foldM f a s; foldM f b s'.
Proof.
  revert s. induction a as [|x a IH]; intros s; simpl; [reflexivity|].
  destruct (f s x); simpl; auto.
Qed.

Lemma parse_literal s st :
  foldM parse_token (map atom_of s) st = Val (push_chars s st).
Proof.
  revert st. induction s as [|c s IH]; intros st.
  - now destruct st.
  - simpl foldM. rewrite IH. unfold push_chars. simpl.
    rewrite <- app_assoc. simpl. now destruct s.
Qed.

Lemma seq_onto_lits s acc :
  fold_left (fun acc r => RSeq r acc) (rev (map RChar s)) acc = lits s acc.
Proof.
  rewrite <- fold_left_rev_right, rev_involutive.
  unfold lits. induction s; simpl; congruence.
Qed.

(** A pattern that is plain text throughout. *)
Lemma RegExp_new_literal s :
  literal_in s [] = true ->
  RegExp_new s = Val {| re_syntax := lits s REmpty; re_groups := 0 |}.
Proof.
  intros H. unfold RegExp_new.
  rewrite <- (app_nil_r s) at 1.
  rewrite tokenize_literal_in by auto. simpl bind. rewrite app_nil_r.
  rewrite parse_literal. simpl bind. unfold parse_end, push_chars. simpl.
  unfold seq_of. rewrite app_nil_r, seq_onto_lits. reflexivity.
Qed.

Lemma RegExp_new_block opening closing :
  literal_run opening = true -> literal_run closing = true -> opening <> [] ->
  RegExp_new (opening ++ L "([\s\S]*?)" ++ closing) =
  Val {| re_syntax := block_syntax opening closing; re_groups := 1 |}.
Proof.
  intros Ho Hc Hne. unfold RegExp_new.
  rewrite tokenize_literal by auto.
  assert (Hmid : tokenize 0 (L "([\s\S]*?)" ++ closing) =
                 Val ([TOpen true; TAtom (RSet false [CSpace true; CSpace false]);
                       TQuant 0 None false; TClose] ++ map atom_of closing)).
  { rewrite <- (app_nil_r closing) at 1.
    pose proof (tokenize_literal closing [] Hc (or_introl eq_refl)) as Ht.
    simpl bind in Ht.
    cbn -[tokenize]. cbn [tokenize]. cbn -[tokenize].
    rewrite Ht. rewrite app_nil_r. reflexivity. }
  rewrite Hmid. simpl bind.
  rewrite foldM_app, parse_literal. cbn [bind].
  cbn [foldM parse_token bind push_chars p_quantifiable p_seq p_stack p_alts
       p_groups pstate0 f_index f_alts f_seq].
  destruct opening as [|o opening]; [congruence|].
  cbn [foldM parse_token bind push_chars p_quantifiable p_seq p_stack p_alts
       p_groups pstate0 f_index f_alts f_seq app rev map].
  rewrite parse_literal. cbn [bind].
  unfold parse_end, push_chars. simpl p_stack. cbv iota. simpl p_alts.
  simpl p_seq. simpl p_groups.
  unfold alt_of, seq_of, block_syntax. simpl fold_left at 1.
  change (rev (map RChar opening) ++ [RChar o]) with (rev (map RChar (o :: opening))).
  rewrite app_nil_r, fold_left_app. cbn [fold_left].
  rewrite !seq_onto_lits. reflexivity.
Qed.

Lemma literal_run_plain n t :
  forallb plain_char n = true -> literal_run t = true -> literal_run (n ++ t) = true.
Proof.
  induction n as [|c n IH]; simpl; intros Hn Ht; [assumption|].
  apply andb_prop in Hn as [Hc Hn]. unfold plain_char in Hc.
  rewrite Hc. simpl. auto.
Qed.

Lemma plain_name_chars n : plain_name n = true -> forallb plain_char n = true.
Proof. unfold plain_name. intros H. now apply andb_prop in H as [H _]. Qed.

Lemma span_append f s t :
  match snd (span f s), t with
  | [], c :: _ => f c = false
  | _, _ => True
  end ->
  span f (s ++ t) = (fst (span f s), snd (span f s) ++ t).
Proof.
  induction s as [|x s IH]; cbn [span app fst snd].
  - destruct t as [|c t]; [reflexivity|]. cbn [span]. now intros ->.
  - destruct (f x); [|reflexivity].
    destruct (span f s) as [a b]. cbn [fst snd] in *.
    intros H. now rewrite (IH H).
Qed.

Lemma span_parts f s : s = fst (span f s) ++ snd (span f s).
Proof.
  induction s as [|x s IH]; [reflexivity|]. cbn [span].
  destruct (f x); [|reflexivity].
  destruct (span f s) as [a b]. cbn [fst snd app] in *. now f_equal.
Qed.

Lemma span_all f s : snd (span f s) = [] -> forallb f s = true.
Proof.
  induction s as [|x s IH]; [reflexivity|]. cbn [span forallb].
  destruct (f x); [|discriminate].
  destruct (span f s) as [a b]. cbn [snd] in *. auto.
Qed.

Lemma syntax_free_tail a b : syntax_free (a ++ b) = true -> syntax_free b = true.
Proof.
  unfold syntax_free. rewrite forallb_app. intros H. now apply andb_prop in H as [_ H].
Qed.

(** Between braces, a name without pattern syntax is read as a quantifier
    only when it is a repetition count. *)
Lemma brace_quant_reference n :
  syntax_free n = true -> repetition_count n = false ->
  brace_quant (n ++ L "}}") = None.
Proof.
  intros Hfree Hcount. unfold brace_quant.
  rewrite span_append by (destruct (snd (span is_digit n)); [reflexivity|exact I]).
  unfold repetition_count in Hcount.
  pose proof (span_parts is_digit n) as Hn.
  destruct (span is_digit n) as [low r]. cbn [fst snd] in *.
  destruct low as [|d low]; [reflexivity|].
  cbn [length Nat.eqb negb andb] in Hcount.
  destruct r as [|c high]; [discriminate|].
  rewrite Hn in Hfree. apply syntax_free_tail in Hfree.
  unfold syntax_free in Hfree. cbn [forallb] in Hfree.
  apply andb_prop in Hfree as [Hc Hhigh].
  cbn [app].
  replace (is_char "}" c) with false
    by (revert Hc; unfold plain_char, is_char;
        destruct (Ascii.eqb_spec c "}"); [subst; discriminate|reflexivity]).
  destruct (is_char "," c); [|reflexivity]. cbn [andb] in Hcount.
  rewrite span_append by (destruct (snd (span is_digit high)); [reflexivity|exact I]).
  pose proof (span_parts is_digit high) as Hh.
  pose proof (span_all is_digit high) as Hall.
  destruct (span is_digit high) as [d2 r3]. cbn [fst snd] in *.
  destruct r3 as [|c' r3]; [rewrite Hall in Hcount by reflexivity; discriminate|].
  cbn [app]. rewrite Hh in Hhigh. fold (syntax_free (d2 ++ c' :: r3)) in Hhigh.
  apply syntax_free_tail in Hhigh. unfold syntax_free in Hhigh.
  cbn [forallb] in Hhigh. apply andb_prop in Hhigh as [Hc' _].
  replace (is_char "}" c') with false
    by (revert Hc'; unfold plain_char, is_char;
        destruct (Ascii.eqb_spec c' "}"); [subst; discriminate|reflexivity]).
  reflexivity.
Qed.

Lemma plain_name_free n : plain_name n = true -> syntax_free n = true.
Proof. apply plain_name_chars. Qed.

Lemma plain_name_reference n : plain_name n = true -> reference_name n = true.
Proof.
  intros H. unfold reference_name. rewrite (plain_name_free n H). cbn [andb].
  unfold plain_name in H. apply andb_prop in H as [_ Hd].
  unfold repetition_count. destruct n as [|c n]; [reflexivity|].
  cbn [span]. apply negb_true_iff in Hd. now rewrite Hd.
Qed.

Lemma reference_name_free n : reference_name n = true -> syntax_free n = true.
Proof. unfold reference_name. intros H. now apply andb_prop in H as [H _]. Qed.

Lemma literal_in_plain n t rest :
  syntax_free n = true -> literal_in t rest = true -> literal_in (n ++ t) rest = true.
Proof.
  unfold syntax_free. induction n as [|c n IH]; cbn [forallb app literal_in];
    intros Hn Ht; [assumption|].
  apply andb_prop in Hn as [Hc Hn]. unfold plain_char in Hc.
  rewrite Hc. cbn [orb andb]. auto.
Qed.

Lemma literal_in_reference n :
  reference_name n = true -> literal_in (L "{{" ++ n ++ L "}}") [] = true.
Proof.
  intros H. pose proof (reference_name_free n H) as Hfree.
  unfold reference_name in H. apply andb_prop in H as [_ Hcount].
  apply negb_true_iff in Hcount.
  change (L "{{" ++ n ++ L "}}") with ("{"%char :: "{"%char :: n ++ L "}}").
  cbn [literal_in]. rewrite !app_nil_r.
  rewrite (brace_quant_reference n Hfree Hcount).
  rewrite (brace_quant_nondigit "{" (n ++ L "}}")) by reflexivity.
  rewrite literal_in_plain by (auto; reflexivity).
  reflexivity.
Qed.

Ltac literal_tag :=
  unfold syntax_free; intros; cbn; apply literal_run_plain; [assumption | reflexivity].

Lemma literal_run_list_open n :
  syntax_free n = true -> literal_run (L "{{#" ++ n ++ L "}}") = true.
Proof. literal_tag. Qed.

Lemma literal_run_list_close n :
  syntax_free n = true -> literal_run (L "{{/" ++ n ++ L "}}") = true.
Proof. literal_tag. Qed.

Lemma literal_run_if n :
  syntax_free n = true -> literal_run (L "{{#if " ++ n ++ L "}}") = true.
Proof. literal_tag. Qed.

Lemma literal_run_unless n :
  syntax_free n = true -> literal_run (L "{{#unless " ++ n ++ L "}}") = true.
Proof. literal_tag. Qed.

(** The patterns of the four passes over variables. *)
Lemma simple_regex n :
  reference_name n = true ->
  RegExp_new (L "{{" ++ n ++ L "}}") =
  Val {| re_syntax := lits (L "{{" ++ n ++ L "}}") REmpty; re_groups := 0 |}.
Proof. intros H. now apply RegExp_new_literal, literal_in_reference. Qed.

Lemma list_regex n :
  syntax_free n = true ->
  RegExp_new (L "{{#" ++ n ++ L "}}([\s\S]*?){{/" ++ n ++ L "}}") =
  Val {| re_syntax := block_syntax (L "{{#" ++ n ++ L "}}") (L "{{/" ++ n ++ L "}}");
         re_groups := 1 |}.
Proof.
  intros H.
  change (L "{{#" ++ n ++ L "}}([\s\S]*?){{/" ++ n ++ L "}}")
    with (L "{{#" ++ n ++ L "}}" ++ L "([\s\S]*?)" ++ L "{{/" ++ n ++ L "}}").
  replace (L "{{#" ++ n ++ L "}}" ++ L "([\s\S]*?)" ++ L "{{/" ++ n ++ L "}}")
    with ((L "{{#" ++ n ++ L "}}") ++ L "([\s\S]*?)" ++ (L "{{/" ++ n ++ L "}}"))
    by now rewrite <- !app_assoc.
  apply RegExp_new_block; [now apply literal_run_list_open
                          | now apply literal_run_list_close | discriminate].
Qed.

Lemma if_regex n :
  syntax_free n = true ->
  RegExp_new (L "{{#if " ++ n ++ L "}}([\s\S]*?){{/if}}") =
  Val {| re_syntax := block_syntax (L "{{#if " ++ n ++ L "}}") (L "{{/if}}");
         re_groups := 1 |}.
Proof.
  intros H.
  change (L "{{#if " ++ n ++ L "}}([\s\S]*?){{/if}}")
    with (L "{{#if " ++ n ++ L "}}" ++ L "([\s\S]*?)" ++ L "{{/if}}").
  replace (L "{{#if " ++ n ++ L "}}" ++ L "([\s\S]*?)" ++ L "{{/if}}")
    with ((L "{{#if " ++ n ++ L "}}") ++ L "([\s\S]*?)" ++ L "{{/if}}")
    by now rewrite <- !app_assoc.
  apply RegExp_new_block; [now apply literal_run_if | reflexivity | discriminate].
Qed.

Lemma unless_regex n :
  syntax_free n = true ->
  RegExp_new (L "{{#unless " ++ n ++ L "}}([\s\S]*?){{/unless}}") =
  Val {| re_syntax := block_syntax (L "{{#unless " ++ n ++ L "}}") (L "{{/unless}}");
         re_groups := 1 |}.
Proof.
  intros H.
  change (L "{{#unless " ++ n ++ L "}}([\s\S]*?){{/unless}}")
    with (L "{{#unless " ++ n ++ L "}}" ++ L "([\s\S]*?)" ++ L "{{/unless}}").
  replace (L "{{#unless " ++ n ++ L "}}" ++ L "([\s\S]*?)" ++ L "{{/unless}}")
    with ((L "{{#unless " ++ n ++ L "}}") ++ L "([\s\S]*?)" ++ L "{{/unless}}")
    by now rewrite <- !app_assoc.
  apply RegExp_new_block; [now apply literal_run_unless | reflexivity | discriminate].
Qed.

(* ------------------------------------------------------------------ *)
(** ** What the matcher does on the patterns of the program *)

Lemma m_lits s r total inp c k :
  m (lits s r) total inp c k =
  if starts_with s inp then m r total (skipn (length s) inp) c k else MFail.
Proof.
  revert inp. induction s as [|a s IH]; intros inp; [reflexivity|].
  cbn [lits fold_right m]. destruct inp as [|x inp]; [reflexivity|].
  cbn [starts_with length skipn]. rewrite (Ascii.eqb_sym x a).
  destruct (Ascii.eqb a x); [|reflexivity]. simpl. apply IH.
Qed.

Lemma Steps_lits total s r inp rest :
  Steps total (lits s r) inp rest ->
  exists inp', inp = s ++ inp' /\ Steps total r inp' rest.
Proof.
  revert inp. induction s as [|a s IH]; intros inp H.
  - now exists inp.
  - cbn [lits fold_right] in H. inversion H as [ | | | | | | ? ? ? i2 ? Ha Hb | | | | | ]; subst.
    inversion Ha; subst.
    destruct (IH _ Hb) as (inp' & -> & Hr). now exists inp'.
Qed.

Lemma Steps_seq total a b inp rest :
  Steps total (RSeq a b) inp rest ->
  exists mid, Steps total a inp mid /\ Steps total b mid rest.
Proof. inversion 1; subst; eauto. Qed.

Lemma Steps_group total idx a inp rest :
  Steps total (RGroup idx a) inp rest -> Steps total a inp rest.
Proof. inversion 1; subst; auto. Qed.

Lemma Steps_empty total inp rest : Steps total REmpty inp rest -> inp = rest.
Proof. inversion 1; subst; auto. Qed.

Lemma clear_caps_nil c : clear_caps [] c = c.
Proof.
  unfold clear_caps. induction c as [|kv c IH]; simpl; [reflexivity|]. now f_equal.
Qed.

Lemma any_char_matches x : set_matches false [CSpace true; CSpace false] x = true.
Proof. unfold set_matches. simpl. now destruct (is_space x). Qed.

Lemma lazy_any total fuel inp c k :
  length inp < fuel ->
  rep fuel (m (RSet false [CSpace true; CSpace false]) total) (clear_caps [])
      0 None false inp c k
  = first_success k inp c.
Proof.
  revert inp. induction fuel as [|fuel IH]; intros inp Hf; [lia|].
  rewrite rep_S. cbv zeta. cbn [Nat.eqb negb].
  destruct inp as [|x inp]; cbn [first_success m]; [reflexivity|].
  rewrite any_char_matches, clear_caps_nil. unfold iter_cont at 1.
  cbn [Nat.eqb andb length option_map pred].
  replace (length inp =? S (length inp)) with false
    by (symmetry; apply Nat.eqb_neq; lia).
  rewrite IH by (simpl in Hf; lia). reflexivity.
Qed.

Lemma index_of_none p s : index_of p s = None <-> occurs p s = false.
Proof.
  induction s as [|x s IH]; simpl.
  - destruct (starts_with p []); simpl; split; congruence.
  - destruct (starts_with p (x :: s)); simpl; [split; congruence|].
    rewrite <- IH. destruct (index_of p s); simpl; split; congruence.
Qed.

Lemma index_of_some p s i :
  index_of p s = Some i ->
  s = firstn i s ++ p ++ skipn (i + length p) s /\ i + length p <= length s.
Proof.
  revert i. induction s as [|x s IH]; intros i; simpl.
  - destruct (starts_with p []) eqn:E; [|discriminate].
    intros [= <-]. destruct p; [auto|discriminate].
  - destruct (starts_with p (x :: s)) eqn:E.
    + intros [= <-]. cbn [firstn app Nat.add].
      pose proof (starts_with_split _ _ E) as Hs. split; [exact Hs|].
      apply (f_equal (@length ascii)) in Hs. rewrite length_app in Hs.
      cbn [length] in *. lia.
    + destruct (index_of p s) as [j|] eqn:Ej; [|discriminate]. simpl.
      intros [= <-]. destruct (IH j eq_refl) as [Hs Hl]. simpl.
      split; [now rewrite <- Hs | lia].
Qed.

(** Before the first occurrence there is none. *)
Lemma index_of_before p s i :
  index_of p s = Some i ->
  forall a b, s = a ++ b -> length a < i -> starts_with p b = false.
Proof.
  revert i. induction s as [|x s IH]; intros i Hi a b Hs Hlt.
  - simpl in Hi. destruct (starts_with p []); [|discriminate].
    injection Hi as <-. lia.
  - simpl in Hi. destruct (starts_with p (x :: s)) eqn:E.
    + injection Hi as <-. lia.
    + destruct (index_of p s) as [j|] eqn:Ej; [|discriminate].
      injection Hi as <-. destruct a as [|y a].
      * simpl in Hs. now subst b.
      * injection Hs as -> Hs. apply (IH j eq_refl a b Hs). simpl in Hlt. lia.
Qed.

Lemma first_success_literal total closing (g : text -> caps -> caps) inp c :
  first_success
    (fun i c' => m (lits closing REmpty) total i (g i c') (fun rest c'' => MFound rest c''))
    inp c
  = match index_of closing inp with
    | Some j => MFound (skipn (j + length closing) inp) (g (skipn j inp) c)
    | None => MFail
    end.
Proof.
  induction inp as [|x inp IH]; cbn [first_success index_of]; rewrite m_lits.
  - destruct (starts_with closing []); reflexivity.
  - destruct (starts_with closing (x :: inp)) eqn:E; [reflexivity|].
    cbn [orelse]. rewrite IH. destruct (index_of closing inp); reflexivity.
Qed.

(** One attempt of a block pattern: the opening tag must be here, and the
    body runs to the nearest closing tag. *)
Lemma match_here_block opening closing total pos inp :
  match_here (block_syntax opening closing) total pos inp =
  if starts_with opening inp then
    let body := skipn (length opening) inp in
    match index_of closing body with
    | Some j =>
        Val (Some {| m_index := pos;
                     m_text := firstn (length opening + j + length closing) inp;
                     m_caps := [(1, firstn j body)] |})
    | None => Val None
    end
  else Val None.
Proof.
  unfold match_here, block_syntax. rewrite m_lits.
  destruct (starts_with opening inp) eqn:Eo; [|reflexivity].
  cbv zeta. set (body := skipn (length opening) inp).
  unfold any_lazy. cbn [m].
  change (groups_of (RSet false [CSpace true; CSpace false])) with (@nil nat).
  change (fun (inp0 : text) (c : caps) (k : cont) =>
            match inp0 with
            | [] => MFail
            | x :: inp' =>
                if set_matches false [CSpace true; CSpace false] x
                then k inp' c else MFail
            end)
    with (m (RSet false [CSpace true; CSpace false]) total).
  rewrite lazy_any by lia.
  rewrite (first_success_literal total closing
             (fun i c' => set_cap 1 (firstn (length body - length i) body) c')).
  destruct (index_of closing body) as [j|] eqn:Ej; [|reflexivity].
  destruct (index_of_some _ _ _ Ej) as [Hb Hl].
  pose proof (starts_with_split _ _ Eo) as Hi. fold body in Hi.
  assert (Hlen : length inp = length opening + length body).
  { rewrite Hi at 1. apply length_app. }
  f_equal. f_equal. f_equal.
  - rewrite length_skipn. f_equal. lia.
  - unfold set_cap. simpl. f_equal. f_equal. f_equal.
    rewrite length_skipn. lia.
Qed.

(* ------------------------------------------------------------------ *)
(** ** Replacing, position by position *)

Lemma skipn_middle (before : text) (x : ascii) (inp : text) :
  skipn (length before) (before ++ x :: inp) =
  x :: skipn (S (length before)) (before ++ x :: inp).
Proof. induction before as [|b before IH]; [reflexivity | exact IH]. Qed.

Section Resume.

Variables (r : regex) (total : nat) (f : rmatch -> res text) (subject : text).

Lemma all_from_skip n pos inp :
  n <= length inp ->
  all_from r total n pos inp = all_from r total 0 (pos + n) (skipn n inp).
Proof.
  revert pos inp. induction n as [|n IH]; intros pos inp Hn.
  - now rewrite Nat.add_0_r.
  - destruct inp as [|x inp]; [simpl in Hn; lia|].
    cbn [all_from skipn]. rewrite IH by (simpl in Hn; lia).
    f_equal. lia.
Qed.

Lemma all_from_index skip pos inp ms :
  all_from r total skip pos inp = Val ms ->
  Forall (fun mt => pos + skip <= m_index mt) ms.
Proof.
  revert skip pos ms. induction inp as [|x inp IH]; intros skip pos ms.
  - destruct skip; cbn [all_from].
    + destruct (match_here_cases r total pos []) as [->|(t & rest & c & _ & _ & ->)];
        cbn [bind]; intros [= <-]; repeat constructor. simpl. lia.
    + intros [= <-]. constructor.
  - destruct skip as [|skip]; cbn [all_from].
    + destruct (match_here_cases r total pos (x :: inp))
        as [->|(t & rest & c & _ & _ & ->)]; cbn [bind m_text].
      * intros H. apply IH in H. eapply Forall_impl; [|exact H].
        simpl. intros; lia.
      * destruct (all_from r total (pred (length t)) (S pos) inp) as [more| |] eqn:E;
          cbn [bind]; try discriminate.
        intros [= <-]. constructor; [simpl; lia|].
        apply IH in E. eapply Forall_impl; [|exact E]. simpl. intros; lia.
    + intros H. apply IH in H. eapply Forall_impl; [|exact H].
      simpl. intros; lia.
Qed.

Lemma splice_advance before x inp ms :
  subject = before ++ x :: inp ->
  Forall (fun mt => S (length before) <= m_index mt) ms ->
  splice f subject (length before) ms =
  do t <- splice f subject (S (length before)) ms; Val (x :: t).
Proof.
  intros Hs Hms.
  assert (Hk : skipn (length before) subject = x :: skipn (S (length before)) subject).
  { rewrite Hs. apply skipn_middle. }
  destruct ms as [|mt ms]; cbn [splice].
  - now rewrite Hk.
  - pose proof (Forall_inv Hms) as Hmt. cbn beta in Hmt.
    destruct (f mt) as [rp| |]; cbn [bind]; try reflexivity.
    destruct (splice f subject (m_index mt + length (m_text mt)) ms);
      cbn [bind]; try reflexivity.
    rewrite Hk.
    replace (m_index mt - length before) with (S (m_index mt - S (length before)))
      by lia.
    reflexivity.
Qed.

(** No match here: the character stays. *)
Lemma resume_keep before x inp :
  subject = before ++ x :: inp ->
  match_here r total (length before) (x :: inp) = Val None ->
  resume r total f subject (length before) (x :: inp) =
  do t <- resume r total f subject (S (length before)) inp; Val (x :: t).
Proof.
  intros Hs Hm. unfold resume. cbn [all_from]. rewrite Hm. cbn [bind].
  destruct (all_from_total r total 0 (S (length before)) inp) as [ms E].
  rewrite E. cbn [bind].
  apply (splice_advance before x inp); [assumption|].
  apply all_from_index in E. eapply Forall_impl; [|exact E]. simpl. intros; lia.
Qed.

(** A match here: its replacement, and on after it. *)
Lemma resume_replace before taken rest c :
  subject = before ++ taken ++ rest ->
  taken <> [] ->
  match_here r total (length before) (taken ++ rest) =
    Val (Some {| m_index := length before; m_text := taken; m_caps := c |}) ->
  resume r total f subject (length before) (taken ++ rest) =
  do rp <- f {| m_index := length before; m_text := taken; m_caps := c |};
  do t <- resume r total f subject (length before + length taken) rest;
  Val (rp ++ t).
Proof.
  intros Hs Hne Hm. unfold resume.
  destruct taken as [|x taken]; [congruence|].
  cbn [app all_from]. cbn [app] in Hm. rewrite Hm. cbn [bind m_text length pred].
  rewrite all_from_skip by (rewrite length_app; lia).
  rewrite skipn_app, Nat.sub_diag, skipn_all. cbn [skipn app].
  replace (S (length before) + length taken) with (length before + S (length taken))
    by lia.
  destruct (all_from_total r total 0 (length before + S (length taken)) rest)
    as [ms ->].
  cbn [bind splice m_index m_text length].
  destruct (f _) as [rp| |]; cbn [bind]; try reflexivity.
  destruct (splice f subject (length before + S (length taken)) ms);
    cbn [bind]; try reflexivity.
  now rewrite Nat.sub_diag.
Qed.

Lemma resume_end :
  match_here r total (length subject) [] = Val None ->
  resume r total f subject (length subject) [] = Val [].
Proof.
  intros Hm. unfold resume. cbn [all_from]. rewrite Hm. cbn [bind splice].
  now rewrite skipn_all.
Qed.

End Resume.

Lemma replace_all_with_resume re f subject :
  replace_all_with re f subject =
  resume (re_syntax re) (length subject) f subject 0 subject.
Proof. reflexivity. Qed.

(** A replacement returns when its replacer does. *)
Lemma splice_total f subject next ms :
  (forall mt, exists t, f mt = Val t) ->
  exists t, splice f subject next ms = Val t.
Proof.
  intros Hf. revert next. induction ms as [|mt ms IH]; intros next; cbn [splice].
  - now eexists.
  - destruct (Hf mt) as [r ->]. cbn [bind].
    destruct (IH (m_index mt + length (m_text mt))) as [tl ->]. cbn [bind].
    now eexists.
Qed.

Lemma replace_all_with_total re f subject :
  (forall mt, exists t, f mt = Val t) ->
  exists t, replace_all_with re f subject = Val t.
Proof.
  intros Hf. unfold replace_all_with.
  destruct (matchAll_total (re_syntax re) subject) as [ms ->]. cbn [bind].
  now apply splice_total.
Qed.

Lemma replace_all_total re replacement subject :
  exists t, replace_all re replacement subject = Val t.
Proof. apply replace_all_with_total. intros mt. now eexists. Qed.

(* ------------------------------------------------------------------ *)
(** ** Rewriting as a scan of the text *)

Lemma rewrite_text_skip find n doc :
  n <= length doc ->
  rewrite_text find n doc = rewrite_text find 0 (skipn n doc).
Proof.
  revert doc. induction n as [|n IH]; intros doc Hn; [reflexivity|].
  destruct doc as [|x doc]; [simpl in Hn; lia|].
  cbn [rewrite_text skipn]. apply IH. simpl in Hn. lia.
Qed.

Lemma resume_rewrite r total f subject find :
  describes r total f find ->
  forall n inp before,
    length inp <= n ->
    subject = before ++ inp ->
    resume r total f subject (length before) inp = Val (rewrite_text find 0 inp).
Proof.
  intros Hd. induction n as [|n IH]; intros inp before Hn Hs.
  - destruct inp; [|simpl in Hn; lia].
    pose proof (Hd (length before) []) as H.
    destruct (find []) as [[k rep]|].
    + destruct H as [[H1 H2] _]. simpl in H2. lia.
    + rewrite app_nil_r in Hs. subst before. now apply resume_end.
  - destruct inp as [|x inp].
    { apply (IH [] before); [simpl; lia | assumption]. }
    pose proof (Hd (length before) (x :: inp)) as H.
    cbn [rewrite_text].
    destruct (find (x :: inp)) as [[k rep]|].
    + destruct H as [[H1 H2] (c & Hm & Hf)].
      assert (Hsplit : x :: inp = firstn k (x :: inp) ++ skipn k (x :: inp))
        by (symmetry; apply firstn_skipn).
      assert (Hlen : length (firstn k (x :: inp)) = k)
        by (apply firstn_length_le; exact H2).
      rewrite Hsplit at 1.
      rewrite (resume_replace r total f subject before
                 (firstn k (x :: inp)) (skipn k (x :: inp)) c).
      * rewrite Hf. cbn [bind]. rewrite Hlen.
        replace (length before + k) with (length (before ++ firstn k (x :: inp)))
          by (rewrite length_app; lia).
        rewrite (IH (skipn k (x :: inp)) (before ++ firstn k (x :: inp))).
        -- cbn [bind]. f_equal. f_equal.
           destruct k as [|k]; [lia|]. cbn [pred skipn].
           symmetry. apply rewrite_text_skip. simpl in H2. now apply le_S_n.
        -- rewrite length_skipn. cbn [length] in *. lia.
        -- rewrite <- app_assoc, <- Hsplit. assumption.
      * rewrite <- Hsplit. assumption.
      * destruct k; [lia|]. discriminate.
      * rewrite <- Hsplit. exact Hm.
    + rewrite (resume_keep r total f subject before x inp Hs H).
      replace (S (length before)) with (length (before ++ [x]))
        by (rewrite length_app; simpl; lia).
      rewrite (IH inp (before ++ [x])).
      * reflexivity.
      * simpl in Hn. lia.
      * rewrite <- app_assoc. assumption.
Qed.

Theorem replace_all_with_rewrite re f subject find :
  describes (re_syntax re) (length subject) f find ->
  replace_all_with re f subject = Val (rewrite_text find 0 subject).
Proof.
  intros Hd. rewrite replace_all_with_resume.
  apply (resume_rewrite _ _ _ _ _ Hd (length subject) subject []); auto.
Qed.

(* ------------------------------------------------------------------ *)
(** ** The passes of the template engine, for plain names *)

Lemma substitute_dollar_free groups mt subject template :
  dollar_free template = true ->
  GetSubstitution groups mt subject template = template.
Proof.
  unfold GetSubstitution. induction template as [|c t IH]; [reflexivity|].
  simpl. intros H. apply andb_prop in H as [Hc Ht].
  apply negb_true_iff in Hc. rewrite Hc. f_equal. auto.
Qed.



Lemma describes_block opening closing total (keep : bool) :
  opening <> [] ->
  describes (block_syntax opening closing) total
    (fun mt => if keep then Val (or_undefined (capture 1 mt)) else Val [])
    (find_region opening closing keep).
Proof.
  intros Hne pos inp. unfold find_region. rewrite match_here_block.
  destruct (starts_with opening inp) eqn:E; [|reflexivity].
  cbv zeta. destruct (index_of closing (skipn (length opening) inp)) as [j|] eqn:Ej;
    [|reflexivity].
  destruct (index_of_some _ _ _ Ej) as [_ Hl]. rewrite length_skipn in Hl.
  pose proof (starts_with_split _ _ E) as Hs.
  apply (f_equal (@length ascii)) in Hs. rewrite length_app, length_skipn in Hs.
  split.
  - destruct opening; [congruence|]. simpl in *. lia.
  - eexists. split; [reflexivity|]. unfold capture. simpl. now destruct keep.
Qed.



Theorem expand_unless_spec processed v :
  syntax_free (name v) = true ->
  expand_unless processed v =
  Val (expand_regions (L "{{#unless " ++ name v ++ L "}}") (L "{{/unless}}")
         (negb (truthy (value v))) processed).
Proof.
  intros Hn. unfold expand_unless. rewrite unless_regex by assumption. cbn [bind].
  apply replace_all_with_rewrite. cbn [re_syntax].
  apply describes_block. discriminate.
Qed.

(* ------------------------------------------------------------------ *)
(** ** [JSON.parse] always answers *)

Lemma skip_ws_length s : length (skip_ws s) <= length s.
Proof.
  unfold skip_ws. induction s as [|c s IH]; [reflexivity|].
  cbn [drop_while]. destruct (is_json_space c); cbn [length]; lia.
Qed.

Lemma parsed_longer {A} (inp inp' : text) (r : res (A * text)) :
  parsed inp r -> length inp <= length inp' -> parsed inp' r.
Proof.
  intros [(a & rest & -> & Hlt)| ->] Hle; [left|now right].
  exists a, rest. split; [reflexivity|lia].
Qed.

Lemma parsed_map {A B} (inp : text) (r : res (A * text)) (f : A -> B) :
  parsed inp r -> parsed inp (do x <- r; Val (f (fst x), snd x)).
Proof.
  intros [(a & rest & -> & Hlt)| ->]; [left|now right].
  exists (f a), rest. split; [reflexivity|assumption].
Qed.

Lemma json_string_parsed n :
  forall inp, length inp <= n -> parsed inp (json_string inp).
Proof.
  induction n as [|n IH]; intros inp Hn.
  - destruct inp; [now right | cbn [length] in Hn; lia].
  - destruct inp as [|c rest]; [now right|]. cbn [length] in Hn.
    cbn [json_string].
    destruct (is_quote c).
    { left. exists (Some []), rest. split; [reflexivity | cbn [length]; lia]. }
    destruct (code c <? 32); [now right|].
    destruct (is_char "\" c).
    + destruct rest as [|e rest']; [now right|]. cbn [length] in Hn.
      assert (Hsimple : forall x,
                parsed (c :: e :: rest')
                  (do r <- json_string rest'; Val (option_map (cons x) (fst r), snd r))).
      { intros x. apply (parsed_map _ _ (option_map (cons x))).
        apply (parsed_longer rest'); [apply IH; lia | cbn [length]; lia]. }
      destruct (is_quote e || is_char "\" e || is_char "/" e); [apply Hsimple|].
      destruct (is_char "b" e); [apply Hsimple|].
      destruct (is_char "f" e); [apply Hsimple|].
      destruct (is_char "n" e); [apply Hsimple|].
      destruct (is_char "r" e); [apply Hsimple|].
      destruct (is_char "t" e); [apply Hsimple|].
      destruct (is_char "u" e); [|now right].
      destruct rest' as [|h1 [|h2 [|h3 [|h4 rest'']]]]; try now right.
      cbn [length] in Hn.
      destruct (hex_value h1), (hex_value h2), (hex_value h3), (hex_value h4);
        try now right.
      assert (Hrest : parsed rest'' (json_string rest'')) by (apply IH; lia).
      destruct Hrest as [(a & r & -> & Hlt)| ->]; [|now right].
      cbn [bind fst snd]. left.
      destruct ((_ =? 0) && (_ =? 0)); eexists _, r;
        (split; [reflexivity | cbn [length]; lia]).
    + apply (parsed_map _ _ (option_map (cons c))).
      apply (parsed_longer rest); [apply IH; lia | cbn [length]; lia].
Qed.

Lemma span_length f s : length (snd (span f s)) <= length s.
Proof.
  induction s as [|c s IH]; [reflexivity|]. cbn [span].
  destruct (f c); [|reflexivity].
  destruct (span f s) as [a b]. cbn [snd length] in *. lia.
Qed.

Lemma span_taken f s :
  fst (span f s) <> [] -> length (snd (span f s)) < length s.
Proof.
  destruct s as [|c s]; cbn [span]; [intros H; now destruct H|].
  destruct (f c); [|intros H; now destruct H].
  pose proof (span_length f s) as H.
  destruct (span f s) as [a b]. cbn [snd length] in *. intros _. lia.
Qed.

Lemma json_number_shorter inp lit rest :
  json_number inp = Some (lit, rest) -> length rest < length inp.
Proof.
  unfold json_number.
  set (sr := match inp with
             | c :: r => if is_char "-" c then ([c], r) else ([], inp)
             | [] => ([], inp)
             end).
  assert (H0 : length (snd sr) <= length inp).
  { unfold sr. destruct inp as [|c r]; [reflexivity|].
    destruct (is_char "-" c); cbn [snd length]; lia. }
  destruct sr as [sign r0]. cbn [snd] in H0.
  pose proof (span_taken is_digit r0) as H1.
  destruct (span is_digit r0) as [int r1]. cbn [fst snd] in H1.
  set (fr := match r1 with
             | c :: r =>
                 if is_char "." c
                 then let (ds, r') := span is_digit r in
                      (c :: ds, r', negb (length ds =? 0))
                 else ([], r1, true)
             | [] => ([], r1, true)
             end).
  assert (H2 : length (snd (fst fr)) <= length r1).
  { unfold fr. destruct r1 as [|c r]; [reflexivity|].
    destruct (is_char "." c); [|reflexivity].
    pose proof (span_length is_digit r) as H.
    destruct (span is_digit r) as [ds r']. cbn [fst snd length] in *. lia. }
  destruct fr as [[frac r2] frac_ok]. cbn [fst snd] in H2.
  set (er := match r2 with
             | c :: r =>
                 if is_char "e" c || is_char "E" c then
                   let (sg, r') := match r with
                                   | s :: r'' => if is_char "+" s || is_char "-" s
                                                 then ([s], r'') else ([], r)
                                   | [] => ([], r)
                                   end in
                   let (ds, r'') := span is_digit r' in
                   (c :: sg ++ ds, r'', negb (length ds =? 0))
                 else ([], r2, true)
             | [] => ([], r2, true)
             end).
  assert (H3 : length (snd (fst er)) <= length r2).
  { unfold er. destruct r2 as [|c r]; [reflexivity|].
    destruct (is_char "e" c || is_char "E" c); [|reflexivity].
    set (gr := match r with
               | s :: r'' => if is_char "+" s || is_char "-" s
                             then ([s], r'') else ([], r)
               | [] => ([], r)
               end).
    assert (Hg : length (snd gr) <= length r).
    { unfold gr. destruct r as [|s r'']; [reflexivity|].
      destruct (is_char "+" s || is_char "-" s); cbn [snd length]; lia. }
    destruct gr as [sg r']. cbn [snd] in Hg.
    pose proof (span_length is_digit r') as H.
    destruct (span is_digit r') as [ds r'']. cbn [fst snd length] in *. lia. }
  destruct er as [[expo r3] expo_ok]. cbn [fst snd] in H3.
  destruct int as [|d int]; [discriminate|].
  assert (Hlt : length r1 < length r0) by (apply H1; discriminate).
  match goal with |- (if ?b then _ else _) = _ -> _ => destruct b end;
    [|discriminate].
  intros [= _ <-]. lia.
Qed.

Lemma starts_with_length p s : starts_with p s = true -> length p <= length s.
Proof.
  revert s. induction p as [|a p IH]; intros [|b s]; cbn [starts_with length];
    try lia; try discriminate.
  intros H. apply andb_prop in H as [_ H]. apply IH in H. lia.
Qed.

(** Enough steps for a value, for the elements of an array and for the
    members of an object. *)
Lemma json_parsed fuel :
  forall inp,
    (2 * length inp + 1 <= fuel -> parsed inp (json_value fuel inp))
    /\ (2 * length inp + 2 <= fuel -> parsed inp (json_elements fuel inp))
    /\ (2 * length inp + 2 <= fuel -> parsed inp (json_members fuel inp)).
Proof.
  induction fuel as [|fuel IH]; intros inp; [repeat split; intros; lia|].
  pose proof (skip_ws_length inp) as Hws.
  split; [|split]; intros Hfuel.
  - cbn [json_value]. destruct (skip_ws inp) as [|c rest] eqn:E; [now right|].
    cbn [length] in Hws.
    destruct (is_quote c).
    { apply (parsed_map _ _ string_value).
      apply (parsed_longer rest); [apply (json_string_parsed (length rest)); lia | lia]. }
    destruct (is_char "[" c).
    { pose proof (skip_ws_length rest) as Hws'.
      destruct (skip_ws rest) as [|c' rest'] eqn:E'; [now right|].
      cbn [length] in Hws'.
      destruct (is_char "]" c').
      - left. exists (JArr []), rest'. split; [reflexivity|lia].
      - apply (parsed_map _ _ JArr).
        apply (parsed_longer rest); [apply IH; lia | lia]. }
    destruct (is_char "{" c).
    { pose proof (skip_ws_length rest) as Hws'.
      destruct (skip_ws rest) as [|c' rest'] eqn:E'; [now right|].
      cbn [length] in Hws'.
      destruct (is_char "}" c').
      - left. exists (JObj []), rest'. split; [reflexivity|lia].
      - apply (parsed_map _ _ object_value).
        apply (parsed_longer rest); [apply IH; lia | lia]. }
    destruct (starts_with (L "true") (c :: rest)) eqn:Et.
    { left. eexists _, _. split; [reflexivity|].
      apply starts_with_length in Et. cbn [length L list_ascii_of_string] in Et.
      rewrite length_skipn. lia. }
    destruct (starts_with (L "false") (c :: rest)) eqn:Ef.
    { left. eexists _, _. split; [reflexivity|].
      apply starts_with_length in Ef. cbn [length L list_ascii_of_string] in Ef.
      rewrite length_skipn. lia. }
    destruct (starts_with (L "null") (c :: rest)) eqn:En.
    { left. eexists _, _. split; [reflexivity|].
      apply starts_with_length in En. cbn [length L list_ascii_of_string] in En.
      rewrite length_skipn. lia. }
    destruct (json_number (c :: rest)) as [[lit rest']|] eqn:Enum; [|now right].
    left. exists (JNum lit), rest'. split; [reflexivity|].
    apply json_number_shorter in Enum. cbn [length] in Enum. lia.
  - cbn [json_elements].
    destruct (proj1 (IH inp)) as [(v & after & -> & Hv)| ->]; [lia| |now right].
    cbn [bind snd fst].
    pose proof (skip_ws_length after) as Hws'.
    destruct (skip_ws after) as [|c rest] eqn:E; [now right|].
    cbn [length] in Hws'.
    destruct (is_char "]" c).
    { left. exists [v], rest. split; [reflexivity|lia]. }
    destruct (is_char "," c); [|now right].
    apply (parsed_map _ _ (cons v)).
    apply (parsed_longer rest); [apply IH; lia | lia].
  - cbn [json_members].
    destruct (skip_ws inp) as [|q after_quote] eqn:E; [now right|].
    cbn [length] in Hws.
    destruct (is_quote q); [|now right].
    destruct (json_string_parsed (length after_quote) after_quote (le_n _))
      as [(k & after_key & -> & Hk)| ->]; [|now right].
    cbn [bind snd fst].
    pose proof (skip_ws_length after_key) as Hws'.
    destruct (skip_ws after_key) as [|colon after_colon] eqn:E'; [now right|].
    cbn [length] in Hws'.
    destruct (is_char ":" colon); [|now right].
    destruct (proj1 (IH after_colon)) as [(v & after & -> & Hv)| ->]; [lia| |now right].
    cbn [bind snd fst].
    pose proof (skip_ws_length after) as Hws''.
    destruct (skip_ws after) as [|c rest] eqn:E''; [now right|].
    cbn [length] in Hws''.
    destruct (is_char "}" c).
    { left. eexists _, rest. split; [reflexivity|lia]. }
    destruct (is_char "," c); [|now right].
    apply (parsed_map _ _ (add_member k v)).
    apply (parsed_longer rest); [apply IH; lia | lia].
Qed.

(** [JSON.parse] returns a value or raises a SyntaxError. *)
Lemma JSON_parse_total source :
  (exists j, JSON_parse source = Val j) \/ JSON_parse source = Exn SyntaxError.
Proof.
  unfold JSON_parse.
  destruct (proj1 (json_parsed (2 * length source + 1) source) (le_n _))
    as [(j & rest & -> & _)| ->]; [|now right].
  cbn [bind snd fst]. destruct (skip_ws rest); [left; eauto | now right].
Qed.

(** An array begins with an opening bracket. *)
Lemma JSON_parse_array source items :
  JSON_parse source = Val (JArr items) ->
  exists rest, skip_ws source = "["%char :: rest.
Proof.
  unfold JSON_parse.
  replace (2 * length source + 1) with (S (2 * length source)) by lia.
  cbn [json_value].
  destruct (skip_ws source) as [|c rest]; [discriminate|].
  destruct (is_quote c).
  { destruct (json_string rest) as [[[s|] r]| |]; cbn [bind fst snd string_value];
      try discriminate; destruct (skip_ws r); discriminate. }
  destruct (is_char "[" c) eqn:E.
  { intros _. unfold is_char in E. apply Ascii.eqb_eq in E. subst c. now exists rest. }
  destruct (is_char "{" c).
  { destruct (skip_ws rest) as [|c' rest']; [discriminate|].
    destruct (is_char "}" c').
    - cbn [bind fst snd]. destruct (skip_ws rest'); discriminate.
    - destruct (json_members (2 * length source) rest) as [[[fs|] r]| |];
        cbn [bind fst snd object_value]; try discriminate;
        destruct (skip_ws r); discriminate. }
  destruct (starts_with (L "true") (c :: rest));
    [cbn [bind fst snd]; destruct (skip_ws (skipn 3 rest)); discriminate|].
  destruct (starts_with (L "false") (c :: rest));
    [cbn [bind fst snd]; destruct (skip_ws (skipn 4 rest)); discriminate|].
  destruct (starts_with (L "null") (c :: rest));
    [cbn [bind fst snd]; destruct (skip_ws (skipn 3 rest)); discriminate|].
  destruct (json_number (c :: rest)) as [[lit r]|]; [|discriminate].
  cbn [bind fst snd]. destruct (skip_ws r); discriminate.
Qed.

(* ------------------------------------------------------------------ *)
(** ** Text without markers *)

Lemma occurs_split p s :
  occurs p s = true -> exists a c, s = a ++ p ++ c.
Proof.
  induction s as [|x s IH]; simpl.
  - rewrite orb_false_r. intros H. exists [], (skipn (length p) []).
    now apply starts_with_split.
  - intros H. apply orb_prop in H as [H|H].
    + exists [], (skipn (length p) (x :: s)). now apply starts_with_split.
    + destruct (IH H) as (a & c & ->). now exists (x :: a), c.
Qed.

Lemma index_of_le p a s :
  starts_with p s = true ->
  exists i, index_of p (a ++ s) = Some i /\ i <= length a.
Proof.
  intros H. induction a as [|x a IH]; simpl.
  - destruct s; simpl in *; rewrite H; exists 0; auto.
  - destruct (starts_with p (x :: a ++ s)); [exists 0; split; [reflexivity|lia]|].
    destruct IH as (i & -> & Hi). exists (S i). split; [reflexivity|lia].
Qed.

Lemma occurs_skipn p n x y :
  n <= length x -> occurs p (skipn n (x ++ p ++ y)) = true.
Proof.
  intros Hn. rewrite skipn_app.
  replace (n - length x) with 0 by lia. cbn [skipn].
  apply occurs_suffix, occurs_here, starts_with_app.
Qed.

Lemma markers_intro a b c : markers (a ++ L "{{" ++ b ++ L "}}" ++ c) = true.
Proof.
  unfold markers.
  destruct (index_of_le (L "{{") a (L "{{" ++ b ++ L "}}" ++ c)) as (i & -> & Hi);
    [reflexivity|].
  replace (a ++ L "{{" ++ b ++ L "}}" ++ c) with ((a ++ L "{{" ++ b) ++ L "}}" ++ c)
    by now rewrite <- !app_assoc.
  apply occurs_skipn. rewrite !length_app. simpl. lia.
Qed.

Lemma markers_suffix a s : markers (a ++ s) = false -> markers s = false.
Proof.
  intros H. destruct (markers s) eqn:E; [|reflexivity].
  unfold markers in E. destruct (index_of (L "{{") s) as [i|] eqn:Ei; [|discriminate].
  destruct (index_of_some _ _ _ Ei) as [Hs _].
  apply occurs_split in E as (x & y & Exy).
  change (length (L "{{")) with 2 in Hs.
  rewrite Hs, Exy in H. rewrite app_assoc in H.
  now rewrite markers_intro in H.
Qed.

(** A pattern that opens with a marker in plain text finds nothing in a
    text without markers. *)
Lemma matchless_marker total b r t :
  markers t = false -> matchless total (lits (L "{{" ++ b ++ L "}}") r) t.
Proof.
  intros Hm before here rest -> Hs.
  apply Steps_lits in Hs as (inp' & -> & _).
  rewrite <- !app_assoc in Hm. now rewrite markers_intro in Hm.
Qed.

Lemma substitute_variable_unmarked processed v :
  reference_name (name v) = true -> markers processed = false ->
  substitute_variable processed v = Val processed.
Proof.
  intros Hn Hm. unfold substitute_variable. rewrite simple_regex by assumption.
  cbn [bind]. unfold replace_all. apply replace_all_with_matchless.
  cbn [re_syntax]. now apply matchless_marker.
Qed.

Lemma block_unmarked total b closing t :
  markers t = false ->
  matchless total (block_syntax (L "{{" ++ b ++ L "}}") closing) t.
Proof. intros Hm. unfold block_syntax. now apply matchless_marker. Qed.

Lemma expand_if_unmarked processed v :
  syntax_free (name v) = true -> markers processed = false ->
  expand_if processed v = Val processed.
Proof.
  intros Hn Hm. unfold expand_if. rewrite if_regex by assumption. cbn [bind].
  apply replace_all_with_matchless. cbn [re_syntax].
  change (L "{{#if " ++ name v ++ L "}}")
    with (L "{{" ++ (L "#if " ++ name v) ++ L "}}").
  now apply block_unmarked.
Qed.

Lemma expand_unless_unmarked processed v :
  syntax_free (name v) = true -> markers processed = false ->
  expand_unless processed v = Val processed.
Proof.
  intros Hn Hm. unfold expand_unless. rewrite unless_regex by assumption. cbn [bind].
  apply replace_all_with_matchless. cbn [re_syntax].
  change (L "{{#unless " ++ name v ++ L "}}")
    with (L "{{" ++ (L "#unless " ++ name v) ++ L "}}").
  now apply block_unmarked.
Qed.

Lemma expand_list_unmarked processed v :
  syntax_free (name v) = true -> markers processed = false ->
  expand_list processed v = Val processed.
Proof.
  intros Hn Hm. unfold expand_list.
  destruct (JSON_parse_total (value v)) as [[j ->]| ->]; [|reflexivity].
  destruct j as [| | | |items| | |]; cbn [bind try_catch]; try reflexivity.
  rewrite list_regex by assumption. cbn [bind].
  rewrite replace_all_with_matchless; [reflexivity|]. cbn [re_syntax].
  change (L "{{#" ++ name v ++ L "}}") with (L "{{" ++ (L "#" ++ name v) ++ L "}}").
  now apply block_unmarked.
Qed.

Lemma matchless_absent total s r t :
  occurs s t = false -> matchless total (lits s r) t.
Proof.
  intros Ho before here rest -> Hs.
  apply Steps_lits in Hs as (inp' & -> & _).
  apply absent_suffix in Ho.
  now rewrite (occurs_here _ _ (starts_with_app s inp')) in Ho.
Qed.

Lemma matchAll_absent s r t ms :
  occurs s t = false -> matchAll (lits s r) t = Val ms -> ms = [].
Proof.
  intros Ho H. unfold matchAll in H.
  rewrite all_from_matchless in H by now apply matchless_absent.
  congruence.
Qed.

Lemma computed_regex :
  RegExp_new (L "{{=\s*(.+?)\s*}}") =
  Val {| re_syntax := computed_syntax; re_groups := 1 |}.
Proof. reflexivity. Qed.

Lemma computed_unmarked total t :
  markers t = false -> matchless total computed_syntax t.
Proof.
  intros Hm before here rest -> Hs. unfold computed_syntax in Hs.
  apply Steps_lits in Hs as (i0 & -> & Hs).
  apply Steps_seq in Hs as (i1 & H1 & Hs).
  apply Steps_seq in Hs as (i2 & H2 & Hs).
  apply Steps_seq in Hs as (i3 & H3 & Hs).
  apply Steps_lits in Hs as (i4 & -> & _).
  apply Steps_suffix in H1 as [t1 ->].
  apply Steps_suffix in H2 as [t2 ->].
  apply Steps_suffix in H3 as [t3 ->].
  change (L "{{=") with (L "{{" ++ L "=") in Hm.
  replace (before ++ (L "{{" ++ L "=") ++ t1 ++ t2 ++ t3 ++ L "}}" ++ i4)
    with (before ++ L "{{" ++ (L "=" ++ t1 ++ t2 ++ t3) ++ L "}}" ++ i4) in Hm
    by now rewrite <- !app_assoc.
  now rewrite markers_intro in Hm.
Qed.

Lemma computed_pass_unmarked Function_call vars processed :
  markers processed = false ->
  computed_pass Function_call vars processed = Val processed.
Proof.
  intros Hm. unfold computed_pass. rewrite computed_regex. cbn [bind].
  apply replace_all_with_matchless. cbn [re_syntax]. now apply computed_unmarked.
Qed.



Lemma foldM_fixed {A S} (f : S -> A -> res S) (l : list A) (s : S) :
  Forall (fun a => f s a = Val s) l -> foldM f l s = Val s.
Proof.
  induction 1 as [|a l Ha _ IH]; cbn [foldM]; [reflexivity|].
  now rewrite Ha.
Qed.

(* ================================================================== *)
(** * The claims *)




Lemma unless_pass_free vars processed :
  Forall (fun v => syntax_free (name v) = true) vars ->
  unless_pass vars processed =
  Val (fold_left
         (fun t v => expand_regions (L "{{#unless " ++ name v ++ L "}}") (L "{{/unless}}")
                       (negb (truthy (value v))) t)
         vars processed).
Proof.
  intros H. revert processed.
  induction H as [|v vars Hn _ IH]; intros processed; [reflexivity|].
  unfold unless_pass. cbn [foldM fold_left].
  rewrite expand_unless_spec by assumption. cbn [bind]. apply IH.
Qed.





Lemma text_eqb_eq a b : text_eqb a b = true <-> a = b.
Proof. unfold text_eqb. destruct (list_eq_dec ascii_dec a b); split; congruence. Qed.

Lemma text_eqb_neq a b : text_eqb a b = false <-> a <> b.
Proof. unfold text_eqb. destruct (list_eq_dec ascii_dec a b); split; congruence. Qed.





(** C4: a variable whose name is not a pattern makes the first pass raise,
    and nothing catches it: [processTemplate] ends with a SyntaxError,
    whatever the document and the evaluator. *)
Theorem unguarded_pattern_raises Function_call content v t :
  processTemplate Function_call content
    [{| name := L "("; value := v; type := t; description := None |}]
  = Exn SyntaxError.
Proof. reflexivity. Qed.

(** The part of C4 that holds.  The last pass always returns, and a
    computed expression whose evaluation raises is replaced by its own
    span; the list pass never raises either. *)
Lemma compute_expression_total Function_call vars mt :
  exists t, compute_expression Function_call vars mt = Val t.
Proof.
  unfold compute_expression.
  destruct (capture 1 mt) as [e|]; cbn [bind try_catch]; [|now eexists].
  change (RegExp_new (L "[^a-zA-Z0-9_+\-*/\s().]"))
    with (Val {| re_syntax := syntax_of "[^a-zA-Z0-9_+\-*/\s().]"; re_groups := 0 |}).
  cbn [bind].
  destruct (replace_all_total
              {| re_syntax := syntax_of "[^a-zA-Z0-9_+\-*/\s().]"; re_groups := 0 |}
              [] e) as [safe ->].
  cbn [bind]. destruct (Function_call _ _); cbn [try_catch]; now eexists.
Qed.

Lemma failed_expression_keeps_span Function_call vars mt :
  (forall body, Function_call (context_of vars) body = None) ->
  compute_expression Function_call vars mt = Val (m_text mt).
Proof.
  intros Hnone. unfold compute_expression.
  destruct (capture 1 mt) as [e|]; cbn [bind try_catch]; [|reflexivity].
  change (RegExp_new (L "[^a-zA-Z0-9_+\-*/\s().]"))
    with (Val {| re_syntax := syntax_of "[^a-zA-Z0-9_+\-*/\s().]"; re_groups := 0 |}).
  cbn [bind].
  destruct (replace_all_total
              {| re_syntax := syntax_of "[^a-zA-Z0-9_+\-*/\s().]"; re_groups := 0 |}
              [] e) as [safe ->].
  cbn [bind]. rewrite Hnone. reflexivity.
Qed.

Lemma computed_pass_total Function_call vars processed :
  exists t, computed_pass Function_call vars processed = Val t.
Proof.
  unfold computed_pass. rewrite computed_regex. cbn [bind].
  apply replace_all_with_total. apply compute_expression_total.
Qed.

Lemma expand_list_guarded processed v e : expand_list processed v <> Exn e.
Proof.
  unfold expand_list.
  match goal with |- try_catch ?x _ <> _ => destruct x end;
    cbn [try_catch]; discriminate.
Qed.

Lemma list_pass_guarded vars processed e : list_pass vars processed <> Exn e.
Proof.
  unfold list_pass. generalize (filter (fun v => is_list_type (type v)) vars).
  intros l. revert processed. induction l as [|v l IH]; intros processed;
    cbn [foldM]; [discriminate|].
  pose proof (expand_list_guarded processed v e) as Hv.
  destruct (expand_list processed v); cbn [bind]; auto; discriminate.
Qed.

(** C9, as amended.  A text in which no pair of opening braces is followed,
    later, by a pair of closing braces is left as it is, whenever the names
    of the variables hold no pattern syntax and are no repetition counts;
    the types and the values of the variables do not matter (a list value
    that is not JSON, for one, changes nothing). *)
Theorem reexpansion_is_noop Function_call t vars :
  markers t = false ->
  Forall (fun v => reference_name (name v) = true) vars ->
  processTemplate Function_call t vars = Val t.
Proof.
  intros Hm Hn. unfold processTemplate.
  assert (H1 : simple_pass vars t = Val t).
  { apply foldM_fixed. eapply Forall_impl; [|exact Hn].
    intros v Hv. now apply substitute_variable_unmarked. }
  assert (H2 : list_pass vars t = Val t).
  { apply foldM_fixed. apply Forall_forall. intros v Hin.
    apply filter_In in Hin as [Hin Hl].
    rewrite Forall_forall in Hn.
    apply expand_list_unmarked; [|assumption].
    apply reference_name_free. auto. }
  assert (H3 : if_pass vars t = Val t).
  { apply foldM_fixed. eapply Forall_impl; [|exact Hn].
    intros v Hv. apply expand_if_unmarked; [|assumption].
    now apply reference_name_free. }
  assert (H4 : unless_pass vars t = Val t).
  { apply foldM_fixed. eapply Forall_impl; [|exact Hn].
    intros v Hv. apply expand_unless_unmarked; [|assumption].
    now apply reference_name_free. }
  rewrite H1. cbn [bind]. rewrite H2. cbn [bind]. rewrite H3. cbn [bind].
  rewrite H4. cbn [bind]. now rewrite computed_pass_unmarked.
Qed.

Lemma reexpansion_is_noop_witness :
  processTemplate no_evaluator (L "Hello Paris, {{ unfinished")
    [text_var "city" "Paris";
     {| name := L "items"; value := L "[[1"; type := TList; description := None |};
     {| name := L "2nd"; value := L "[]"; type := TList; description := None |}]
  = Val (L "Hello Paris, {{ unfinished").
Proof.
  apply reexpansion_is_noop.
  - reflexivity.
  - repeat constructor.
Defined.

(** C9, as stated, fails: the name [a|b] is read as an alternative, and the
    text "b}}", which holds no marker, is rewritten.  So is the text "{{}"
    under the name 2, which is read as a repetition count. *)
Lemma reexpansion_rewrites_text :
  markers (L "b}}") = false
  /\ processTemplate no_evaluator (L "b}}") [text_var "a|b" "Z"] = Val (L "Z")
  /\ markers (L "{{}") = false
  /\ processTemplate no_evaluator (L "{{}") [text_var "2" "Z"] = Val (L "Z").
Proof. repeat split; reflexivity. Qed.

Lemma join_lines_two a b : join [LF] [a; b] = a ++ [LF] ++ b.
Proof. reflexivity. Qed.

(** C3, as amended.  The body "{{#items}}-{{label}}\n{{/items}}" with
    items = [{label:"A"},{label:"B"}] (as JSON) expands to "-A\n-B": the
    fields of each record are substituted into a copy of the block's
    template, each copy is trimmed of the white space at its ends, and the
    copies are joined, in the order of the records, with one line feed
    between two of them. *)
Theorem list_block_expansion Function_call :
  JSON_parse (value items_variable)
    = Val (JArr [JObj [(L "label", JStr (L "A"))]; JObj [(L "label", JStr (L "B"))]])
  /\ render_item (Some (L "-{{label}}" ++ [LF])) (JObj [(L "label", JStr (L "A"))])
     = Val (trim (L "-A" ++ [LF]))
  /\ render_item (Some (L "-{{label}}" ++ [LF])) (JObj [(L "label", JStr (L "B"))])
     = Val (trim (L "-B" ++ [LF]))
  /\ trim (L "-A" ++ [LF]) = L "-A"
  /\ processTemplate Function_call items_body [items_variable]
     = Val (L "-A" ++ [LF] ++ L "-B").
Proof.
  repeat split; reflexivity.
Qed.

(** C3, as stated, fails: the expansion is "-A\n-B", without the line feed
    the claim puts at its end. *)
Lemma list_block_has_no_final_newline :
  processTemplate no_evaluator items_body [items_variable]
    = Val (L "-A" ++ [LF] ++ L "-B")
  /\ L "-A" ++ [LF] ++ L "-B" <> L "-A" ++ [LF] ++ L "-B" ++ [LF].
Proof. split; [reflexivity | discriminate]. Qed.

(* ------------------------------------------------------------------ *)
(** ** The scanner *)

Lemma scan_with_spec (pattern : string) syntax groups step markdown st :
  RegExp_new (L pattern) = Val {| re_syntax := syntax; re_groups := groups |} ->
  exists ms,
    matchAll syntax markdown = Val ms /\
    scan_with pattern step markdown st = Val (fold_left step ms st).
Proof.
  intros H. destruct (matchAll_total syntax markdown) as [ms Hms].
  exists ms. split; [assumption|].
  unfold scan_with. rewrite H. cbn [bind re_syntax]. now rewrite Hms.
Qed.

(** What the six loops of the scanner find, and what it makes of it. *)
Lemma smartComponents_spec markdown :
  exists m1 m2 m3 m4 m5 m6,
    matchAll chart_syntax markdown = Val m1 /\
    matchAll timeline_syntax markdown = Val m2 /\
    matchAll progress_syntax markdown = Val m3 /\
    matchAll task_syntax markdown = Val m4 /\
    matchAll alert_syntax markdown = Val m5 /\
    matchAll stats_syntax markdown = Val m6 /\
    smartComponents markdown =
    Val (sort_by_start
           (fst (fold_left scan_stats m6
                (fold_left scan_alert m5
                (fold_left scan_tasks m4
                (fold_left scan_progress m3
                (fold_left scan_timeline m2
                (fold_left scan_chart m1 ([], 0))))))))).
Proof.
  unfold smartComponents.
  destruct (scan_with_spec chartRegex chart_syntax 1 scan_chart markdown ([], 0) eq_refl)
    as (m1 & H1 & ->). cbn [bind].
  destruct (scan_with_spec timelineRegex timeline_syntax 1 scan_timeline markdown
              (fold_left scan_chart m1 ([], 0)) eq_refl) as (m2 & H2 & ->). cbn [bind].
  destruct (scan_with_spec progressRegex progress_syntax 2 scan_progress markdown
              (fold_left scan_timeline m2 (fold_left scan_chart m1 ([], 0))) eq_refl)
    as (m3 & H3 & ->). cbn [bind].
  destruct (scan_with_spec taskRegex task_syntax 1 scan_tasks markdown
              (fold_left scan_progress m3
                 (fold_left scan_timeline m2 (fold_left scan_chart m1 ([], 0)))) eq_refl)
    as (m4 & H4 & ->). cbn [bind].
  destruct (scan_with_spec alertRegex alert_syntax 2 scan_alert markdown
              (fold_left scan_tasks m4
                 (fold_left scan_progress m3
                    (fold_left scan_timeline m2 (fold_left scan_chart m1 ([], 0)))))
              eq_refl) as (m5 & H5 & ->). cbn [bind].
  destruct (scan_with_spec statsRegex stats_syntax 1 scan_stats markdown
              (fold_left scan_alert m5
                 (fold_left scan_tasks m4
                    (fold_left scan_progress m3
                       (fold_left scan_timeline m2 (fold_left scan_chart m1 ([], 0))))))
              eq_refl) as (m6 & H6 & ->). cbn [bind].
  exists m1, m2, m3, m4, m5, m6. repeat split; assumption || reflexivity.
Qed.

Lemma decimal_inj i j : decimal i = decimal j -> i = j.
Proof.
  unfold decimal, L. intros H.
  apply (f_equal string_of_list_ascii) in H.
  rewrite !string_of_list_ascii_of_string in H.
  apply (f_equal NilEmpty.uint_of_string) in H.
  rewrite !NilEmpty.usu in H. injection H as H.
  now apply DecimalNat.Unsigned.to_uint_inj.
Qed.

Lemma placeholder_inj i j : placeholder i = placeholder j -> i = j.
Proof.
  unfold placeholder. intros H. apply app_inv_head in H.
  apply app_inv_tail in H. now apply decimal_inj.
Qed.

Lemma component_map_keys i comps :
  map fst (component_map_from i comps) = map placeholder (seq i (length comps)).
Proof.
  revert i. induction comps as [|c comps IH]; intros i; [reflexivity|].
  simpl. now rewrite IH.
Qed.

Lemma placeholders_distinct i n : NoDup (map placeholder (seq i n)).
Proof.
  revert i. induction n as [|n IH]; intros i; simpl; constructor; [|apply IH].
  intros Hin. apply in_map_iff in Hin as (j & Hj & Hin).
  apply placeholder_inj in Hj. apply in_seq in Hin. lia.
Qed.

(** C5, as amended.  The hook never raises; the keys of its component map
    are the texts [<!--SMART_COMPONENT_i-->], one for each component found,
    numbered from 0 in the order of the components, and no two of them are
    equal; none of them occurs in the document scanned, provided the
    document does not hold the text [<!--SMART_COMPONENT_]. *)
Theorem marker_keys markdown :
  exists sc,
    useSmartComponents markdown = Val sc
    /\ map fst (componentMap sc)
       = map placeholder (seq 0 (length (sc_components sc)))
    /\ NoDup (map fst (componentMap sc))
    /\ (occurs (L "<!--SMART_COMPONENT_") markdown = false ->
        forall key, In key (map fst (componentMap sc)) -> occurs key markdown = false).
Proof.
  destruct (smartComponents_spec markdown) as (m1 & m2 & m3 & m4 & m5 & m6 & _ & _ & _ & _ & _ & _ & H).
  unfold useSmartComponents. rewrite H. cbn [bind].
  eexists. split; [reflexivity|]. cbn [componentMap sc_components].
  rewrite component_map_keys. split; [reflexivity|].
  split; [apply placeholders_distinct|].
  intros Habsent key Hin. apply in_map_iff in Hin as (i & <- & _).
  destruct (occurs (placeholder i) markdown) eqn:E; [|reflexivity].
  unfold placeholder in E. apply occurs_prefix in E. congruence.
Qed.

(** C5, as stated, fails: an author can type the text of a marker; in this
    document the key of the one component occurs before the rewrite. *)
Lemma marker_key_typed_by_author :
  useSmartComponents (L "<!--SMART_COMPONENT_0--> [progress:5]")
    = Val {| sc_components :=
               [ {| sc_type := L "progress"; startIndex := 25; endIndex := 37;
                    content := L "[progress:5]";
                    sc_component := ProgressBar (L "progress-0") 5 None |} ];
             enhancedMarkdown := L "<!--SMART_COMPONENT_0--> <!--SMART_COMPONENT_0-->";
             componentMap := [ (L "<!--SMART_COMPONENT_0-->",
                                ProgressBar (L "progress-0") 5 None) ];
             hasSmartComponents := true |}
  /\ occurs (L "<!--SMART_COMPONENT_0-->") (L "<!--SMART_COMPONENT_0--> [progress:5]") = true.
Proof. split; reflexivity. Qed.



Lemma fold_scan (step : scan_state -> rmatch -> scan_state)
    (Q : rmatch -> SmartComponentMatch -> Prop) :
  (forall st mt d, In d (fst (step st mt)) -> In d (fst st) \/ Q mt d) ->
  forall ms st d,
    In d (fst (fold_left step ms st)) ->
    In d (fst st) \/ exists mt, In mt ms /\ Q mt d.
Proof.
  intros Hstep. induction ms as [|mt ms IH]; intros st d Hd; [now left|].
  cbn [fold_left] in Hd. apply IH in Hd as [Hd|(mt' & Hin & Hq)].
  - apply Hstep in Hd as [Hd|Hd]; [now left|].
    right. exists mt. split; [now left | assumption].
  - right. exists mt'. split; [now right | assumption].
Qed.








Lemma insert_sorted_in x l d : In d (insert_sorted x l) -> d = x \/ In d l.
Proof.
  induction l as [|y l IH]; simpl.
  - intros [<-|[]]. now left.
  - destruct (startIndex x <=? startIndex y); simpl.
    + intros [<-|H]; auto.
    + intros [<-|H]; auto. apply IH in H as [H|H]; auto.
Qed.

Lemma sort_by_start_in l d : In d (sort_by_start l) -> In d l.
Proof.
  induction l as [|x l IH]; simpl; [auto|].
  intros H. apply insert_sorted_in in H as [->|H]; auto.
Qed.





(* ------------------------------------------------------------------ *)
(** ** Runs of one-character patterns *)

Section Runs.

Variables (body : matcher) (clear : caps -> caps) (p : ascii -> bool).

Hypothesis body_spec :
  forall inp c k,
    body inp c k =
    match inp with
    | x :: inp' => if p x then k inp' c else MFail
    | [] => MFail
    end.

Hypothesis clear_spec : forall c, clear c = c.

(** A greedy quantifier takes the whole run when what follows accepts. *)
Lemma greedy_run s :
  forall fuel min rest c k,
    forallb p s = true ->
    match rest with x :: _ => p x = false | [] => True end ->
    min <= length s ->
    min + length (s ++ rest) < fuel ->
    k rest c <> MFail ->
    rep fuel body clear min None true (s ++ rest) c k = k rest c.
Proof.
  induction s as [|x s IH]; intros fuel min rest c k Hs Hrest Hmin Hfuel Hk;
    (destruct fuel as [|fuel]; [lia|]); rewrite rep_S; cbv zeta.
  - simpl in Hmin. replace min with 0 by lia. cbn [Nat.eqb negb app].
    rewrite body_spec. destruct rest as [|y rest]; [reflexivity|].
    now rewrite Hrest.
  - cbn [forallb] in Hs. apply andb_prop in Hs as [Hx Hs].
    assert (Hnext : body ((x :: s) ++ rest) (clear c)
                      (iter_cont fuel body clear min None true ((x :: s) ++ rest) k)
                    = k rest c).
    { rewrite body_spec. cbn [app]. rewrite Hx, clear_spec. unfold iter_cont.
      replace (length (s ++ rest) =? length (x :: s ++ rest)) with false
        by (symmetry; apply Nat.eqb_neq; simpl; lia).
      rewrite andb_false_r. cbn [option_map].
      apply IH; try assumption.
      - simpl in Hmin. lia.
      - simpl in Hfuel. lia. }
    rewrite Hnext. destruct (min =? 0); cbn [negb]; [|reflexivity].
    destruct (k rest c); try reflexivity. congruence.
Qed.


End Runs.

(* ------------------------------------------------------------------ *)
(** ** Progress markers *)

Lemma progress_syntax_eq : progress_syntax = lits (L "[progress:") progress_tail.
Proof. reflexivity. Qed.

Lemma digit_set x : set_matches false [CDigit true] x = is_digit x.
Proof. unfold set_matches. simpl. now destruct (is_digit x). Qed.

Lemma digit_run ds :
  forallb is_digit ds = true -> forallb (set_matches false [CDigit true]) ds = true.
Proof.
  intros H. rewrite forallb_forall in *. intros x Hx. rewrite digit_set. auto.
Qed.

Lemma skipn_prefix (a b : text) : skipn (length a) (a ++ b) = b.
Proof. induction a; simpl; auto. Qed.

Ltac name_continuation K :=
  match goal with |- rep _ _ _ _ _ _ _ _ ?k = _ => set (K := k) end.

Lemma progress_plain_match total ds rest :
  ds <> [] -> forallb is_digit ds = true ->
  m progress_syntax total (L "[progress:" ++ ds ++ L "]" ++ rest) []
    (fun r c => MFound r c)
  = MFound rest [(1, ds)].
Proof.
  intros Hne Hd. rewrite progress_syntax_eq, m_lits, starts_with_app, skipn_prefix.
  unfold progress_tail. cbn [m]. name_continuation K.
  assert (HK : K (L "]" ++ rest) [] = MFound rest [(1, ds)]).
  { unfold K. rewrite firstn_taken. reflexivity. }
  rewrite (greedy_run _ _ (set_matches false [CDigit true])).
  - exact HK.
  - reflexivity.
  - apply clear_caps_nil.
  - now apply digit_run.
  - reflexivity.
  - destruct ds; [congruence|simpl; lia].
  - lia.
  - rewrite HK. discriminate.
Qed.






















(* ================================================================== *)
(** ** Images *)

Lemma extension_regex :
  RegExp_new (L extensionRegex) =
  Val {| re_syntax := lits (L ".") ext_tail; re_groups := 0 |}.
Proof. reflexivity. Qed.

Lemma Steps_rep_set total min max g neg items i1 i2 :
  Steps total (RRep min max g (RSet neg items)) i1 i2 ->
  exists taken, i1 = taken ++ i2 /\ forallb (set_matches neg items) taken = true.
Proof.
  intros H. remember (RRep min max g (RSet neg items)) as r eqn:Er.
  revert min max Er.
  induction H as [ | | | | | | | | | | mn mx g' a i Hz
                 | mn mx g' a j1 j2 j3 Hmx Ha _ Hrest IH ];
    intros min max Er; try discriminate.
  - now exists [].
  - injection Er as -> -> -> ->.
    inversion Ha as [ | | | ? ? x ? Hx | | | | | | | | ]; subst.
    destruct (IH _ _ eq_refl) as (taken & -> & Ht).
    exists (x :: taken). split; [reflexivity|]. simpl. now rewrite Hx.
Qed.

Lemma ext_set c : set_matches true [CChar "/"; CChar "."] c = ext_char c.
Proof.
  unfold set_matches, ext_char, is_char. simpl.
  destruct (Ascii.eqb c "/"), (Ascii.eqb c "."); reflexivity.
Qed.

Lemma ext_run e : forallb ext_char e = true ->
  forallb (set_matches true [CChar "/"; CChar "."]) e = true.
Proof.
  intros H. rewrite forallb_forall in *. intros x Hx. rewrite ext_set. auto.
Qed.

(** The extension pattern matches a suffix that is a dot and a run of
    other characters, and nothing that such a suffix follows. *)
Lemma extension_here total pos e :
  e <> [] -> forallb ext_char e = true ->
  match_here (lits (L ".") ext_tail) total pos ("."%char :: e) =
  Val (Some {| m_index := pos; m_text := "."%char :: e; m_caps := [] |}).
Proof.
  intros Hne He.
  assert (Hm : m (lits (L ".") ext_tail) total ("."%char :: e) []
                 (fun rest c => MFound rest c) = MFound [] []).
  { rewrite m_lits.
    change (starts_with (L ".") ("."%char :: e)) with true. cbv iota.
    change (skipn (length (L ".")) ("."%char :: e)) with e.
    unfold ext_tail. cbn [m].
    rewrite <- (app_nil_r e).
    rewrite (greedy_run _ _ (set_matches true [CChar "/"; CChar "."])).
    - reflexivity.
    - reflexivity.
    - apply clear_caps_nil.
    - now apply ext_run.
    - exact I.
    - destruct e; [congruence | simpl; lia].
    - lia.
    - discriminate. }
  unfold match_here. rewrite Hm. change (length (@nil ascii)) with 0.
  now rewrite Nat.sub_0_r, firstn_all.
Qed.

Lemma extension_not_before total pos b e :
  b <> [] ->
  match_here (lits (L ".") ext_tail) total pos (b ++ "."%char :: e) = Val None.
Proof.
  intros Hb. apply match_here_none. intros rest Hs.
  apply Steps_lits in Hs as (i1 & E1 & Hs).
  unfold ext_tail in Hs.
  apply Steps_seq in Hs as (i2 & Hrep & Hs).
  apply Steps_seq in Hs as (i3 & Heol & _).
  inversion Heol; subst.
  apply Steps_rep_set in Hrep as (taken & -> & Ht). rewrite app_nil_r in E1.
  destruct b as [|x b]; [congruence|]. injection E1 as -> E1.
  assert (Hin : In "."%char taken).
  { rewrite <- E1. apply in_or_app. right. now left. }
  rewrite forallb_forall in Ht. apply Ht in Hin. discriminate.
Qed.

Lemma exec_from_skip r total pos b rest :
  (forall a b', b = a ++ b' -> b' <> [] ->
     match_here r total (pos + length a) (b' ++ rest) = Val None) ->
  exec_from r total pos (b ++ rest) = exec_from r total (pos + length b) rest.
Proof.
  revert pos. induction b as [|x b IH]; intros pos H.
  - simpl. now rewrite Nat.add_0_r.
  - cbn [app exec_from].
    pose proof (H [] (x :: b) eq_refl) as H0. simpl in H0.
    rewrite Nat.add_0_r in H0. rewrite H0 by discriminate. cbn [bind].
    rewrite IH.
    + f_equal. simpl. lia.
    + intros a b' -> Hb'. specialize (H (x :: a) b' eq_refl Hb').
      simpl in H. now replace (S pos + length a) with (pos + S (length a)) by lia.
Qed.

Lemma exec_extension base e :
  e <> [] -> forallb ext_char e = true ->
  exec (lits (L ".") ext_tail) (base ++ "."%char :: e) =
  Val (Some {| m_index := length base; m_text := "."%char :: e; m_caps := [] |}).
Proof.
  intros Hne He. unfold exec. rewrite exec_from_skip.
  - destruct e as [|c e]; [congruence|].
    cbn [exec_from]. rewrite extension_here by (assumption || discriminate).
    reflexivity.
  - intros a b' -> Hb'. rewrite <- app_assoc.
    (* the suffix [b'] of the base, then the extension *)
    apply extension_not_before. assumption.
Qed.

Lemma variations_with_extension base e :
  e <> [] -> forallb ext_char e = true ->
  generatePathVariations (base ++ "."%char :: e) =
  Val (twelve (base ++ "."%char :: e)
       ++ [ base ++ toLowerCase ("."%char :: e); base ++ toUpperCase ("."%char :: e) ]).
Proof.
  intros Hne He. unfold generatePathVariations.
  rewrite extension_regex. cbn [bind re_syntax re_groups].
  unfold replace_first. cbn [re_syntax re_groups].
  rewrite exec_extension by assumption.
  cbn [bind m_index m_text]. 
  change (GetSubstitution 0 _ _ []) with (@nil ascii).
  rewrite firstn_app, Nat.sub_diag, firstn_all. cbn [firstn].
  rewrite skipn_all2 by (rewrite length_app; lia).
  rewrite !app_nil_r. reflexivity.
Qed.

Lemma generatePathVariations_total filename :
  exists vs, generatePathVariations filename = Val vs.
Proof.
  unfold generatePathVariations. rewrite extension_regex. cbn [bind re_syntax].
  unfold replace_first, exec. cbn [re_syntax].
  destruct (exec_from_total (lits (L ".") ext_tail) (length filename) 0 filename)
    as [found ->].
  cbn [bind]. destruct found as [mt|]; cbn [bind];
    match goal with |- context [if ?b then _ else _] => destruct b end; eauto.
Qed.

Lemma map_get_fold d vs mp p :
  map_get p (fold_left (fun mp path => map_set path d mp) vs mp) =
  if existsb (text_eqb p) vs then Some d else map_get p mp.
Proof.
  revert mp. induction vs as [|v vs IH]; intros mp; [reflexivity|].
  cbn [fold_left existsb]. rewrite IH. cbn [map_get map_set].
  destruct (existsb (text_eqb p) vs); [now rewrite orb_true_r|].
  rewrite orb_false_r. now destruct (text_eqb p v).
Qed.

Lemma map_get_set_all d vs mp p :
  In p vs ->
  map_get p (fold_left (fun mp path => map_set path d mp) vs mp) = Some d.
Proof.
  intros Hin. rewrite map_get_fold.
  replace (existsb (text_eqb p) vs) with true; [reflexivity|].
  symmetry. apply existsb_exists. exists p. split; [assumption|].
  now apply text_eqb_eq.
Qed.

Section UploadFacts.

Variable compressImage : File -> res File.

Hypothesis compress_modelled : forall file, compressImage file <> Beyond.

Lemma ingest_modelled file : ingest compressImage file <> Beyond.
Proof.
  unfold ingest.
  destruct (RECOMPRESS_ABOVE <? file_size file)%N.
  - pose proof (compress_modelled file) as H.
    destruct (compressImage file) as [pf| |]; cbn [bind]; try congruence.
    unfold convertImageToBase64.
    destruct (MAX_FILE_SIZE <? file_size pf)%N; cbn [bind]; [discriminate|].
    destruct (file_dataURL pf); cbn [bind]; [|discriminate].
    destruct (generatePathVariations_total (file_name file)) as [vs ->]. discriminate.
  - cbn [bind]. unfold convertImageToBase64.
    destruct (MAX_FILE_SIZE <? file_size file)%N; cbn [bind]; [discriminate|].
    destruct (file_dataURL file); cbn [bind]; [|discriminate].
    destruct (generatePathVariations_total (file_name file)) as [vs ->]. discriminate.
Qed.

Lemma upload_one_spec st f :
  upload_one compressImage st f =
  Val {| newImageMap := embed_all compressImage [f] (newImageMap st);
         addedImages :=
           addedImages st ++ map file_name (filter (accepted compressImage) [f]);
         error_toasts :=
           error_toasts st
           ++ map (rejection_toast compressImage)
                (filter (rejected compressImage) [f]) |}.
Proof.
  unfold upload_one, embed_all, accepted, rejected, rejection_toast. cbn [filter].
  fold (is_image f). destruct (is_image f); cbn [andb fold_left map].
  - pose proof (ingest_modelled f) as Hm.
    destruct (ingest compressImage f) as [[d vs]| |] eqn:Ef;
      cbn [bind try_catch fst snd map]; try congruence.
    + rewrite ?app_nil_r. reflexivity.
    + rewrite ?Ef, ?app_nil_r. reflexivity.
  - rewrite ?app_nil_r. now destruct st.
Qed.

Lemma embed_all_app a b mp :
  embed_all compressImage (a ++ b) mp
  = embed_all compressImage b (embed_all compressImage a mp).
Proof. unfold embed_all. now rewrite filter_app, fold_left_app. Qed.

Lemma upload_loop files st :
  foldM (upload_one compressImage) files st =
  Val {| newImageMap := embed_all compressImage files (newImageMap st);
         addedImages :=
           addedImages st ++ map file_name (filter (accepted compressImage) files);
         error_toasts :=
           error_toasts st
           ++ map (rejection_toast compressImage)
                (filter (rejected compressImage) files) |}.
Proof.
  revert st. induction files as [|f files IH]; intros st.
  - unfold embed_all. simpl. rewrite !app_nil_r. now destruct st.
  - cbn [foldM]. rewrite upload_one_spec. cbn [bind]. rewrite IH.
    cbn [newImageMap addedImages error_toasts].
    change (f :: files) with ([f] ++ files).
    rewrite embed_all_app, !filter_app, !map_app, !app_assoc. reflexivity.
Qed.

End UploadFacts.

Lemma url_dollar_free d : forallb url_char d = true -> dollar_free d = true.
Proof.
  unfold dollar_free. intros H. rewrite forallb_forall in *. intros x Hx.
  apply H in Hx. unfold url_char in Hx. now apply andb_prop in Hx as [_ Hx].
Qed.

Lemma url_no_embed d t :
  forallb url_char d = true -> occurs (L "![[") t = false ->
  occurs (L "![[") (d ++ t) = false.
Proof.
  intros H Ht. induction d as [|c d IH]; [exact Ht|].
  cbn [forallb] in H. apply andb_prop in H as [Hc Hd].
  cbn [app occurs]. rewrite (IH Hd), orb_false_r.
  unfold url_char in Hc. apply andb_prop in Hc as [Hc _].
  apply negb_true_iff in Hc. unfold is_char in Hc.
  cbn [L list_ascii_of_string starts_with]. rewrite Ascii.eqb_sym in Hc.
  now rewrite Hc.
Qed.

Lemma dollar_free_app a b :
  dollar_free (a ++ b) = dollar_free a && dollar_free b.
Proof. apply forallb_app. Qed.

Lemma reference_resolved imageMap d :
  map_get (L "diagram.png") imageMap = Some d ->
  d <> [] -> forallb url_char d = true ->
  processMarkdownImages (L "![x](diagram.png)") imageMap = Val (L "![x](" ++ d ++ L ")").
Proof.
  intros Hget Hne Hd. unfold processMarkdownImages.
  change (RegExp_new (L standardImageRegex))
    with (Val {| re_syntax := standard_syntax; re_groups := 2 |}).
  cbn [bind re_syntax].
  change (matchAll standard_syntax (L "![x](diagram.png)"))
    with (Val [ {| m_index := 0; m_text := L "![x](diagram.png)";
                   m_caps := [(2, L "diagram.png"); (1, L "x")] |} ]).
  cbn [bind fold_left]. unfold embed_standard, embedded.
  change (group 2 _) with (L "diagram.png"). rewrite Hget.
  replace (nonempty d) with true by (destruct d; [congruence|reflexivity]).
  change (group 1 _) with (L "x"). cbn [m_text].
  unfold replace_string.
  change (index_of (L "![x](diagram.png)") (L "![x](diagram.png)")) with (Some 0).
  cbv beta iota.
  rewrite substitute_dollar_free
    by (rewrite !dollar_free_app, (url_dollar_free d Hd); reflexivity).
  cbn [firstn app Nat.add]. rewrite skipn_all. rewrite app_nil_r.
  change (RegExp_new (L obsidianImageRegex))
    with (Val {| re_syntax := obsidian_syntax; re_groups := 2 |}).
  cbn [bind re_syntax].
  unfold matchAll. rewrite all_from_matchless; [reflexivity|].
  apply (matchless_absent _ (L "![[")).
  cbn. apply url_no_embed; [assumption | reflexivity].
Qed.






Lemma accepted_file_ingested (compressImage : File -> res File)
    file processedFile d vs :
  (if (RECOMPRESS_ABOVE <? file_size file)%N
   then compressImage file else Val file) = Val processedFile ->
  (file_size processedFile <= MAX_FILE_SIZE)%N ->
  file_dataURL processedFile = Some d ->
  generatePathVariations (file_name file) = Val vs ->
  ingest compressImage file = Val (d, vs).
Proof.
  intros Hpf Hsize Hd Hv. unfold ingest. rewrite Hpf. cbn [bind].
  unfold convertImageToBase64. apply N.ltb_ge in Hsize.
  rewrite Hsize, Hd. cbn [bind]. rewrite Hv. reflexivity.
Qed.

Lemma single_upload (compressImage : File -> res File) file d vs imageMap :
  is_image file = true ->
  ingest compressImage file = Val (d, vs) ->
  handleImageUpload compressImage [file] imageMap =
  Val {| newImageMap := fold_left (fun mp path => map_set path d mp) vs imageMap;
         addedImages := [file_name file];
         error_toasts := [] |}.
Proof.
  intros Himg Hi. unfold handleImageUpload.
  cbn [length Nat.eqb Nat.ltb Nat.leb foldM]. unfold upload_one.
  fold (is_image file). rewrite Himg, Hi. reflexivity.
Qed.

Lemma code_bound c : code c < 256.
Proof. unfold code. apply nat_ascii_bounded. Qed.

Lemma code_of_nat n : n < 256 -> code (ascii_of_nat n) = n.
Proof. unfold code. apply nat_ascii_embedding. Qed.

Lemma toUpperCase_spec e : Forall2 upper_of e (toUpperCase e).
Proof.
  induction e as [|c e IH]; constructor; [|exact IH].
  unfold upper_of, to_upper_char.
  change (is_lower c) with ((97 <=? code c) && (code c <=? 122)).
  destruct ((97 <=? code c) && (code c <=? 122)) eqn:E; [|reflexivity].
  apply andb_prop in E as [Hlo Hhi]. apply Nat.leb_le in Hlo, Hhi.
  rewrite code_of_nat by lia. lia.
Qed.

Lemma toLowerCase_spec e : Forall2 lower_of e (toLowerCase e).
Proof.
  induction e as [|c e IH]; constructor; [|exact IH].
  unfold lower_of, to_lower_char.
  change (is_upper c) with ((65 <=? code c) && (code c <=? 90)).
  destruct ((65 <=? code c) && (code c <=? 90)) eqn:E; [|reflexivity].
  apply andb_prop in E as [Hlo Hhi]. apply Nat.leb_le in Hlo, Hhi.
  rewrite code_of_nat by lia. lia.
Qed.

(** A reference of the form [![x](path)] and nothing else, resolved
    through a map that holds the path. *)
Ltac resolve_reference Hget Hne Hd :=
  unfold processMarkdownImages;
  change (RegExp_new (L standardImageRegex))
    with (Val {| re_syntax := standard_syntax; re_groups := 2 |});
  cbn [bind re_syntax];
  match goal with
  | |- context [matchAll standard_syntax ?doc] =>
      let v := eval vm_compute in (matchAll standard_syntax doc) in
      change (matchAll standard_syntax doc) with v
  end;
  cbn [bind fold_left]; unfold embed_standard, embedded;
  match goal with
  | |- context [group 2 ?mt] =>
      let v := eval vm_compute in (group 2 mt) in change (group 2 mt) with v
  end;
  match type of Hget with
  | ?lhs = _ =>
      match goal with
      | |- context [map_get ?k ?mp] => change (map_get k mp) with lhs
      end
  end;
  rewrite Hget;
  match goal with
  | |- context [nonempty ?d] =>
      replace (nonempty d) with true by (destruct d; [congruence|reflexivity])
  end;
  match goal with
  | |- context [group 1 ?mt] =>
      let v := eval vm_compute in (group 1 mt) in change (group 1 mt) with v
  end;
  cbn [m_text]; unfold replace_string;
  match goal with
  | |- context [index_of ?a ?b] =>
      let v := eval vm_compute in (index_of a b) in change (index_of a b) with v
  end;
  cbv beta iota;
  rewrite substitute_dollar_free
    by (rewrite !dollar_free_app, (url_dollar_free _ Hd); reflexivity);
  cbn [firstn app Nat.add]; rewrite skipn_all; rewrite app_nil_r;
  change (RegExp_new (L obsidianImageRegex))
    with (Val {| re_syntax := obsidian_syntax; re_groups := 2 |});
  cbn [bind re_syntax];
  unfold matchAll; rewrite all_from_matchless; [reflexivity|];
  apply (matchless_absent _ (L "![["));
  cbn; apply url_no_embed; [assumption | reflexivity].

Lemma upper_reference_resolved imageMap d :
  map_get (L "icon.GIF") imageMap = Some d ->
  d <> [] -> forallb url_char d = true ->
  processMarkdownImages (L "![x](icon.GIF)") imageMap = Val (L "![x](" ++ d ++ L ")").
Proof. intros Hget Hne Hd. resolve_reference Hget Hne Hd. Qed.

(** C8.  Take an uploaded image that is accepted: the file handed to
    [convertImageToBase64] (the upload itself, or what [compressImage] made
    of it when the upload is above 100 KB) is within the size ceiling and
    reads as the data URL [d].  When the name of the upload ends in a dot
    and a non-empty extension without dot or slash, [generatePathVariations]
    gives the twelve prefixed forms of the name followed by the name with
    its extension in lower case and in upper case (every letter A..Z moved
    32 places up to a..z, respectively every letter a..z moved 32 places
    down to A..Z, and nothing else changed), and after the upload every one
    of them is mapped to [d].  So an upload named diagram.PNG makes the
    reference to diagram.png resolve to [d], and an upload named icon.gif
    the reference to icon.GIF (a data URL holds no [!] and no [$]). *)
Theorem extension_case_variants (compressImage : File -> res File)
    (file processedFile : File) (d : text) (imageMap : image_map) :
  is_image file = true ->
  (if (RECOMPRESS_ABOVE <? file_size file)%N
   then compressImage file else Val file) = Val processedFile ->
  (file_size processedFile <= MAX_FILE_SIZE)%N ->
  file_dataURL processedFile = Some d ->
  (forall base e,
     e <> [] -> forallb ext_char e = true ->
     file_name file = base ++ "."%char :: e ->
     let variations :=
       twelve (file_name file)
       ++ [base ++ toLowerCase ("."%char :: e);
           base ++ toUpperCase ("."%char :: e)] in
     generatePathVariations (file_name file) = Val variations
     /\ Forall2 lower_of ("."%char :: e) (toLowerCase ("."%char :: e))
     /\ Forall2 upper_of ("."%char :: e) (toUpperCase ("."%char :: e))
     /\ exists st,
          handleImageUpload compressImage [file] imageMap = Val st
          /\ addedImages st = [file_name file]
          /\ error_toasts st = []
          /\ forall path,
               In path variations -> map_get path (newImageMap st) = Some d)
  /\ (file_name file = L "diagram.PNG" ->
      d <> [] -> forallb url_char d = true ->
      exists st,
        handleImageUpload compressImage [file] imageMap = Val st
        /\ processMarkdownImages (L "![x](diagram.png)") (newImageMap st)
           = Val (L "![x](" ++ d ++ L ")"))
  /\ (file_name file = L "icon.gif" ->
      d <> [] -> forallb url_char d = true ->
      exists st,
        handleImageUpload compressImage [file] imageMap = Val st
        /\ processMarkdownImages (L "![x](icon.GIF)") (newImageMap st)
           = Val (L "![x](" ++ d ++ L ")")).
Proof.
  intros Himg Hpf Hsize Hd. split; [|split].
  - intros base e He Hext Hname variations.
    assert (Hv : generatePathVariations (file_name file) = Val variations).
    { unfold variations. rewrite Hname. apply variations_with_extension; assumption. }
    split; [exact Hv|].
    split; [apply toLowerCase_spec|]. split; [apply toUpperCase_spec|].
    eexists. split.
    + apply single_upload; [exact Himg|].
      eapply accepted_file_ingested; eassumption.
    + cbn [addedImages error_toasts newImageMap]. split; [reflexivity|].
      split; [reflexivity|]. intros path Hin. now apply map_get_set_all.
  - intros Hname Hne Hurl.
    assert (Hv : generatePathVariations (file_name file)
                 = Val (twelve (L "diagram.PNG")
                        ++ [L "diagram.png"; L "diagram.PNG"])).
    { rewrite Hname.
      apply (variations_with_extension (L "diagram") (L "PNG"));
        [discriminate | reflexivity]. }
    eexists. split.
    + apply single_upload; [exact Himg|].
      eapply accepted_file_ingested; eassumption.
    + cbn [newImageMap]. apply reference_resolved; [|assumption|assumption].
      apply map_get_set_all. apply in_or_app. right. left. reflexivity.
  - intros Hname Hne Hurl.
    assert (Hv : generatePathVariations (file_name file)
                 = Val (twelve (L "icon.gif")
                        ++ [L "icon.gif"; L "icon.GIF"])).
    { rewrite Hname.
      apply (variations_with_extension (L "icon") (L "gif"));
        [discriminate | reflexivity]. }
    eexists. split.
    + apply single_upload; [exact Himg|].
      eapply accepted_file_ingested; eassumption.
    + cbn [newImageMap]. apply upper_reference_resolved; [|assumption|assumption].
      apply map_get_set_all. apply in_or_app. right. right. left. reflexivity.
Qed.

Lemma extension_case_variants_witness :
  (generatePathVariations (L "diagram.PNG")
   = Val [ L "diagram.PNG"; L "./diagram.PNG";
           L "images/diagram.PNG"; L "./images/diagram.PNG";
           L "assets/diagram.PNG"; L "./assets/diagram.PNG";
           L "img/diagram.PNG"; L "./img/diagram.PNG";
           L "pics/diagram.PNG"; L "./pics/diagram.PNG";
           L "media/diagram.PNG"; L "./media/diagram.PNG";
           L "diagram.png"; L "diagram.PNG" ]
   /\ exists st,
        handleImageUpload shrink [diagram] [] = Val st
        /\ processMarkdownImages (L "![x](diagram.png)") (newImageMap st)
           = Val (L "![x](data:image/jpeg;base64,AAAA)"))
  /\ (generatePathVariations (L "icon.gif")
      = Val (twelve (L "icon.gif") ++ [L "icon.gif"; L "icon.GIF"])
      /\ exists st,
           handleImageUpload keep_as_is [icon] [] = Val st
           /\ processMarkdownImages (L "![x](icon.GIF)") (newImageMap st)
              = Val (L "![x](data:image/gif;base64,CCCC)")).
Proof.
  split.
  - assert (Himg : is_image diagram = true) by reflexivity.
    assert (Hpf : (if (RECOMPRESS_ABOVE <? file_size diagram)%N
                   then shrink diagram else Val diagram)
                  = Val {| file_name := L "diagram.PNG"; file_type := L "image/jpeg";
                           file_size := 200 * 1024;
                           file_dataURL := Some (L "data:image/jpeg;base64,AAAA") |})
      by reflexivity.
    destruct (extension_case_variants shrink diagram _ (L "data:image/jpeg;base64,AAAA")
                [] Himg Hpf)
      as (Hv & H & _); [discriminate | reflexivity |].
    split.
    + assert (He : L "PNG" <> []) by discriminate.
      assert (Hx : forallb ext_char (L "PNG") = true) by reflexivity.
      assert (Hn : file_name diagram = L "diagram" ++ "."%char :: L "PNG")
        by reflexivity.
      destruct (Hv (L "diagram") (L "PNG") He Hx Hn) as [Hg _]. exact Hg.
    + apply H; [reflexivity | discriminate | reflexivity].
  - assert (Himg : is_image icon = true) by reflexivity.
    assert (Hpf : (if (RECOMPRESS_ABOVE <? file_size icon)%N
                   then keep_as_is icon else Val icon) = Val icon)
      by reflexivity.
    destruct (extension_case_variants keep_as_is icon _ (L "data:image/gif;base64,CCCC")
                [] Himg Hpf)
      as (Hv & _ & H); [discriminate | reflexivity |].
    split.
    + assert (He : L "gif" <> []) by discriminate.
      assert (Hx : forallb ext_char (L "gif") = true) by reflexivity.
      assert (Hn : file_name icon = L "icon" ++ "."%char :: L "gif")
        by reflexivity.
      destruct (Hv (L "icon") (L "gif") He Hx Hn) as [Hg _]. exact Hg.
    + apply H; [reflexivity | discriminate | reflexivity].
Defined.

(* ================================================================== *)
(** * More properties *)

Section ExportHistoryProperties.
Import ExportHistory.

(* ================================================================== *)
(** ** The export history *)

Lemma to_int32_mod z : (to_int32 z mod 2 ^ 32 = z mod 2 ^ 32)%Z.
Proof.
  unfold to_int32. destruct (z mod 2 ^ 32 <? 2 ^ 31)%Z.
  - apply Z.mod_mod. lia.
  - rewrite <- (Z.mod_mod z (2 ^ 32)) at 2 by lia.
    replace (z mod 2 ^ 32 - 2 ^ 32)%Z with (z mod 2 ^ 32 + (-1) * 2 ^ 32)%Z by lia.
    apply Z.mod_add. lia.
Qed.

Lemma to_int32_congr a b :
  (a mod 2 ^ 32 = b mod 2 ^ 32)%Z -> to_int32 a = to_int32 b.
Proof. unfold to_int32. now intros ->. Qed.

Lemma to_int32_idem z : to_int32 (to_int32 z) = to_int32 z.
Proof. apply to_int32_congr, to_int32_mod. Qed.

Lemma to_int32_range z : (- 2 ^ 31 <= to_int32 z < 2 ^ 31)%Z.
Proof.
  unfold to_int32. pose proof (Z.mod_pos_bound z (2 ^ 32) ltac:(lia)) as H.
  destruct (z mod 2 ^ 32 <? 2 ^ 31)%Z eqn:E.
  - apply Z.ltb_lt in E. lia.
  - apply Z.ltb_ge in E. lia.
Qed.

Lemma to_int32_diff z : exists k, (to_int32 z = z + k * 2 ^ 32)%Z.
Proof.
  pose proof (to_int32_mod z) as H.
  exists (to_int32 z / 2 ^ 32 - z / 2 ^ 32)%Z.
  pose proof (Z.div_mod (to_int32 z) (2 ^ 32) ltac:(lia)).
  pose proof (Z.div_mod z (2 ^ 32) ltac:(lia)). lia.
Qed.

Lemma hash_step_poly h c :
  hash_step h c = to_int32 (31 * h + Z.of_nat (code c)).
Proof.
  unfold hash_step. rewrite Z.land_diag, to_int32_idem.
  apply to_int32_congr. rewrite Z.shiftl_mul_pow2 by lia.
  destruct (to_int32_diff h) as [k1 H1].
  destruct (to_int32_diff (to_int32 h * 2 ^ 5)) as [k2 H2].
  rewrite H2, H1.
  replace ((h + k1 * 2 ^ 32) * 2 ^ 5 + k2 * 2 ^ 32 - h + Z.of_nat (code c))%Z
    with (31 * h + Z.of_nat (code c) + (32 * k1 + k2) * 2 ^ 32)%Z by lia.
  apply Z.mod_add. lia.
Qed.

Lemma fold_hash_poly s h h' :
  to_int32 h = to_int32 h' ->
  to_int32 (fold_left hash_step s h)
  = to_int32 (fold_left (fun h c => (31 * h + Z.of_nat (code c))%Z) s h').
Proof.
  revert h h'. induction s as [|c s IH]; intros h h' Hh; [exact Hh|].
  cbn [fold_left]. apply IH. rewrite hash_step_poly, to_int32_idem.
  apply to_int32_congr.
  assert (Hm : (h mod 2 ^ 32 = h' mod 2 ^ 32)%Z).
  { rewrite <- (to_int32_mod h), <- (to_int32_mod h'). now rewrite Hh. }
  rewrite <- Zplus_mod_idemp_l, <- Zmult_mod_idemp_r, Hm.
  now rewrite Zmult_mod_idemp_r, Zplus_mod_idemp_l.
Qed.

Lemma fold_hash_int32 s : to_int32 (fold_left hash_step s 0%Z) = fold_left hash_step s 0%Z.
Proof.
  induction s as [|c s IH] using rev_ind; [reflexivity|].
  rewrite fold_left_app. cbn [fold_left]. rewrite hash_step_poly. apply to_int32_idem.
Qed.

Lemma poly31_app a b :
  poly31 (a ++ b) = fold_left (fun h c => (31 * h + Z.of_nat (code c))%Z) b (poly31 a).
Proof. unfold poly31. apply fold_left_app. Qed.

Lemma poly_fold_congr s h h' :
  (h mod 2 ^ 32 = h' mod 2 ^ 32)%Z ->
  (fold_left (fun h c => (31 * h + Z.of_nat (code c))%Z) s h mod 2 ^ 32
   = fold_left (fun h c => (31 * h + Z.of_nat (code c))%Z) s h' mod 2 ^ 32)%Z.
Proof.
  revert h h'. induction s as [|c s IH]; intros h h' Hm; [exact Hm|].
  cbn [fold_left]. apply IH.
  rewrite <- Zplus_mod_idemp_l, <- Zmult_mod_idemp_r, Hm.
  now rewrite Zmult_mod_idemp_r, Zplus_mod_idemp_l.
Qed.

(** X1.  [generateContentHash] is the polynomial hash of base 31 over the
    character codes of the content followed by the settings, reduced to a
    signed 32-bit integer and printed in decimal.  So it tells apart
    neither "Aa" from "BB", wherever they stand in the content. *)
Theorem content_hash_polynomial content settings :
  generateContentHash content settings
    = integer_text (to_int32 (poly31 (content ++ settings)))
  /\ (- 2 ^ 31 <= to_int32 (poly31 (content ++ settings)) < 2 ^ 31)%Z
  /\ (forall before after,
        generateContentHash (before ++ L "Aa" ++ after) settings
        = generateContentHash (before ++ L "BB" ++ after) settings).
Proof.
  assert (H : forall s, fold_left hash_step s 0%Z = to_int32 (poly31 s)).
  { intros s. rewrite <- fold_hash_int32. now apply fold_hash_poly. }
  split; [|split].
  - unfold generateContentHash. now rewrite H.
  - apply to_int32_range.
  - intros before after. unfold generateContentHash. rewrite !H. f_equal.
    apply to_int32_congr. rewrite <- !app_assoc, !poly31_app.
    rewrite !fold_left_app. apply poly_fold_congr. f_equal.
    generalize (poly31 before). intros h.
    cbn [fold_left L list_ascii_of_string].
    change (Z.of_nat (code "A")) with 65%Z. change (Z.of_nat (code "a")) with 97%Z.
    change (Z.of_nat (code "B")) with 66%Z. f_equal. lia.
Qed.

Lemma firstn_le_length {A} n (l : list A) : length (firstn n l) <= n.
Proof. rewrite length_firstn. lia. Qed.

Lemma without_data_none l :
  Forall (fun item => exportData item = None) (map without_data l).
Proof. induction l; constructor; auto. Qed.

Section StoreFacts.

Variable setItem_takes : list ExportHistoryItem -> bool.

Lemma saveExportsToStorage_exports l s :
  exports (saveExportsToStorage setItem_takes l s) = exports s.
Proof. unfold saveExportsToStorage. now destruct (setItem_takes _). Qed.

Lemma addExport_exports generatedId now exportItem s :
  exports (addExport setItem_takes generatedId now exportItem s)
  = {| id := generatedId; title := title exportItem; format := format exportItem;
       timestamp := now; theme := theme exportItem; fileName := fileName exportItem;
       fileSize := fileSize exportItem; exportData := exportData exportItem;
       settings := settings exportItem; contentHash := contentHash exportItem |}
    :: firstn (MAX_EXPORTS - 1) (exports s).
Proof.
  unfold addExport, toast. cbn [exports].
  rewrite saveExportsToStorage_exports. reflexivity.
Qed.

Lemma removeExport_exports exportId s :
  exports (removeExport setItem_takes exportId s)
  = filter (fun exp => negb (text_eqb (id exp) exportId)) (exports s).
Proof.
  unfold removeExport, toast. cbn [exports].
  rewrite saveExportsToStorage_exports. reflexivity.
Qed.

End StoreFacts.

Lemma firstn_In {A} n (l : list A) x : In x (firstn n l) -> In x l.
Proof.
  revert l. induction n as [|n IH]; intros [|y l]; cbn [firstn In]; try tauto.
  intros [H|H]; auto.
Qed.

Lemma filter_all {A} (f : A -> bool) l :
  (forall x, In x l -> f x = true) -> filter f l = l.
Proof.
  induction l as [|x l IH]; intros H; [reflexivity|].
  cbn [filter]. rewrite (H x) by now left. f_equal. apply IH.
  intros y Hy. apply H. now right.
Qed.

(** X2.  After [addExport] the history holds at most [MAX_EXPORTS] items,
    the new one first, under the generated id and the current time, then
    the 49 most recent of the former ones in their order: nothing is lost
    while the history is below 50.  What goes to the storage is the new
    history without any export data; when the storage refuses it, it keeps
    what it held and an error is shown. *)
Theorem addExport_bounded setItem_takes generatedId now exportItem s :
  let s' := addExport setItem_takes generatedId now exportItem s in
  length (exports s') <= MAX_EXPORTS
  /\ (exists newExport,
        exports s' = newExport :: firstn (MAX_EXPORTS - 1) (exports s)
        /\ id newExport = generatedId /\ timestamp newExport = now
        /\ fileName newExport = fileName exportItem
        /\ exportData newExport = exportData exportItem)
  /\ (length (exports s) < MAX_EXPORTS -> tl (exports s') = exports s)
  /\ (setItem_takes (map without_data (exports s')) = true ->
      exists stored,
        storage s' = Some stored
        /\ stored = map without_data (exports s')
        /\ Forall (fun item => exportData item = None) stored)
  /\ (setItem_takes (map without_data (exports s')) = false ->
      storage s' = storage s
      /\ In (toast_error, L "Failed to save export history") (toasts s')).
Proof.
  cbv zeta. rewrite addExport_exports.
  split; [|split; [|split; [|split]]].
  - cbn [length]. pose proof (firstn_le_length (MAX_EXPORTS - 1) (exports s)).
    unfold MAX_EXPORTS in *. cbn [Nat.sub] in *. lia.
  - eexists. split; [reflexivity|]. cbn. auto.
  - intros Hlt. cbn [tl]. apply firstn_all2. unfold MAX_EXPORTS in *. cbn [Nat.sub]. lia.
  - intros Htakes. unfold addExport, saveExportsToStorage, toast, set_exports.
    cbn [exports storage]. change (firstn MAX_EXPORTS (?x :: exports s))
      with (x :: firstn (MAX_EXPORTS - 1) (exports s)).
    rewrite Htakes. cbn [storage]. eexists. split; [reflexivity|].
    split; [reflexivity|]. apply without_data_none.
  - intros Hrefused. unfold addExport, saveExportsToStorage, toast, set_exports.
    cbn [exports storage]. change (firstn MAX_EXPORTS (?x :: exports s))
      with (x :: firstn (MAX_EXPORTS - 1) (exports s)).
    rewrite Hrefused. cbn [storage toasts]. split; [reflexivity|].
    apply in_or_app. left. apply in_or_app. right. now left.
Qed.

(** X3.  Removing the export that was just added, when its id is new,
    gives back the former history cut to its 49 most recent items: the
    former history itself when it was below 50. *)
Theorem removeExport_after_addExport setItem_takes generatedId now exportItem s :
  (forall exp, In exp (exports s) -> id exp <> generatedId) ->
  exports (removeExport setItem_takes generatedId
             (addExport setItem_takes generatedId now exportItem s))
    = firstn (MAX_EXPORTS - 1) (exports s)
  /\ (length (exports s) < MAX_EXPORTS ->
      exports (removeExport setItem_takes generatedId
                 (addExport setItem_takes generatedId now exportItem s))
      = exports s).
Proof.
  intros Hfresh.
  assert (H : exports (removeExport setItem_takes generatedId
                         (addExport setItem_takes generatedId now exportItem s))
              = firstn (MAX_EXPORTS - 1) (exports s)).
  { rewrite removeExport_exports, addExport_exports. cbn [filter id].
    replace (text_eqb generatedId generatedId) with true
      by (symmetry; now apply text_eqb_eq).
    cbn [negb]. apply filter_all. intros exp Hin.
    apply negb_true_iff, text_eqb_neq, Hfresh.
    exact (firstn_In _ _ _ Hin). }
  split; [exact H|]. intros Hlt. rewrite H. apply firstn_all2.
  unfold MAX_EXPORTS in *. cbn [Nat.sub]. lia.
Qed.








Lemma removeExport_after_addExport_witness :
  exports (removeExport (fun _ => true) (L "export_2")
             (addExport (fun _ => true) (L "export_2") 2 (sample_export "x")
                sample_history))
  = [sample_export "export_1"].
Proof.
  assert (Hfresh : forall exp, In exp (exports sample_history) -> id exp <> L "export_2").
  { intros exp [<-|[]]. discriminate. }
  destruct (removeExport_after_addExport (fun _ => true) (L "export_2") 2
              (sample_export "x") sample_history Hfresh) as [_ H].
  apply H. unfold MAX_EXPORTS. cbn [length exports sample_history]. lia.
Defined.


Lemma div_bounds d k lo hi :
  (0 < k)%Z -> (lo * k <= d < hi * k)%Z -> (lo <= d / k < hi)%Z.
Proof.
  intros Hk [Hlo Hhi]. split.
  - apply Z.div_le_lower_bound; lia.
  - apply Z.div_lt_upper_bound; lia.
Qed.

(** X5.  [formatTimeAgo], by the age [now - timestamp] in milliseconds:
    under one minute (also for a time in the future) "Just now"; under one
    hour the whole minutes, from 1 to 59; under one day the whole hours,
    from 1 to 23; under seven days the whole days, from 1 to 6; from then
    on the date.  The unit takes its [s] exactly when the count is above
    one, so a count of 0 is never shown. *)
Theorem formatTimeAgo_buckets toLocaleDateString now timestamp :
  let diff := (now - timestamp)%Z in
  ((diff < 60000)%Z -> formatTimeAgo toLocaleDateString now timestamp = L "Just now")
  /\ ((60000 <= diff < 3600000)%Z ->
      formatTimeAgo toLocaleDateString now timestamp = ago (diff / 60000) "min"
      /\ (1 <= diff / 60000 <= 59)%Z)
  /\ ((3600000 <= diff < 86400000)%Z ->
      formatTimeAgo toLocaleDateString now timestamp = ago (diff / 3600000) "hour"
      /\ (1 <= diff / 3600000 <= 23)%Z)
  /\ ((86400000 <= diff < 604800000)%Z ->
      formatTimeAgo toLocaleDateString now timestamp = ago (diff / 86400000) "day"
      /\ (1 <= diff / 86400000 <= 6)%Z)
  /\ ((604800000 <= diff)%Z ->
      formatTimeAgo toLocaleDateString now timestamp = toLocaleDateString timestamp)
  /\ ago 1 "min" = L "1 min ago" /\ ago 2 "min" = L "2 mins ago"
  /\ ago 1 "hour" = L "1 hour ago" /\ ago 23 "hour" = L "23 hours ago"
  /\ ago 1 "day" = L "1 day ago" /\ ago 6 "day" = L "6 days ago".
Proof.
  cbv zeta. unfold formatTimeAgo.
  change (1000 * 60 * 60 * 24)%Z with 86400000%Z.
  change (1000 * 60 * 60)%Z with 3600000%Z. change (1000 * 60)%Z with 60000%Z.
  set (diff := (now - timestamp)%Z).
  repeat split; try reflexivity; intros.
  - assert (diff / 60000 < 1)%Z by (apply Z.div_lt_upper_bound; lia).
    destruct (Z.ltb_spec (diff / 60000) 1); [reflexivity | lia].
  - pose proof (div_bounds diff 60000 1 60 ltac:(lia) ltac:(lia)).
    destruct (Z.ltb_spec (diff / 60000) 1); [lia|].
    destruct (Z.ltb_spec (diff / 60000) 60); [reflexivity | lia].
  - pose proof (div_bounds diff 60000 1 60 ltac:(lia) ltac:(lia)). lia.
  - pose proof (div_bounds diff 60000 1 60 ltac:(lia) ltac:(lia)). lia.
  - pose proof (div_bounds diff 60000 60 1440 ltac:(lia) ltac:(lia)).
    pose proof (div_bounds diff 3600000 1 24 ltac:(lia) ltac:(lia)).
    destruct (Z.ltb_spec (diff / 60000) 1); [lia|].
    destruct (Z.ltb_spec (diff / 60000) 60); [lia|].
    destruct (Z.ltb_spec (diff / 3600000) 24); [reflexivity | lia].
  - pose proof (div_bounds diff 3600000 1 24 ltac:(lia) ltac:(lia)). lia.
  - pose proof (div_bounds diff 3600000 1 24 ltac:(lia) ltac:(lia)). lia.
  - pose proof (div_bounds diff 60000 1440 10080 ltac:(lia) ltac:(lia)).
    pose proof (div_bounds diff 3600000 24 168 ltac:(lia) ltac:(lia)).
    pose proof (div_bounds diff 86400000 1 7 ltac:(lia) ltac:(lia)).
    destruct (Z.ltb_spec (diff / 60000) 1); [lia|].
    destruct (Z.ltb_spec (diff / 60000) 60); [lia|].
    destruct (Z.ltb_spec (diff / 3600000) 24); [lia|].
    destruct (Z.ltb_spec (diff / 86400000) 7); [reflexivity | lia].
  - pose proof (div_bounds diff 86400000 1 7 ltac:(lia) ltac:(lia)). lia.
  - pose proof (div_bounds diff 86400000 1 7 ltac:(lia) ltac:(lia)). lia.
  - assert (10080 <= diff / 60000)%Z by (apply Z.div_le_lower_bound; lia).
    assert (168 <= diff / 3600000)%Z by (apply Z.div_le_lower_bound; lia).
    assert (7 <= diff / 86400000)%Z by (apply Z.div_le_lower_bound; lia).
    destruct (Z.ltb_spec (diff / 60000) 1); [lia|].
    destruct (Z.ltb_spec (diff / 60000) 60); [lia|].
    destruct (Z.ltb_spec (diff / 3600000) 24); [lia|].
    destruct (Z.ltb_spec (diff / 86400000) 7); [lia | reflexivity].
Qed.

End ExportHistoryProperties.

Section ShortcutsProperties.
Import Shortcuts.

(* ================================================================== *)
(** ** Keyboard shortcuts *)

Lemma text_eqb_refl a : text_eqb a a = true.
Proof. now apply text_eqb_eq. Qed.

Lemma text_eqb_sym a b : text_eqb a b = text_eqb b a.
Proof.
  destruct (text_eqb a b) eqn:E.
  - apply text_eqb_eq in E. subst. symmetry. apply text_eqb_refl.
  - symmetry. apply text_eqb_neq. apply text_eqb_neq in E. congruence.
Qed.

Lemma find_over_app {A} (f : A -> bool) a b :
  find f (a ++ b) = match find f a with Some x => Some x | None => find f b end.
Proof.
  induction a as [|x a IH]; [reflexivity|]. cbn [app find]. now destruct (f x).
Qed.

Section ShortcutFacts.

Variable Action : Type.
Implicit Types (s : KeyboardShortcut Action) (mp : shortcut_map Action).

Lemma Map_get_set k k' v mp :
  Map_get k (Map_set k' v mp) = if text_eqb k k' then Some v else Map_get k mp.
Proof.
  induction mp as [|[k0 v0] mp IH]; cbn [Map_set Map_get]; [reflexivity|].
  destruct (text_eqb k' k0) eqn:E; cbn [Map_get].
  - apply text_eqb_eq in E. subst k0. now destruct (text_eqb k k').
  - rewrite IH. destruct (text_eqb k k0) eqn:E0; [|reflexivity].
    apply text_eqb_eq in E0. subst k0.
    rewrite text_eqb_sym, E. reflexivity.
Qed.

Lemma Map_get_delete k k' mp :
  Map_get k (Map_delete k' mp) = if text_eqb k k' then None else Map_get k mp.
Proof.
  unfold Map_delete.
  induction mp as [|[k0 v0] mp IH]; cbn [filter Map_get fst];
    [now destruct (text_eqb k k')|].
  destruct (text_eqb k' k0) eqn:E; cbn [negb Map_get].
  - rewrite IH. apply text_eqb_eq in E. subst k0. now destruct (text_eqb k k').
  - rewrite IH. destruct (text_eqb k k0) eqn:E0; [|reflexivity].
    apply text_eqb_eq in E0. subst k0. now rewrite text_eqb_sym, E.
Qed.

Lemma Map_get_fold k (l : list (KeyboardShortcut Action)) mp :
  Map_get k (fold_left (fun mp s => Map_set (buildShortcutKey s) s mp) l mp)
  = match find (fun s => text_eqb k (buildShortcutKey s)) (rev l) with
    | Some s => Some s
    | None => Map_get k mp
    end.
Proof.
  revert mp. induction l as [|s l IH]; intros mp; [reflexivity|].
  cbn [fold_left rev]. rewrite IH, find_over_app.
  destruct (find _ (rev l)); [reflexivity|].
  cbn [find]. rewrite Map_get_set. now destruct (text_eqb k (buildShortcutKey s)).
Qed.

End ShortcutFacts.

(** X6.  A key event is looked up under the chord built from its
    modifiers and its key in lower case, which is the chord of every
    shortcut with the same modifiers and the same key up to case.  Among
    the shortcuts of the hook that have the chord of the event, the last
    one is the one that runs, and the event is stopped; an action that
    raises is reported by name.  While the user types in a field nothing
    runs, except under cmd+s and ctrl+s. *)
Theorem last_shortcut_of_chord_runs (Action : Type) (raises : Action -> bool)
    (shortcuts : list (KeyboardShortcut Action)) (pressed : list text)
    (e : KeyboardEvent) :
  let found := find (fun s => text_eqb (buildEventKey e) (buildShortcutKey s))
                 (rev shortcuts) in
  let outcome := handleKeyDown raises (fill shortcuts) pressed e in
  (forall s : KeyboardShortcut Action,
     ctrl s = ctrlKey e -> cmd s = metaKey e -> alt s = altKey e ->
     shift s = shiftKey e -> toLowerCase (key s) = toLowerCase (e_key e) ->
     buildShortcutKey s = buildEventKey e)
  /\ (isTyping e = false \/ In (buildEventKey e) allowedWhileTyping ->
      ran outcome = option_map action found
      /\ stopped outcome = match found with Some _ => true | None => false end
      /\ shown outcome
         = match found with
           | Some s => if raises (action s)
                       then Some (L "Failed to execute: " ++ description s)
                       else None
           | None => None
           end)
  /\ (isTyping e = true -> ~ In (buildEventKey e) allowedWhileTyping ->
      outcome = {| Shortcuts.pressedKeys := pressed; Shortcuts.stopped := false;
                   Shortcuts.ran := None; Shortcuts.shown := None |}).
Proof.
  cbv zeta. split; [|split].
  - intros s H1 H2 H3 H4 H5. unfold buildShortcutKey, buildEventKey.
    now rewrite H1, H2, H3, H4, H5.
  - intros Hgo. unfold handleKeyDown.
    assert (Hguard : isTyping e
                     && negb (existsb (text_eqb (buildEventKey e)) allowedWhileTyping)
                     = false).
    { destruct Hgo as [->|Hin]; [reflexivity|].
      apply andb_false_iff. right. apply negb_false_iff, existsb_exists.
      exists (buildEventKey e). split; [exact Hin | apply text_eqb_refl]. }
    rewrite Hguard. unfold fill. rewrite Map_get_fold. cbn [Map_get].
    destruct (find _ (rev shortcuts)); cbn; auto.
  - intros Htyping Hout. unfold handleKeyDown. rewrite Htyping. cbn [andb].
    replace (existsb (text_eqb (buildEventKey e)) allowedWhileTyping) with false;
      [reflexivity|].
    symmetry. apply not_true_is_false. intros H. apply Hout.
    apply existsb_exists in H as (x & Hin & Hx). apply text_eqb_eq in Hx. now subst.
Qed.

Lemma split_on_whole sep a :
  forallb (fun c => negb (Ascii.eqb c sep)) a = true -> split_on sep a = [a].
Proof.
  induction a as [|c a IH]; [reflexivity|]. cbn [forallb split_on].
  intros H. apply andb_prop in H as [Hc Ha]. apply negb_true_iff in Hc.
  rewrite Hc, (IH Ha). reflexivity.
Qed.

Lemma split_on_piece sep a b :
  forallb (fun c => negb (Ascii.eqb c sep)) a = true ->
  split_on sep (a ++ sep :: b) = a :: split_on sep b.
Proof.
  induction a as [|c a IH]; cbn [forallb app split_on].
  - intros _. now rewrite Ascii.eqb_refl.
  - intros H. apply andb_prop in H as [Hc Ha]. apply negb_true_iff in Hc.
    rewrite Hc, (IH Ha). reflexivity.
Qed.

(** Splitting at a separator undoes joining with it, when no part holds
    the separator. *)
Lemma split_on_join sep parts :
  parts <> [] ->
  Forall (fun p => forallb (fun c => negb (Ascii.eqb c sep)) p = true) parts ->
  split_on sep (join [sep] parts) = parts.
Proof.
  induction parts as [|p parts IH]; [congruence|]. intros _ H.
  inversion H as [|? ? Hp Hps]; subst.
  destruct parts as [|q parts]; [now apply split_on_whole|].
  change (join [sep] (p :: q :: parts)) with (p ++ sep :: join [sep] (q :: parts)).
  rewrite split_on_piece by assumption. f_equal. apply IH; [discriminate | assumption].
Qed.

Lemma plus_of_lower c : is_char "+" (to_lower_char c) = is_char "+" c.
Proof. destruct c as [[] [] [] [] [] [] [] []]; reflexivity. Qed.

Lemma no_plus_lower k : no_plus (toLowerCase k) = no_plus k.
Proof.
  unfold no_plus, toLowerCase. induction k as [|c k IH]; [reflexivity|].
  cbn [map forallb]. now rewrite plus_of_lower, IH.
Qed.

(** X7.  Two shortcuts whose keys hold no plus sign have the same chord
    only if they have the same modifiers and the same key up to case: the
    map of the hook never confuses two different chords. *)
Theorem chords_are_unambiguous (Action : Type) (s1 s2 : KeyboardShortcut Action) :
  no_plus (key s1) = true -> no_plus (key s2) = true ->
  buildShortcutKey s1 = buildShortcutKey s2 ->
  ctrl s1 = ctrl s2 /\ cmd s1 = cmd s2 /\ alt s1 = alt s2 /\ shift s1 = shift s2
  /\ toLowerCase (key s1) = toLowerCase (key s2).
Proof.
  intros H1 H2 H. rewrite <- no_plus_lower in H1, H2.
  apply (f_equal (split_on "+")) in H. unfold buildShortcutKey in H.
  change (L "+") with ["+"%char] in H.
  unfold no_plus, is_char in H1, H2.
  rewrite !split_on_join in H;
    try (destruct (ctrl s2), (cmd s2), (alt s2), (shift s2); discriminate);
    try (destruct (ctrl s1), (cmd s1), (alt s1), (shift s1); discriminate);
    try (destruct (ctrl s2), (cmd s2), (alt s2), (shift s2);
         repeat constructor; exact H2);
    try (destruct (ctrl s1), (cmd s1), (alt s1), (shift s1);
         repeat constructor; exact H1).
  destruct (ctrl s1), (cmd s1), (alt s1), (shift s1),
           (ctrl s2), (cmd s2), (alt s2), (shift s2);
    cbn in H; try (injection H as H; repeat split; congruence);
    exfalso; injection H; intros; subst;
    repeat match goal with
           | E : _ = toLowerCase _ |- _ => rewrite <- E in *
           | E : toLowerCase _ = _ |- _ => rewrite E in *
           end; try discriminate; congruence.
Qed.

Lemma chords_are_unambiguous_witness :
  buildShortcutKey (save_shortcut "S") = L "cmd+s"
  /\ toLowerCase (key (save_shortcut "S")) = toLowerCase (key (save_shortcut "s")).
Proof.
  split; [reflexivity|].
  assert (H1 : no_plus (key (save_shortcut "S")) = true) by reflexivity.
  assert (H2 : no_plus (key (save_shortcut "s")) = true) by reflexivity.
  assert (H : buildShortcutKey (save_shortcut "S") = buildShortcutKey (save_shortcut "s"))
    by reflexivity.
  destruct (chords_are_unambiguous nat (save_shortcut "S") (save_shortcut "s") H1 H2 H)
    as (_ & _ & _ & _ & Hk).
  exact Hk.
Defined.

Section GroupFacts.

Variable Action : Type.
Implicit Types (s : KeyboardShortcut Action)
  (grouped : list (text * list (KeyboardShortcut Action))).

Lemma members_push c c' s grouped :
  members c (group_push c' s grouped)
  = if text_eqb c c' then members c grouped ++ [s] else members c grouped.
Proof.
  unfold members.
  induction grouped as [|[c0 l0] grouped IH]; cbn [group_push find fst snd].
  - now destruct (text_eqb c c').
  - destruct (text_eqb c' c0) eqn:E; cbn [find fst snd].
    + apply text_eqb_eq in E. subst c0. now destruct (text_eqb c c').
    + destruct (text_eqb c c0) eqn:E0; [|exact IH].
      apply text_eqb_eq in E0. subst c0. now rewrite text_eqb_sym, E.
Qed.

Lemma names_push c s grouped :
  map fst (group_push c s grouped)
  = if existsb (text_eqb c) (map fst grouped) then map fst grouped
    else map fst grouped ++ [c].
Proof.
  induction grouped as [|[c0 l0] grouped IH]; cbn [group_push map fst existsb];
    [reflexivity|].
  destruct (text_eqb c c0); cbn [map fst orb]; [reflexivity|].
  rewrite IH. now destruct (existsb _ _).
Qed.

Lemma push_keeps_nonempty c s grouped :
  Forall (fun g => snd g <> []) grouped ->
  Forall (fun g => snd g <> []) (group_push c s grouped).
Proof.
  induction 1 as [|[c0 l0] grouped H0 Hrest IH]; cbn [group_push].
  - constructor; [discriminate | constructor].
  - destruct (text_eqb c c0); constructor; auto.
    cbn [snd]. destruct l0; discriminate.
Qed.

Lemma push_keeps_distinct c s grouped :
  NoDup (map fst grouped) -> NoDup (map fst (group_push c s grouped)).
Proof.
  intros H. rewrite names_push.
  destruct (existsb (text_eqb c) (map fst grouped)) eqn:E; [exact H|].
  apply NoDup_app; [exact H | repeat constructor; intros [] |].
  intros x Hx [Hc|[]]. subst x.
  assert (existsb (text_eqb c) (map fst grouped) = true); [|congruence].
  apply existsb_exists. exists c. split; [exact Hx | apply text_eqb_refl].
Qed.

End GroupFacts.

(** X8.  [getShortcutsByCategory] puts every shortcut of the map in the
    group of its category, 'General' when it has none or an empty one, in
    the order of the map; no group is empty and no name is used twice.
    A shortcut whose category is a name that every object inherits, such
    as constructor, makes it raise a TypeError. *)
Theorem shortcuts_grouped (Action : Type) (mp : shortcut_map Action) :
  (Forall (fun kv => existsb (text_eqb (category_of (snd kv))) inherited_names = false)
     mp ->
   exists grouped,
     getShortcutsByCategory mp = Val grouped
     /\ (forall c, members c grouped
                   = filter (fun s => text_eqb c (category_of s)) (map snd mp))
     /\ NoDup (map fst grouped)
     /\ Forall (fun g => snd g <> []) grouped)
  /\ (Exists (fun kv => existsb (text_eqb (category_of (snd kv))) inherited_names = true)
        mp ->
      getShortcutsByCategory mp = Exn TypeError).
Proof.
  unfold getShortcutsByCategory.
  assert (Hgen : forall grouped0,
    Forall (fun kv => existsb (text_eqb (category_of (snd kv))) inherited_names = false)
      mp ->
    NoDup (map fst grouped0) -> Forall (fun g => snd g <> []) grouped0 ->
    exists grouped,
      foldM (fun grouped kv =>
               let c := category_of (snd kv) in
               if existsb (text_eqb c) inherited_names then Exn TypeError
               else Val (group_push c (snd kv) grouped)) mp grouped0 = Val grouped
      /\ (forall c, members c grouped
                    = members c grouped0
                      ++ filter (fun s => text_eqb c (category_of s)) (map snd mp))
      /\ NoDup (map fst grouped)
      /\ Forall (fun g => snd g <> []) grouped).
  { induction mp as [|[k s] mp IH]; intros grouped0 Hok Hnd Hne.
    - exists grouped0. cbn [foldM map filter]. repeat split; auto.
      intros c. now rewrite app_nil_r.
    - inversion Hok as [|? ? Hs Hrest]; subst. cbn [snd] in Hs.
      cbn [foldM snd]. cbv zeta. rewrite Hs. cbn [bind].
      destruct (IH (group_push (category_of s) s grouped0) Hrest)
        as (grouped & Hrun & Hmem & Hnd' & Hne').
      + now apply push_keeps_distinct.
      + now apply push_keeps_nonempty.
      + exists grouped. split; [exact Hrun|]. split; [|auto].
        intros c. rewrite Hmem, members_push. cbn [map snd filter].
        destruct (text_eqb c (category_of s)); [now rewrite <- app_assoc | reflexivity]. }
  split.
  - intros Hok. destruct (Hgen [] Hok) as (grouped & Hrun & Hmem & Hnd & Hne);
      [constructor | constructor |].
    exists grouped. repeat split; auto.
  - clear Hgen. generalize (@nil (text * list (KeyboardShortcut Action))).
    induction mp as [|[k s] mp IH]; intros grouped0 Hex; [inversion Hex|].
    cbn [foldM snd]. cbv zeta.
    destruct (existsb (text_eqb (category_of s)) inherited_names) eqn:E;
      [reflexivity|].
    cbn [bind]. apply IH. inversion Hex as [? ? Hs|? ? Hrest]; subst; [|exact Hrest].
    cbn [snd] in Hs. congruence.
Qed.

End ShortcutsProperties.

(* ================================================================== *)
(** ** Image references *)

Lemma standard_syntax_eq : standard_syntax = lits (L "![") standard_tail.
Proof. reflexivity. Qed.

Lemma alt_set x : set_matches true [CChar "]"] x = alt_char x.
Proof. unfold set_matches, alt_char, is_char. simpl. now rewrite orb_false_r. Qed.

Lemma path_set x : set_matches true [CChar ")"] x = path_char x.
Proof. unfold set_matches, path_char, is_char. simpl. now rewrite orb_false_r. Qed.

Lemma set_body total neg items inp c k :
  m (RSet neg items) total inp c k =
  match inp with
  | x :: inp' => if set_matches neg items x then k inp' c else MFail
  | [] => MFail
  end.
Proof. reflexivity. Qed.

Lemma standard_image_match total alt path rest :
  forallb alt_char alt = true ->
  path <> [] -> forallb path_char path = true ->
  m standard_syntax total (L "![" ++ alt ++ L "](" ++ path ++ L ")" ++ rest) []
    (fun r c => MFound r c)
  = MFound rest [(2, path); (1, alt)].
Proof.
  intros Halt Hne Hpath.
  rewrite standard_syntax_eq, m_lits, starts_with_app, skipn_prefix.
  unfold standard_tail. cbn [m]. name_continuation K.
  assert (HK : K (L "](" ++ path ++ L ")" ++ rest) [] = MFound rest [(2, path); (1, alt)]).
  { unfold K. rewrite firstn_taken.
    change (L "](" ++ path ++ L ")" ++ rest) with ("]"%char :: "("%char :: path ++ L ")" ++ rest).
    cbn [Ascii.eqb Bool.eqb]. cbv iota.
    name_continuation K2.
    assert (HK2 : K2 (L ")" ++ rest) (set_cap 1 alt []) = MFound rest [(2, path); (1, alt)]).
    { unfold K2. rewrite firstn_taken. reflexivity. }
    rewrite (greedy_run _ _ (set_matches true [CChar ")"])).
    - exact HK2.
    - reflexivity.
    - apply clear_caps_nil.
    - rewrite forallb_forall in *. intros x Hx. rewrite path_set. auto.
    - reflexivity.
    - destruct path; [congruence | simpl; lia].
    - lia.
    - rewrite HK2. discriminate. }
  rewrite (greedy_run _ _ (set_matches true [CChar "]"])).
  - exact HK.
  - reflexivity.
  - apply clear_caps_nil.
  - rewrite forallb_forall in *. intros x Hx. rewrite alt_set. auto.
  - reflexivity.
  - lia.
  - lia.
  - rewrite HK. discriminate.
Qed.

(* ------------------------------------------------------------------ *)
(** ** Matches in the middle of a text *)

Lemma all_from_prefix r total before rest pos :
  (forall a b, before = a ++ b -> b <> [] ->
     match_here r total (pos + length a) (b ++ rest) = Val None) ->
  all_from r total 0 pos (before ++ rest)
  = all_from r total 0 (pos + length before) rest.
Proof.
  revert pos. induction before as [|x before IH]; intros pos H.
  - cbn [app length]. now rewrite Nat.add_0_r.
  - cbn [app all_from].
    pose proof (H [] (x :: before) eq_refl ltac:(discriminate)) as H0.
    cbn [length app] in H0. rewrite Nat.add_0_r in H0. rewrite H0. cbn [bind].
    rewrite IH.
    + f_equal. cbn [length]. lia.
    + intros a b -> Hb. specialize (H (x :: a) b eq_refl Hb).
      cbn [length] in H. now replace (S pos + length a) with (pos + S (length a)) by lia.
Qed.

Lemma all_from_hit r total pos taken after c :
  taken <> [] ->
  match_here r total pos (taken ++ after)
  = Val (Some {| m_index := pos; m_text := taken; m_caps := c |}) ->
  all_from r total 0 pos (taken ++ after)
  = (do more <- all_from r total 0 (pos + length taken) after;
     Val ({| m_index := pos; m_text := taken; m_caps := c |} :: more)).
Proof.
  intros Hne H. destruct taken as [|x taken]; [congruence|].
  cbn [app all_from]. cbn [app] in H. rewrite H. cbn [bind m_text length pred].
  rewrite all_from_skip by (rewrite length_app; lia).
  rewrite skipn_prefix. f_equal. f_equal. lia.
Qed.

Lemma starts_with_other a p x s :
  Ascii.eqb x a = false -> starts_with (a :: p) (x :: s) = false.
Proof. intros H. cbn [starts_with]. now rewrite Ascii.eqb_sym, H. Qed.

Lemma occurs_past a p s t :
  without a s = true -> occurs (a :: p) (s ++ t) = occurs (a :: p) t.
Proof.
  induction s as [|x s IH]; [reflexivity|]. cbn [without forallb].
  intros H. apply andb_prop in H as [Hx Hs]. apply negb_true_iff in Hx.
  cbn [app occurs]. rewrite (starts_with_other _ _ _ _ Hx). now apply IH.
Qed.

Lemma index_of_past a p s t :
  without a s = true ->
  index_of (a :: p) (s ++ t) = option_map (Nat.add (length s)) (index_of (a :: p) t).
Proof.
  induction s as [|x s IH]; cbn [without forallb].
  - intros _. cbn [app length]. now destruct (index_of (a :: p) t).
  - intros H. apply andb_prop in H as [Hx Hs]. apply negb_true_iff in Hx.
    cbn [app index_of]. rewrite (starts_with_other _ _ _ _ Hx), (IH Hs).
    now destruct (index_of (a :: p) t).
Qed.

Lemma index_of_here p t : index_of p (p ++ t) = Some 0.
Proof.
  destruct p as [|a p]; [now destruct t|].
  cbn [app index_of]. change (a :: p ++ t) with ((a :: p) ++ t).
  now rewrite starts_with_app.
Qed.

Lemma without_app a s t : without a (s ++ t) = without a s && without a t.
Proof. apply forallb_app. Qed.

Lemma no_match_past a p r total pos before rest :
  without a before = true ->
  forall x y, before = x ++ y -> y <> [] ->
    match_here (lits (a :: p) r) total (pos + length x) (y ++ rest) = Val None.
Proof.
  intros H x y -> Hy. rewrite without_app in H. apply andb_prop in H as [_ H].
  destruct y as [|c y]; [congruence|]. cbn [without forallb] in H.
  apply andb_prop in H as [Hc _]. apply negb_true_iff in Hc.
  unfold match_here. rewrite m_lits. cbn [app].
  now rewrite (starts_with_other _ _ _ _ Hc).
Qed.

Lemma standard_match_located before alt path after :
  without "!" before = true ->
  forallb alt_char alt = true ->
  path <> [] -> forallb path_char path = true ->
  occurs (L "![") after = false ->
  matchAll standard_syntax (before ++ reference alt path ++ after)
  = Val [ {| m_index := length before; m_text := reference alt path;
             m_caps := [(2, path); (1, alt)] |} ].
Proof.
  intros Hb Halt Hne Hpath Hafter. unfold matchAll.
  set (total := length (before ++ reference alt path ++ after)).
  rewrite all_from_prefix
    by (rewrite standard_syntax_eq; apply (no_match_past "!" (L "[")); exact Hb).
  cbn [Nat.add].
  rewrite (all_from_hit _ _ _ _ _ [(2, path); (1, alt)]).
  - rewrite all_from_matchless; [reflexivity|].
    rewrite standard_syntax_eq. now apply matchless_absent.
  - discriminate.
  - unfold match_here, reference. rewrite <- !app_assoc.
    rewrite standard_image_match by assumption.
    f_equal. f_equal. f_equal.
    replace (L "![" ++ alt ++ L "](" ++ path ++ L ")" ++ after)
      with ((L "![" ++ alt ++ L "](" ++ path ++ L ")") ++ after)
      by (now rewrite <- !app_assoc).
    apply firstn_taken.
Qed.

Lemma forallb_weaken {A} (p q : A -> bool) l :
  (forall x, p x = true -> q x = true) -> forallb p l = true -> forallb q l = true.
Proof.
  intros H Hp. rewrite forallb_forall in *. auto.
Qed.

Lemma alt_text_alt alt : forallb alt_text_char alt = true -> forallb alt_char alt = true.
Proof.
  apply forallb_weaken. intros x. unfold alt_text_char, alt_char.
  now destruct (is_char "]" x).
Qed.

Lemma alt_text_clean alt : forallb alt_text_char alt = true -> without "!" alt = true.
Proof.
  apply forallb_weaken. intros x. unfold alt_text_char, is_char.
  destruct (Ascii.eqb x "!"); [|reflexivity]. now rewrite !andb_false_r.
Qed.


Lemma path_text_path p : forallb path_text_char p = true -> forallb path_char p = true.
Proof.
  apply forallb_weaken. intros x. unfold path_text_char, path_char.
  now destruct (is_char ")" x).
Qed.

Lemma path_text_clean p : forallb path_text_char p = true -> without "!" p = true.
Proof.
  apply forallb_weaken. intros x. unfold path_text_char, is_char.
  destruct (Ascii.eqb x "!"); [|reflexivity]. now rewrite !andb_false_r.
Qed.

Lemma data_path d : forallb data_char d = true -> forallb path_text_char d = true.
Proof.
  apply forallb_weaken. intros x. unfold data_char, path_text_char.
  now destruct (is_char "$" x); rewrite ?andb_true_r, ?andb_false_r.
Qed.


Lemma occurs_cons p c s : occurs p (c :: s) = starts_with p (c :: s) || occurs p s.
Proof. reflexivity. Qed.

(** No Obsidian reference opens in a text whose one reference is a
    standard one. *)
Lemma no_obsidian_opening before alt x after :
  without "!" before = true ->
  forallb alt_text_char alt = true ->
  without "!" x = true ->
  occurs (L "![") after = false ->
  occurs (L "![[") (before ++ reference alt x ++ after) = false.
Proof.
  intros Hb Halt Hx Hafter.
  change (L "![[") with ("!"%char :: L "[[").
  rewrite occurs_past by assumption.
  unfold reference. rewrite <- !app_assoc.
  change (L "![" ++ alt ++ L "](" ++ x ++ L ")" ++ after)
    with ("!"%char :: "["%char :: alt ++ L "](" ++ x ++ L ")" ++ after).
  rewrite occurs_cons.
  assert (Hhead : starts_with ("!"%char :: L "[[")
                    ("!"%char :: "["%char :: alt ++ L "](" ++ x ++ L ")" ++ after)
                  = false).
  { cbn [starts_with L list_ascii_of_string]. rewrite !Ascii.eqb_refl. cbn [andb].
    destruct alt as [|a alt]; [reflexivity|].
    cbn [forallb] in Halt. apply andb_prop in Halt as [Ha _].
    unfold alt_text_char, is_char in Ha. cbn [app].
    rewrite (Ascii.eqb_sym "[" a).
    destruct (Ascii.eqb a "["); [|reflexivity].
    now rewrite !andb_false_r, ?andb_false_l in Ha. }
  rewrite Hhead. cbn [orb].
  replace ("["%char :: alt ++ L "](" ++ x ++ L ")" ++ after)
    with (("["%char :: alt ++ L "](" ++ x ++ L ")") ++ after)
    by (cbn [app]; now rewrite <- !app_assoc).
  rewrite occurs_past.
  - destruct (occurs ("!"%char :: L "[[") after) eqn:E; [|reflexivity].
    change ("!"%char :: L "[[") with (L "![" ++ L "[") in E.
    apply occurs_prefix in E. congruence.
  - change ("["%char :: alt ++ L "](" ++ x ++ L ")")
      with (L "[" ++ alt ++ L "](" ++ x ++ L ")").
    rewrite !without_app, (alt_text_clean alt Halt), Hx. reflexivity.
Qed.

Lemma standard_regex :
  RegExp_new (L standardImageRegex) = Val {| re_syntax := standard_syntax; re_groups := 2 |}.
Proof. reflexivity. Qed.

Lemma obsidian_regex :
  RegExp_new (L obsidianImageRegex) = Val {| re_syntax := obsidian_syntax; re_groups := 2 |}.
Proof. reflexivity. Qed.

Lemma obsidian_syntax_eq : exists tail, obsidian_syntax = lits (L "![[") tail.
Proof. eexists. reflexivity. Qed.

Lemma no_obsidian_match doc :
  occurs (L "![[") doc = false -> matchAll obsidian_syntax doc = Val [].
Proof.
  intros H. destruct obsidian_syntax_eq as [tail ->]. unfold matchAll.
  apply all_from_matchless. now apply matchless_absent.
Qed.

Lemma reference_index before alt path after :
  without "!" before = true ->
  index_of (reference alt path) (before ++ reference alt path ++ after)
  = Some (length before).
Proof.
  intros Hb. unfold reference at 1.
  change (L "![" ++ alt ++ L "](" ++ path ++ L ")")
    with ("!"%char :: "["%char :: alt ++ L "](" ++ path ++ L ")").
  rewrite index_of_past by assumption.
  change ("!"%char :: "["%char :: alt ++ L "](" ++ path ++ L ")")
    with (reference alt path).
  rewrite index_of_here. cbn [option_map]. now rewrite Nat.add_0_r.
Qed.

Lemma replace_string_located a p before after template :
  without a before = true ->
  dollar_free template = true ->
  replace_string (a :: p) template (before ++ (a :: p) ++ after)
  = before ++ template ++ after.
Proof.
  intros Hb Ht. unfold replace_string.
  rewrite index_of_past by assumption. rewrite index_of_here.
  cbn [option_map]. rewrite Nat.add_0_r.
  rewrite substitute_dollar_free by assumption.
  rewrite firstn_app, Nat.sub_diag, firstn_all. cbn [firstn]. rewrite app_nil_r.
  f_equal. f_equal.
  rewrite skipn_app, skipn_all2 by lia. cbn [app].
  replace (length before + length (a :: p) - length before)
    with (length (a :: p)) by lia.
  apply (skipn_prefix (a :: p)).
Qed.



Lemma extract_one before alt path after :
  without "!" before = true ->
  forallb alt_text_char alt = true ->
  path <> [] -> forallb path_text_char path = true ->
  occurs (L "![") after = false ->
  extractImagePaths (before ++ reference alt path ++ after)
  = Val (if is_remote path then [] else [path]).
Proof.
  intros Hb Halt Hne Hpath Hafter. unfold extractImagePaths.
  rewrite standard_regex. cbn [bind re_syntax].
  rewrite (standard_match_located before alt path after Hb
             (alt_text_alt alt Halt) Hne (path_text_path path Hpath) Hafter).
  cbn [bind map filter]. change (group 2 _) with path.
  rewrite obsidian_regex. cbn [bind re_syntax].
  rewrite no_obsidian_match
    by (apply no_obsidian_opening; try assumption; now apply path_text_clean).
  cbn [bind map]. rewrite app_nil_r.
  now destruct (is_remote path).
Qed.


(** X10.  For a text whose one image reference is [![alt](path)], between
    parts that hold no image syntax: the path is the one required path
    unless it begins with http://, https:// or data:, and it is reported
    matched or unmatched according to the image map having an entry for
    it.  Once the reference holds a data URL in the place of the path, as
    after [processMarkdownImages], no path is required any more. *)
Theorem one_reference_status before alt path after imageMap :
  without "!" before = true ->
  forallb alt_text_char alt = true ->
  path <> [] -> forallb path_text_char path = true ->
  occurs (L "![") after = false ->
  extractImagePaths (before ++ reference alt path ++ after)
    = Val (if is_remote path then [] else [path])
  /\ (is_remote path = false ->
      getImageMatchStatus (before ++ reference alt path ++ after) imageMap
      = Val (if map_has path imageMap
             then {| matched := [path]; unmatched := []; total := 1 |}
             else {| matched := []; unmatched := [path]; total := 1 |}))
  /\ (forall d,
        forallb data_char d = true ->
        extractImagePaths (before ++ reference alt (L "data:" ++ d) ++ after) = Val []).
Proof.
  intros Hb Halt Hne Hpath Hafter.
  pose proof (extract_one before alt path after Hb Halt Hne Hpath Hafter) as H.
  split; [exact H|]. split.
  - intros Hlocal. unfold getImageMatchStatus. rewrite H, Hlocal.
    cbn [bind filter length]. now destruct (map_has path imageMap).
  - intros d Hd.
    rewrite (extract_one before alt (L "data:" ++ d) after Hb Halt);
      [reflexivity | discriminate | | assumption].
    rewrite forallb_app. rewrite (data_path d Hd). reflexivity.
Qed.

Lemma fold_embed_standard_none imageMap ms md :
  (forall p, embedded imageMap p = None) ->
  fold_left (embed_standard imageMap) ms md = md.
Proof.
  intros H. revert md. induction ms as [|mt ms IH]; intros md; [reflexivity|].
  cbn [fold_left]. unfold embed_standard at 2. rewrite H. apply IH.
Qed.

Lemma fold_embed_obsidian_none imageMap ms md :
  (forall p, embedded imageMap p = None) ->
  fold_left (embed_obsidian imageMap) ms md = md.
Proof.
  intros H. revert md. induction ms as [|mt ms IH]; intros md; [reflexivity|].
  cbn [fold_left]. unfold embed_obsidian at 2. rewrite H. apply IH.
Qed.

Lemma no_standard_match doc :
  occurs (L "![") doc = false -> matchAll standard_syntax doc = Val [].
Proof.
  intros H. rewrite standard_syntax_eq. unfold matchAll.
  apply all_from_matchless. now apply matchless_absent.
Qed.

Lemma one_reference_status_witness :
  extractImagePaths (L "See " ++ reference (L "logo") (L "img/logo.png") ++ L " here.")
  = Val [L "img/logo.png"].
Proof.
  assert (Hp : L "img/logo.png" <> []) by discriminate.
  exact (proj1 (one_reference_status (L "See ") (L "logo") (L "img/logo.png")
                  (L " here.") [] eq_refl eq_refl Hp eq_refl eq_refl)).
Defined.

(** X11.  [processMarkdownImages] gives the text back as it is when the
    image map has no non-empty entry (an empty map above all), whatever the
    text, and when the text holds no [![], whatever the map. *)
Theorem nothing_to_embed markdown imageMap :
  (forall p, embedded imageMap p = None) \/ occurs (L "![") markdown = false ->
  processMarkdownImages markdown imageMap = Val markdown.
Proof.
  intros [Hnone|Habsent]; unfold processMarkdownImages;
    rewrite standard_regex; cbn [bind re_syntax].
  - destruct (matchAll_total standard_syntax markdown) as [ms ->]. cbn [bind].
    rewrite fold_embed_standard_none by assumption.
    rewrite obsidian_regex. cbn [bind re_syntax].
    destruct (matchAll_total obsidian_syntax markdown) as [ms' ->]. cbn [bind].
    now rewrite fold_embed_obsidian_none.
  - rewrite no_standard_match by assumption. cbn [bind fold_left].
    rewrite obsidian_regex. cbn [bind re_syntax].
    rewrite no_obsidian_match; [reflexivity|].
    destruct (occurs (L "![[") markdown) eqn:E; [|reflexivity].
    change (L "![[") with (L "![" ++ L "[") in E. apply occurs_prefix in E. congruence.
Qed.

Lemma exec_matchless r total pos inp :
  matchless total r inp -> exec_from r total pos inp = Val None.
Proof.
  revert pos. induction inp as [|x inp IH]; intros pos H; cbn [exec_from].
  - rewrite match_here_none; [reflexivity|]. intros rest. now apply (H [] []).
  - rewrite match_here_none; [|intros rest; now apply (H [] (x :: inp))].
    cbn [bind]. apply IH. eapply matchless_tail, H.
Qed.

Lemma twelve_length filename : length (twelve filename) = 12.
Proof. reflexivity. Qed.

Lemma nothing_to_embed_witness :
  processMarkdownImages (L "![logo](img/logo.png) and ![[icon.gif]]") []
  = Val (L "![logo](img/logo.png) and ![[icon.gif]]").
Proof.
  apply nothing_to_embed. left. intros p. reflexivity.
Defined.

(** X12.  [generatePathVariations] always returns: the twelve forms of the
    name under the conventional folders, the name itself first, followed
    by two more or by nothing; for a name without a dot, by nothing. *)
Theorem path_variations_shape filename :
  exists vs,
    generatePathVariations filename = Val vs
    /\ firstn 12 vs = twelve filename
    /\ hd_error vs = Some filename
    /\ (length vs = 12 \/ length vs = 14)
    /\ (occurs (L ".") filename = false -> vs = twelve filename).
Proof.
  unfold generatePathVariations. rewrite extension_regex. cbn [bind re_syntax].
  unfold replace_first, exec. cbn [re_syntax].
  destruct (occurs (L ".") filename) eqn:Edot.
  - destruct (exec_from_total (lits (L ".") ext_tail) (length filename) 0 filename)
      as [found ->].
    cbn [bind]. fold (twelve filename).
    destruct found as [mt|]; cbn [bind];
      match goal with |- context [if ?b then _ else _] => destruct b end;
      eexists; (split; [reflexivity|]);
      repeat split; auto; discriminate.
  - rewrite exec_matchless by now apply matchless_absent.
    cbn [bind nonempty length Nat.eqb negb]. fold (twelve filename).
    eexists. split; [reflexivity|]. repeat split; auto.
Qed.

Lemma ingest_variations compressImage file d vs :
  ingest compressImage file = Val (d, vs) ->
  generatePathVariations (file_name file) = Val vs.
Proof.
  unfold ingest.
  destruct (if (RECOMPRESS_ABOVE <? file_size file)%N then compressImage file else Val file)
    as [pf| |]; cbn [bind]; try discriminate.
  destruct (convertImageToBase64 pf); cbn [bind]; try discriminate.
  destruct (generatePathVariations (file_name file)); cbn [bind]; try discriminate.
  now intros [= _ ->].
Qed.

Lemma embed_all_elsewhere compressImage files imageMap path :
  (forall f vs, In f files -> generatePathVariations (file_name f) = Val vs ->
                ~ In path vs) ->
  map_get path (embed_all compressImage files imageMap) = map_get path imageMap.
Proof.
  unfold embed_all. revert imageMap.
  induction files as [|f files IH]; intros imageMap H; [reflexivity|].
  assert (Hrest : forall mp,
            map_get path
              (fold_left
                 (fun mp file =>
                    match ingest compressImage file with
                    | Val (base64, variations) =>
                        fold_left (fun mp path => map_set path base64 mp) variations mp
                    | _ => mp
                    end) (filter is_image files) mp)
            = map_get path mp).
  { intros mp. apply IH. intros g vs Hg. apply H. now right. }
  cbn [filter]. destruct (is_image f); [|apply Hrest].
  cbn [fold_left]. rewrite Hrest.
  destruct (ingest compressImage f) as [[d vs]| |] eqn:E; try reflexivity.
  rewrite map_get_fold.
  replace (existsb (text_eqb path) vs) with false; [reflexivity|].
  symmetry. apply not_true_is_false. intros Hex.
  apply existsb_exists in Hex as (x & Hin & Hx). apply text_eqb_eq in Hx. subst x.
  apply (H f vs); [now left | | exact Hin].
  now apply (ingest_variations compressImage f d).
Qed.

(** X13.  An upload changes the image map only under the path variants of
    the names it is given: any other path keeps the entry it had, or stays
    without one.  A selection of more than twenty files is refused as a
    whole: the map is as it was, nothing is added and one error is shown;
    an empty selection does nothing. *)
Theorem upload_leaves_other_paths (compressImage : File -> res File)
    (files : list File) (imageMap : image_map) (path : text) :
  (forall file, compressImage file <> Beyond) ->
  (forall f vs, In f files -> generatePathVariations (file_name f) = Val vs ->
                ~ In path vs) ->
  (exists st,
     handleImageUpload compressImage files imageMap = Val st
     /\ map_get path (newImageMap st) = map_get path imageMap)
  /\ (20 < length files ->
      handleImageUpload compressImage files imageMap
      = Val {| newImageMap := imageMap; addedImages := [];
               error_toasts := [L "Please select 20 or fewer images at a time"] |})
  /\ (files = [] ->
      handleImageUpload compressImage files imageMap
      = Val {| newImageMap := imageMap; addedImages := []; error_toasts := [] |}).
Proof.
  intros Hc Helse. split; [|split].
  - unfold handleImageUpload.
    destruct (length files =? 0); [eexists; split; reflexivity|].
    destruct (20 <? length files); [eexists; split; reflexivity|].
    rewrite (upload_loop compressImage Hc). eexists. split; [reflexivity|].
    cbn [newImageMap]. now apply embed_all_elsewhere.
  - intros Hmany. unfold handleImageUpload.
    destruct (length files =? 0) eqn:E0; [apply Nat.eqb_eq in E0; lia|].
    apply Nat.ltb_lt in Hmany. now rewrite Hmany.
  - intros ->. reflexivity.
Qed.

(* ------------------------------------------------------------------ *)
(** ** Sampling the alpha channel *)

Lemma transparency_from_true fuel data i :
  transparency_from fuel data i = true ->
  exists k, i + 40 * k < length data /\ nth (i + 40 * k) data 255 < 255.
Proof.
  revert i. induction fuel as [|fuel IH]; intros i; cbn [transparency_from];
    [discriminate|].
  destruct (Nat.ltb_spec i (length data)) as [Hi|Hi]; [|discriminate].
  destruct (Nat.ltb_spec (nth i data 255) 255) as [Ha|Ha].
  - intros _. exists 0. rewrite Nat.mul_0_r, Nat.add_0_r. auto.
  - intros H. apply IH in H as (k & Hk & Hlt). exists (S k).
    replace (i + 40 * S k) with (i + 40 + 40 * k) by lia. auto.
Qed.

Lemma transparency_from_false fuel data i :
  length data <= i + 40 * fuel ->
  transparency_from fuel data i = false ->
  forall k, i + 40 * k < length data -> nth (i + 40 * k) data 255 = 255 \/
                                         255 < nth (i + 40 * k) data 255.
Proof.
  revert i. induction fuel as [|fuel IH]; intros i Hfuel; cbn [transparency_from].
  - intros _ k Hk. lia.
  - destruct (Nat.ltb_spec i (length data)) as [Hi|Hi]; [|intros _ k Hk; lia].
    destruct (Nat.ltb_spec (nth i data 255) 255) as [Ha|Ha]; [discriminate|].
    intros H k Hk. destruct k as [|k].
    + rewrite Nat.mul_0_r, Nat.add_0_r. lia.
    + replace (i + 40 * S k) with (i + 40 + 40 * k) in * by lia.
      apply (IH (i + 40)); [lia | exact H | exact Hk].
Qed.

Lemma upload_leaves_other_paths_witness :
  exists st,
    handleImageUpload shrink [icon] [(L "other.png", L "data:image/png;base64,DDDD")]
    = Val st
    /\ map_get (L "other.png") (newImageMap st)
       = Some (L "data:image/png;base64,DDDD").
Proof.
  assert (Hc : forall file, shrink file <> Beyond) by (intros file; discriminate).
  assert (Hv : forall f vs, In f [icon] ->
                 generatePathVariations (file_name f) = Val vs ->
                 ~ In (L "other.png") vs).
  { intros f vs [<-|[]] H. vm_compute in H. injection H as <-.
    intros Hin. cbn [In] in Hin.
    repeat (destruct Hin as [Hin|Hin]; [discriminate Hin|]). exact Hin. }
  exact (proj1 (upload_leaves_other_paths shrink [icon]
                  [(L "other.png", L "data:image/png;base64,DDDD")] (L "other.png")
                  Hc Hv)).
Defined.

(** X14.  [hasTransparency] looks at the alpha byte of every tenth pixel
    only (the bytes 3, 43, 83, ...): it answers yes exactly when one of
    those is below 255, so an image whose sampled pixels are opaque is
    taken for opaque whatever its other pixels are. *)
Theorem transparency_is_sampled (data : list nat) :
  hasTransparency data = true <->
  exists k, 3 + 40 * k < length data /\ nth (3 + 40 * k) data 255 < 255.
Proof.
  unfold hasTransparency. split.
  - apply transparency_from_true.
  - intros (k & Hk & Hlt).
    destruct (transparency_from (length data) data 3) eqn:E; [reflexivity|].
    pose proof (transparency_from_false (length data) data 3 ltac:(lia) E k Hk). lia.
Qed.

(* ================================================================== *)
(** ** The template engine: evaluator, lists, inverse conditionals *)






(** X16.  The list pass never raises.  [JSON.parse] answers for every
    text: it returns a value or raises a SyntaxError (as on the
    unterminated "[[1"), and whatever it raises is swallowed: the variable
    leaves the text as it is.  So does a value that is JSON but no array,
    and every value whose first character other than white space is not
    an opening bracket.  Under a name without pattern syntax the text is
    also left as it is when the first item of the array is [null]
    (rendering it raises, and the error is swallowed with the whole
    replacement), while an empty array removes every block of the
    variable. *)
Theorem list_variable_failures (processed : text) (v : TemplateVariable) :
  (forall vars e, list_pass vars processed <> Exn e)
  /\ ((exists j, JSON_parse (value v) = Val j)
      \/ JSON_parse (value v) = Exn SyntaxError)
  /\ JSON_parse (L "[[1") = Exn SyntaxError
  /\ (JSON_parse (value v) = Exn SyntaxError -> expand_list processed v = Val processed)
  /\ (match skip_ws (value v) with
      | c :: _ => is_char "[" c = false
      | [] => True
      end ->
      expand_list processed v = Val processed)
  /\ (syntax_free (name v) = true ->
      (forall items, JSON_parse (value v) = Val (JArr (JNull :: items)) ->
         expand_list processed v = Val processed)
      /\ (JSON_parse (value v) = Val (JArr []) ->
          expand_list processed v
          = Val (expand_regions (L "{{#" ++ name v ++ L "}}") (L "{{/" ++ name v ++ L "}}")
                   false processed))).
Proof.
  split; [|split; [|split; [|split; [|split]]]].
  - intros vars e. apply list_pass_guarded.
  - apply JSON_parse_total.
  - reflexivity.
  - intros H. unfold expand_list. rewrite H. reflexivity.
  - intros Hfirst. unfold expand_list.
    destruct (JSON_parse_total (value v)) as [[j Hj]|Hj]; rewrite Hj; [|reflexivity].
    cbn [bind]. destruct j as [| | | |items| | |]; try reflexivity.
    apply JSON_parse_array in Hj as [rest Hj]. rewrite Hj in Hfirst. discriminate.
  - intros Hn. split.
    + intros items H. unfold expand_list. rewrite H. cbn [bind].
      rewrite list_regex by assumption. cbn [bind].
      unfold replace_all_with.
      destruct (matchAll_total
                  (re_syntax {| re_syntax := block_syntax (L "{{#" ++ name v ++ L "}}")
                                               (L "{{/" ++ name v ++ L "}}");
                                re_groups := 1 |}) processed) as [ms ->].
      cbn [bind]. destruct ms as [|mt ms]; [reflexivity|].
      cbn [splice]. unfold render_list at 1. cbn [mapM]. unfold render_item at 1.
      cbn [Object_keys bind try_catch]. reflexivity.
    + intros H. unfold expand_list. rewrite H. cbn [bind].
      rewrite list_regex by assumption. cbn [bind try_catch].
      rewrite (replace_all_with_rewrite _ _ _
                 (find_region (L "{{#" ++ name v ++ L "}}") (L "{{/" ++ name v ++ L "}}")
                    false)).
      * reflexivity.
      * cbn [re_syntax]. intros pos inp.
        pose proof (describes_block (L "{{#" ++ name v ++ L "}}")
                      (L "{{/" ++ name v ++ L "}}") (length processed) false
                      ltac:(discriminate) pos inp) as Hd.
        destruct (find_region _ _ false inp) as [[n rep]|]; [|exact Hd].
        destruct Hd as [Hlen (c & Hm & Hf)]. split; [exact Hlen|].
        exists c. split; [exact Hm|]. injection Hf as <-. reflexivity.
Qed.

Lemma unless_pass_plain vars processed :
  Forall (fun v => plain_name (name v) = true) vars ->
  unless_pass vars processed =
  Val (fold_left
         (fun t v => expand_regions (L "{{#unless " ++ name v ++ L "}}") (L "{{/unless}}")
                       (negb (truthy (value v))) t)
         vars processed).
Proof.
  intros H. apply unless_pass_free. eapply Forall_impl; [|exact H].
  intros v. apply plain_name_free.
Qed.

(** X17.  For variables whose names are plain, the inverse conditional
    pass rewrites the text once per variable, in order: every region from
    [{{#unless v}}] to the nearest [{{/unless}}] is replaced by its inner
    text when the value of [v] is empty, "false" or "0", and is removed
    otherwise: the test is the negation of that of the conditional pass. *)
Theorem inverse_conditional_regions vars processed :
  Forall (fun v => plain_name (name v) = true) vars ->
  unless_pass vars processed =
    Val (fold_left
           (fun t v => expand_regions (L "{{#unless " ++ name v ++ L "}}")
                         (L "{{/unless}}") (negb (truthy (value v))) t)
           vars processed)
  /\ (forall v, negb (truthy v) = true <-> v = [] \/ v = L "false" \/ v = L "0").
Proof.
  intros H. split; [now apply unless_pass_plain|].
  intros v. rewrite negb_true_iff. split.
  - intros Hf. destruct v as [|c v]; [now left|]. right.
    unfold truthy in Hf. cbn [length Nat.eqb negb andb] in Hf.
    apply andb_false_iff in Hf as [Hf|Hf]; apply negb_false_iff, text_eqb_eq in Hf; auto.
  - intros [->|[->| ->]]; reflexivity.
Qed.

Lemma inverse_conditional_regions_witness :
  unless_pass [text_var "draft" "false"; text_var "final" "yes"]
    (L "{{#unless draft}}ready{{/unless}} {{#unless final}}pending{{/unless}}")
  = Val (L "ready ").
Proof.
  destruct (inverse_conditional_regions
              [text_var "draft" "false"; text_var "final" "yes"]
              (L "{{#unless draft}}ready{{/unless}} {{#unless final}}pending{{/unless}}"))
    as [H _].
  - repeat constructor.
  - rewrite H. reflexivity.
Defined.


(* ================================================================== *)
(** ** Variables and templates *)

Lemma names_after_update n x vars :
  map name
    (map (fun v => if text_eqb (name v) n
                   then {| name := name v; value := x; type := type v;
                           description := description v |}
                   else v) vars)
  = map name vars.
Proof.
  rewrite map_map. apply map_ext. intros v. now destruct (text_eqb (name v) n).
Qed.

Lemma NoDup_map_filter {A B} (f : A -> B) (p : A -> bool) l :
  NoDup (map f l) -> NoDup (map f (filter p l)).
Proof.
  induction l as [|x l IH]; [auto|]. cbn [map filter]. intros H.
  inversion H as [|? ? Hx Hl]; subst. destruct (p x); [|auto].
  cbn [map]. constructor; [|auto]. intros Hin. apply Hx.
  apply in_map_iff in Hin as (y & Hy & Hin). apply filter_In in Hin as [Hin _].
  apply in_map_iff. eauto.
Qed.

(** X18.  On variables whose names are pairwise distinct, the operations
    of the hook keep them so.  [updateVariable] changes no name and gives
    the variable of the given name its new value; [removeVariable] leaves
    no variable of the given name; the panel hands a new variable on only
    when its name and value are non-empty and the name is not in use, and
    removing the variable it added gives back the former variables. *)
Theorem variable_names_stay_distinct (s : VariablesState) :
  NoDup (map name (variables s)) ->
  (forall n x,
     map name (variables (updateVariable n x s)) = map name (variables s)
     /\ NoDup (map name (variables (updateVariable n x s)))
     /\ (forall v, In v (variables (updateVariable n x s)) -> name v = n -> value v = x))
  /\ (forall n,
        NoDup (map name (variables (removeVariable n s)))
        /\ ~ In n (map name (variables (removeVariable n s))))
  /\ (forall newVariable variable,
        handleAddVariable (variables s) newVariable = inr variable ->
        name variable <> [] /\ value variable <> []
        /\ NoDup (map name (variables (addVariable variable s)))
        /\ variables (removeVariable (name variable) (addVariable variable s))
           = variables s).
Proof.
  intros Hnd. split; [|split].
  - intros n x. unfold updateVariable. cbn [variables setVariables].
    rewrite names_after_update. split; [reflexivity|]. split; [exact Hnd|].
    intros v Hin Hn. apply in_map_iff in Hin as (u & Hu & _).
    destruct (text_eqb (name u) n) eqn:E; subst v; [reflexivity|].
    apply text_eqb_neq in E. congruence.
  - intros n. unfold removeVariable, notify. cbn [variables setVariables]. split.
    + now apply NoDup_map_filter.
    + intros Hin. apply in_map_iff in Hin as (v & Hv & Hin).
      apply filter_In in Hin as [_ Hne]. apply negb_true_iff, text_eqb_neq in Hne.
      congruence.
  - intros nv v. unfold handleAddVariable.
    destruct (given (new_name nv)) eqn:En; [|discriminate].
    destruct (given (new_value nv)) eqn:Ev; [|discriminate].
    cbn [negb orb].
    destruct (existsb _ (variables s)) eqn:Ex; [discriminate|].
    intros [= <-]. cbn [name value].
    destruct (new_name nv) as [n|]; [|discriminate].
    destruct (new_value nv) as [x|]; [|discriminate].
    cbn [given or_undefined] in *.
    assert (Hfresh : forall u, In u (variables s) -> name u <> n).
    { intros u Hu Heq.
      assert (existsb (fun v => text_eqb (name v) n) (variables s) = true);
        [|congruence].
      apply existsb_exists. exists u. split; [exact Hu|]. now apply text_eqb_eq. }
    split; [now destruct n|]. split; [now destruct x|]. split.
    + unfold addVariable, notify. cbn [variables setVariables name].
      rewrite map_app. cbn [map name]. apply NoDup_app; [exact Hnd | repeat constructor; intros [] |].
      intros a Ha [Hb|[]]. subst a. apply in_map_iff in Ha as (u & Hu & Hin).
      now apply (Hfresh u).
    + unfold removeVariable, addVariable, notify. cbn [variables setVariables name].
      rewrite filter_app. cbn [filter name].
      replace (text_eqb n n) with true by (symmetry; now apply text_eqb_eq).
      cbn [negb]. rewrite app_nil_r. apply filter_all.
      intros u Hu. apply negb_true_iff, text_eqb_neq. now apply Hfresh.
Qed.

Lemma variable_names_stay_distinct_witness :
  map name (variables (updateVariable (L "author") (L "Ann") author_only))
  = [L "author"]
  /\ ~ In (L "author") (map name (variables (removeVariable (L "author") author_only))).
Proof.
  assert (Hnd : NoDup (map name (variables author_only))).
  { cbn. constructor; [intros []|constructor]. }
  destruct (variable_names_stay_distinct author_only Hnd) as (Hu & Hr & _).
  split.
  - exact (proj1 (Hu (L "author") (L "Ann"))).
  - exact (proj2 (Hr (L "author"))).
Defined.

(** X19.  [deleteTemplate] never removes a built-in template (one whose id
    does not begin with user-): for such an id it changes nothing and shows
    an error; for another id, when the storage takes the new list, it
    leaves no template of that id and keeps every built-in one.
    [saveTemplate] adds the template last, under the id user- followed by
    the time, so that it can be deleted again.  After either the storage
    holds exactly the user templates of the hook.  [loadTemplate] returns
    [null] and changes nothing for an id that no template has. *)
Theorem built_in_templates_are_kept (setItem_takes : list Template -> bool)
    (s : VariablesState) :
  (forall id,
     starts_with (L "user-") id = false ->
     deleteTemplate setItem_takes id s
     = Val (notify toast_error (L "Cannot delete built-in templates") s))
  /\ (forall id,
        starts_with (L "user-") id = true ->
        setItem_takes
          (filter is_user_template
             (filter (fun t => negb (text_eqb (template_id t) id)) (templates s)))
        = true ->
        exists s',
          deleteTemplate setItem_takes id s = Val s'
          /\ (forall t, In t (templates s) -> is_user_template t = false ->
                        In t (templates s'))
          /\ (forall t, In t (templates s') -> template_id t <> id)
          /\ saved_templates s' = Some (filter is_user_template (templates s')))
  /\ (forall now template,
        setItem_takes
          (filter is_user_template (templates s ++ [as_user_template now template]))
        = true ->
        exists s',
          saveTemplate setItem_takes now template s = Val s'
          /\ templates s' = templates s ++ [as_user_template now template]
          /\ is_user_template (as_user_template now template) = true
          /\ saved_templates s' = Some (filter is_user_template (templates s')))
  /\ (forall Function_call id,
        (forall t, In t (templates s) -> template_id t <> id) ->
        loadTemplate Function_call id s = (s, Val None)).
Proof.
  split; [|split; [|split]].
  - intros id Eid. unfold deleteTemplate. now rewrite Eid.
  - intros id Eid Htakes. unfold deleteTemplate, store_user_templates.
    rewrite Eid, Htakes. cbn [negb bind]. eexists. split; [reflexivity|].
    cbn [templates saved_templates notify]. split; [|split].
    + intros t Hin Hbuilt. apply filter_In. split; [exact Hin|].
      apply negb_true_iff, text_eqb_neq. intros Heq.
      unfold is_user_template in Hbuilt. rewrite Heq in Hbuilt. congruence.
    + intros t Hin. apply filter_In in Hin as [_ Hne].
      now apply negb_true_iff, text_eqb_neq in Hne.
    + reflexivity.
  - intros now template Htakes. unfold saveTemplate, store_user_templates.
    fold (as_user_template now template). rewrite Htakes. cbn [bind].
    eexists. split; [reflexivity|]. cbn [templates saved_templates notify].
    split; [reflexivity|]. split; reflexivity.
  - intros Function_call id Hnone. unfold loadTemplate.
    destruct (find _ (templates s)) as [t|] eqn:E; [|reflexivity].
    apply find_some in E as [Hin Heq]. apply text_eqb_eq in Heq.
    now destruct (Hnone t Hin).
Qed.

(* ================================================================== *)
(** ** The descriptors of the scanner *)

Lemma all_from_lies_in r total inp :
  forall skip pos ms before,
    all_from r total skip pos inp = Val ms ->
    pos = length before ->
    Forall (fun mt =>
              lies_in (before ++ inp) (m_index mt) (m_text mt)
              /\ exists rest, Steps total r (m_text mt ++ rest) rest) ms.
Proof.
  induction inp as [|x inp IH]; intros skip pos ms before H Hpos.
  - destruct skip; cbn [all_from] in H.
    + destruct (match_here_cases r total pos [])
        as [E|(t & rest & c & Hs & Hst & E)]; rewrite E in H; cbn [bind] in H;
        injection H as <-; [constructor|].
      constructor; [|constructor]. cbn [m_index m_text].
      symmetry in Hs. apply app_eq_nil in Hs as [-> ->]. split.
      * exists before, []. now rewrite Hpos.
      * exists []. exact Hst.
    + injection H as <-. constructor.
  - destruct skip as [|skip]; cbn [all_from] in H.
    + destruct (match_here_cases r total pos (x :: inp))
        as [E|(t & rest & c & Hs & Hst & E)]; rewrite E in H; cbn [bind] in H.
      * specialize (IH 0 (S pos) ms (before ++ [x]) H).
        rewrite length_app, <- app_assoc in IH. cbn [length app] in IH.
        apply IH. lia.
      * cbn [m_text] in H.
        destruct (all_from r total (pred (length t)) (S pos) inp) as [more| |] eqn:Em;
          cbn [bind] in H; try discriminate.
        injection H as <-. constructor.
        -- cbn [m_index m_text]. split.
           ++ exists before, rest. now rewrite Hs, Hpos.
           ++ exists rest. now rewrite <- Hs.
        -- specialize (IH _ (S pos) more (before ++ [x]) Em).
           rewrite length_app, <- app_assoc in IH. cbn [length app] in IH.
           apply IH. lia.
    + specialize (IH skip (S pos) ms (before ++ [x]) H).
      rewrite length_app, <- app_assoc in IH. cbn [length app] in IH.
      apply IH. lia.
Qed.

Lemma matchAll_lies_in r s ms :
  matchAll r s = Val ms ->
  Forall (fun mt =>
            lies_in s (m_index mt) (m_text mt)
            /\ exists rest, Steps (length s) r (m_text mt ++ rest) rest) ms.
Proof.
  intros H. apply (all_from_lies_in r (length s) s 0 0 ms [] H eq_refl).
Qed.

Lemma taken_nonempty total a r taken rest :
  must_take a r = true -> Steps total r (taken ++ rest) rest -> taken <> [].
Proof.
  intros Hm Hs ->. cbn [app] in Hs.
  destruct (must_take_spec total a r rest rest Hs Hm) as (b & af & E).
  apply (f_equal (@length ascii)) in E. rewrite !length_app in E. cbn [length] in E.
  rewrite length_app in E. lia.
Qed.

Ltac made_step :=
  intros st mt d; destruct st as [cs k]; cbn [fst];
  intros H; apply in_app_or in H as [H|[<-|[]]];
  [now left | right; repeat split; reflexivity].

Lemma scan_chart_made st mt d :
  In d (fst (scan_chart st mt)) -> In d (fst st) \/ made_from mt d.
Proof.
  unfold scan_chart. destruct st as [cs k].
  destruct (chart_type mt) as [ty|]; [|now left].
  cbn [fst]. intros H. apply in_app_or in H as [H|[<-|[]]]; [now left|].
  right. repeat split; reflexivity.
Qed.

Lemma scan_timeline_made st mt d :
  In d (fst (scan_timeline st mt)) -> In d (fst st) \/ made_from mt d.
Proof. revert st mt d. made_step. Qed.

Lemma scan_progress_made st mt d :
  In d (fst (scan_progress st mt)) -> In d (fst st) \/ made_from mt d.
Proof. revert st mt d. made_step. Qed.

Lemma scan_tasks_made st mt d :
  In d (fst (scan_tasks st mt)) -> In d (fst st) \/ made_from mt d.
Proof. revert st mt d. made_step. Qed.

Lemma scan_alert_made st mt d :
  In d (fst (scan_alert st mt)) -> In d (fst st) \/ made_from mt d.
Proof. revert st mt d. made_step. Qed.

Lemma scan_stats_made st mt d :
  In d (fst (scan_stats st mt)) -> In d (fst st) \/ made_from mt d.
Proof. revert st mt d. made_step. Qed.

Lemma insert_sorted_sorted x l :
  Sorted (fun a b => startIndex a <= startIndex b) l ->
  Sorted (fun a b => startIndex a <= startIndex b) (insert_sorted x l).
Proof.
  induction 1 as [|y l Hl IH Hy]; cbn [insert_sorted].
  - repeat constructor.
  - destruct (Nat.leb_spec (startIndex x) (startIndex y)) as [Hle|Hgt].
    + constructor; [now constructor | now constructor].
    + constructor; [exact IH|].
      destruct l as [|z l]; cbn [insert_sorted].
      * constructor. lia.
      * inversion Hy; subst.
        destruct (startIndex x <=? startIndex z); constructor; lia.
Qed.

Lemma sort_by_start_sorted l :
  Sorted (fun a b => startIndex a <= startIndex b) (sort_by_start l).
Proof.
  induction l as [|x l IH]; [constructor|]. now apply insert_sorted_sorted.
Qed.

Lemma slice_of (subject before taken after : text) :
  subject = before ++ taken ++ after ->
  taken = firstn (length taken) (skipn (length before) subject)
  /\ length before + length taken <= length subject.
Proof.
  intros ->. rewrite skipn_prefix, firstn_app, Nat.sub_diag, firstn_all.
  cbn [firstn]. rewrite app_nil_r, !length_app. split; [reflexivity | lia].
Qed.

(** X20.  The scanner never raises, and what it returns is in the order of
    the start indices.  Every descriptor is a non-empty slice of the text:
    its content is what the text holds from its start index up to its end
    index, which lies within the text. *)
Theorem descriptors_are_slices markdown :
  exists comps,
    smartComponents markdown = Val comps
    /\ Sorted (fun a b => startIndex a <= startIndex b) comps
    /\ Forall (fun d =>
                 content d <> []
                 /\ endIndex d = startIndex d + length (content d)
                 /\ endIndex d <= length markdown
                 /\ content d
                    = firstn (endIndex d - startIndex d)
                        (skipn (startIndex d) markdown)) comps.
Proof.
  destruct (smartComponents_spec markdown)
    as (m1 & m2 & m3 & m4 & m5 & m6 & H1 & H2 & H3 & H4 & H5 & H6 & H).
  eexists. split; [exact H|]. split; [apply sort_by_start_sorted|].
  apply Forall_forall. intros d Hd. apply sort_by_start_in in Hd.
  assert (Hfrom : exists r mt a,
             must_take a r = true
             /\ lies_in markdown (m_index mt) (m_text mt)
             /\ (exists rest, Steps (length markdown) r (m_text mt ++ rest) rest)
             /\ made_from mt d).
  { apply (fold_scan scan_stats _ scan_stats_made) in Hd as [Hd|(mt & Hin & Hq)].
    2:{ apply matchAll_lies_in in H6. rewrite Forall_forall in H6.
        destruct (H6 mt Hin) as [Hl Hs].
        exists stats_syntax, mt, "`"%char. repeat split; auto; apply Hq. }
    apply (fold_scan scan_alert _ scan_alert_made) in Hd as [Hd|(mt & Hin & Hq)].
    2:{ apply matchAll_lies_in in H5. rewrite Forall_forall in H5.
        destruct (H5 mt Hin) as [Hl Hs].
        exists alert_syntax, mt, ":"%char. repeat split; auto; apply Hq. }
    apply (fold_scan scan_tasks _ scan_tasks_made) in Hd as [Hd|(mt & Hin & Hq)].
    2:{ apply matchAll_lies_in in H4. rewrite Forall_forall in H4.
        destruct (H4 mt Hin) as [Hl Hs].
        exists task_syntax, mt, "`"%char. repeat split; auto; apply Hq. }
    apply (fold_scan scan_progress _ scan_progress_made) in Hd as [Hd|(mt & Hin & Hq)].
    2:{ apply matchAll_lies_in in H3. rewrite Forall_forall in H3.
        destruct (H3 mt Hin) as [Hl Hs].
        exists progress_syntax, mt, "["%char. repeat split; auto; apply Hq. }
    apply (fold_scan scan_timeline _ scan_timeline_made) in Hd as [Hd|(mt & Hin & Hq)].
    2:{ apply matchAll_lies_in in H2. rewrite Forall_forall in H2.
        destruct (H2 mt Hin) as [Hl Hs].
        exists timeline_syntax, mt, "`"%char. repeat split; auto; apply Hq. }
    apply (fold_scan scan_chart _ scan_chart_made) in Hd as [[]|(mt & Hin & Hq)].
    apply matchAll_lies_in in H1. rewrite Forall_forall in H1.
    destruct (H1 mt Hin) as [Hl Hs].
    exists chart_syntax, mt, "`"%char. repeat split; auto; apply Hq. }
  destruct Hfrom as (r & mt & a & Hmust & (before & after & Hsub & Hidx) & (rest & Hs)
                     & Hstart & Hend & Hcontent).
  destruct (slice_of _ _ _ _ Hsub) as [Hslice Hlen].
  rewrite Hstart, Hend, Hcontent, Hidx.
  split; [exact (taken_nonempty _ _ _ _ _ Hmust Hs)|].
  split; [reflexivity|]. split; [exact Hlen|].
  rewrite Nat.add_comm, Nat.add_sub. exact Hslice.
Qed.

(* ------------------------------------------------------------------ *)
(** ** A progress marker in the middle of a text *)

Lemma fenced_syntaxes :
  (exists t, chart_syntax = lits (L "```") t)
  /\ (exists t, timeline_syntax = lits (L "```") t)
  /\ (exists t, task_syntax = lits (L "```") t)
  /\ (exists t, stats_syntax = lits (L "```") t)
  /\ (exists t, alert_syntax = lits (L ":::") t).
Proof. repeat split; eexists; reflexivity. Qed.

Lemma progress_located before ds after :
  without "[" before = true ->
  ds <> [] -> forallb is_digit ds = true ->
  occurs (L "[progress:") after = false ->
  matchAll progress_syntax (before ++ marker ds ++ after)
  = Val [ {| m_index := length before; m_text := marker ds; m_caps := [(1, ds)] |} ].
Proof.
  intros Hb Hne Hd Hafter. unfold matchAll.
  rewrite all_from_prefix
    by (rewrite progress_syntax_eq; apply (no_match_past "[" (L "progress:")); exact Hb).
  cbn [Nat.add].
  rewrite (all_from_hit _ _ _ _ _ [(1, ds)]).
  - rewrite all_from_matchless; [reflexivity|].
    rewrite progress_syntax_eq. now apply matchless_absent.
  - discriminate.
  - unfold match_here, marker. rewrite <- !app_assoc.
    rewrite progress_plain_match by assumption.
    f_equal. f_equal. f_equal.
    replace (L "[progress:" ++ ds ++ L "]" ++ after)
      with ((L "[progress:" ++ ds ++ L "]") ++ after) by (now rewrite <- !app_assoc).
    apply firstn_taken.
Qed.

(** X21.  A text with one progress marker, [[progress:digits]], and no
    other component syntax (no three backquotes, no three colons, no
    bracket before the marker and no other marker after it): the hook finds
    the one component, at the place of the marker, and the enhanced text is
    the text with the placeholder of index 0 in the place of the marker. *)
Theorem progress_marker_in_context before ds after :
  without "[" before = true ->
  ds <> [] -> forallb is_digit ds = true ->
  occurs (L "[progress:") after = false ->
  occurs (L "```") (before ++ marker ds ++ after) = false ->
  occurs (L ":::") (before ++ marker ds ++ after) = false ->
  useSmartComponents (before ++ marker ds ++ after)
  = Val {| sc_components :=
             [ {| sc_type := L "progress"; startIndex := length before;
                  endIndex := length before + length (marker ds);
                  content := marker ds;
                  sc_component := ProgressBar (L "progress-0") (parseInt ds) None |} ];
           enhancedMarkdown := before ++ L "<!--SMART_COMPONENT_0-->" ++ after;
           componentMap := [ (L "<!--SMART_COMPONENT_0-->",
                              ProgressBar (L "progress-0") (parseInt ds) None) ];
           hasSmartComponents := true |}.
Proof.
  intros Hb Hne Hd Hafter Hfence Hcolon.
  set (doc := before ++ marker ds ++ after) in *.
  destruct (smartComponents_spec doc)
    as (m1 & m2 & m3 & m4 & m5 & m6 & H1 & H2 & H3 & H4 & H5 & H6 & H).
  destruct fenced_syntaxes as ((t1 & E1) & (t2 & E2) & (t4 & E4) & (t6 & E6) & (t5 & E5)).
  rewrite E1 in H1. apply (matchAll_absent _ _ _ _ Hfence) in H1.
  rewrite E2 in H2. apply (matchAll_absent _ _ _ _ Hfence) in H2.
  rewrite E4 in H4. apply (matchAll_absent _ _ _ _ Hfence) in H4.
  rewrite E6 in H6. apply (matchAll_absent _ _ _ _ Hfence) in H6.
  rewrite E5 in H5. apply (matchAll_absent _ _ _ _ Hcolon) in H5.
  unfold doc in H3. rewrite (progress_located before ds after Hb Hne Hd Hafter) in H3.
  injection H3 as <-. subst m1 m2 m4 m5 m6.
  unfold useSmartComponents. rewrite H. cbn [bind fold_left scan_progress fst app].
  cbn [sort_by_start fold_right insert_sorted].
  unfold component_of, group, capture. cbn [m_caps get_cap Nat.eqb m_index m_text].
  unfold transformMarkdown. cbn [transform_from content component_map_from sc_component
                                  length Nat.eqb negb].
  f_equal. f_equal.
  unfold doc, marker.
  change (L "[progress:" ++ ds ++ L "]") with ("["%char :: L "progress:" ++ ds ++ L "]").
  apply (replace_string_located "[" (L "progress:" ++ ds ++ L "]"));
    [assumption | reflexivity].
Qed.

Lemma progress_marker_in_context_witness :
  useSmartComponents (L "Done: " ++ marker (L "75") ++ L " of the work")
  = Val {| sc_components :=
             [ {| sc_type := L "progress"; startIndex := 6; endIndex := 19;
                  content := L "[progress:75]";
                  sc_component := ProgressBar (L "progress-0") (parseInt (L "75")) None |} ];
           enhancedMarkdown := L "Done: <!--SMART_COMPONENT_0--> of the work";
           componentMap := [ (L "<!--SMART_COMPONENT_0-->",
                              ProgressBar (L "progress-0") (parseInt (L "75")) None) ];
           hasSmartComponents := true |}.
Proof.
  assert (Hne : L "75" <> []) by discriminate.
  exact (progress_marker_in_context (L "Done: ") (L "75") (L " of the work")
           eq_refl Hne eq_refl eq_refl eq_refl eq_refl).
Defined.

(* ================================================================== *)
(** ** The task list *)

Lemma task_marker_regex :
  RegExp_new (L taskMarkerRegex)
  = Val {| re_syntax := task_marker_syntax; re_groups := 0 |}.
Proof. reflexivity. Qed.

Lemma take_drop p s : s = take_while p s ++ drop_while p s.
Proof.
  induction s as [|c s IH]; [reflexivity|]. cbn [take_while drop_while].
  destruct (p c); [|reflexivity]. cbn [app]. now f_equal.
Qed.

Lemma take_while_all p s : forallb p (take_while p s) = true.
Proof.
  induction s as [|c s IH]; [reflexivity|]. cbn [take_while].
  destruct (p c) eqn:E; [|reflexivity]. cbn [forallb]. now rewrite E.
Qed.

Lemma drop_while_head p s :
  match drop_while p s with x :: _ => p x = false | [] => True end.
Proof.
  induction s as [|c s IH]; [exact I|]. cbn [drop_while].
  destruct (p c) eqn:E; [exact IH | exact E].
Qed.

Lemma anchored_later r total pos inp :
  length inp < total -> exec_from (RSeq RBol r) total pos inp = Val None.
Proof.
  revert pos. induction inp as [|x inp IH]; intros pos Hlt; cbn [exec_from].
  - unfold match_here. cbn [m].
    replace (length (@nil ascii) =? total) with false
      by (symmetry; apply Nat.eqb_neq; cbn [length] in *; lia).
    reflexivity.
  - unfold match_here. cbn [m].
    replace (length (x :: inp) =? total) with false
      by (symmetry; apply Nat.eqb_neq; lia).
    cbn [bind]. apply IH. cbn [length] in Hlt. lia.
Qed.

Lemma space_set x : set_matches false [CSpace true] x = is_space x.
Proof. unfold set_matches. simpl. now destruct (is_space x). Qed.

Lemma box_set x :
  set_matches false [CChar "x"; CChar "X"; CSpace true] x = box_char x.
Proof.
  unfold set_matches, box_char, is_char. simpl.
  now destruct (Ascii.eqb x "x"), (Ascii.eqb x "X"), (is_space x).
Qed.

Lemma exec_task_marker task :
  exec task_marker_syntax task
  = Val (match task with
         | a :: c :: b :: rest =>
             if is_char "[" a && box_char c && is_char "]" b
             then Some {| m_index := 0;
                          m_text := a :: c :: b :: take_while is_space rest;
                          m_caps := [] |}
             else None
         | _ => None
         end).
Proof.
  unfold exec, task_marker_syntax.
  destruct task as [|a task].
  { reflexivity. }
  cbn [exec_from]. unfold match_here at 1. cbn [m]. rewrite Nat.eqb_refl.
  unfold is_char.
  destruct (Ascii.eqb a "[") eqn:Ea; cbn [andb].
  2:{ cbn [bind]. rewrite anchored_later by (cbn [length]; lia).
      now destruct task as [|c [|b rest]]. }
  destruct task as [|c task].
  { cbn [bind]. now rewrite anchored_later by (cbn [length]; lia). }
  rewrite box_set.
  destruct (box_char c) eqn:Ec; cbn [andb].
  2:{ cbn [bind]. rewrite anchored_later by (cbn [length]; lia).
      now destruct task as [|b rest]. }
  destruct task as [|b rest].
  { cbn [bind]. now rewrite anchored_later by (cbn [length]; lia). }
  destruct (Ascii.eqb b "]") eqn:Eb; cbn [andb].
  2:{ cbn [bind]. now rewrite anchored_later by (cbn [length]; lia). }
  match goal with
  | |- context [rep ?f ?bd ?cl 0 None true rest [] ?k] =>
      replace (rep f bd cl 0 None true rest [] k)
        with (k (drop_while is_space rest) [])
  end.
  - cbn [bind]. f_equal. f_equal. f_equal.
    rewrite (take_drop is_space rest) at 1 3.
    change (a :: c :: b :: take_while is_space rest ++ drop_while is_space rest)
      with ((a :: c :: b :: take_while is_space rest) ++ drop_while is_space rest).
    apply firstn_taken.
  - symmetry.
    match goal with
    | |- rep ?f ?bd ?cl 0 None true rest [] ?k = _ =>
        transitivity
          (rep f bd cl 0 None true
             (take_while is_space rest ++ drop_while is_space rest) [] k);
          [now rewrite <- take_drop|]
    end.
    apply (greedy_run _ _ (set_matches false [CSpace true])).
    + reflexivity.
    + apply clear_caps_nil.
    + pose proof (take_while_all is_space rest) as H.
      rewrite forallb_forall in *. intros x Hx. rewrite space_set. auto.
    + pose proof (drop_while_head is_space rest) as H.
      destruct (drop_while is_space rest); [exact I|]. now rewrite space_set.
    + lia.
    + rewrite <- take_drop. lia.
    + discriminate.
Qed.

(** X22.  How [TaskList] reads a task.  A task that begins with a
    bracket, one of x, X or a white space character, and a closing bracket
    is shown without that marker and without the white space after it, and
    is completed exactly when the character is x or X.  Any other task,
    one whose marker is indented for instance, is shown as it is and is not
    completed. *)
Theorem task_line_parsing task :
  parseTask task
  = Val (match task with
         | a :: c :: b :: rest =>
             if is_char "[" a && box_char c && is_char "]" b
             then {| completed := is_char "x" c || is_char "X" c;
                     task_text := drop_while is_space rest |}
             else {| completed := false; task_text := task |}
         | _ => {| completed := false; task_text := task |}
         end).
Proof.
  unfold parseTask. rewrite task_marker_regex. cbn [bind].
  unfold replace_first. cbn [re_syntax re_groups]. rewrite exec_task_marker.
  destruct task as [|a [|c [|b rest]]]; cbn [bind]; try reflexivity.
  - f_equal. f_equal. cbn. now rewrite andb_false_r.
  - f_equal. f_equal. cbn. now rewrite !andb_false_r.
  - unfold is_char. cbn [starts_with L list_ascii_of_string].
    rewrite !(Ascii.eqb_sym _ a), !(Ascii.eqb_sym _ b), !(Ascii.eqb_sym _ c).
    destruct (Ascii.eqb a "[") eqn:Ea; cbn [andb bind]; [|reflexivity].
    destruct (box_char c) eqn:Ec; cbn [andb bind].
    2:{ unfold box_char, is_char in Ec.
        destruct (Ascii.eqb c "x"), (Ascii.eqb c "X"); cbn in Ec; try discriminate.
        reflexivity. }
    destruct (Ascii.eqb b "]") eqn:Eb; cbn [andb bind].
    2:{ now rewrite !andb_false_r. }
    rewrite !andb_true_r. cbn [m_index m_text firstn app Nat.add].
    f_equal. f_equal.
    change (GetSubstitution 0 _ _ []) with (@nil ascii). cbn [app].
    rewrite (take_drop is_space rest) at 2.
    change (a :: c :: b :: take_while is_space rest ++ drop_while is_space rest)
      with ((a :: c :: b :: take_while is_space rest) ++ drop_while is_space rest).
    apply skipn_prefix.
Qed.

(* ================================================================== *)
(** ** Recent documents *)

Lemma NoDup_firstn {A} n (l : list A) : NoDup l -> NoDup (firstn n l).
Proof.
  revert l. induction n as [|n IH]; intros [|x l] H; cbn [firstn]; try constructor.
  - inversion H as [|? ? Hx Hl]; subst. intros Hin. apply Hx.
    exact (firstn_In _ _ _ Hin).
  - inversion H; subst. now apply IH.
Qed.

Lemma NoDup_titles_filter (p : RecentDocument -> bool) l :
  NoDup (map doc_title l) -> NoDup (map doc_title (filter p l)).
Proof.
  induction l as [|x l IH]; [auto|]. cbn [map filter]. intros H.
  inversion H as [|? ? Hx Hl]; subst. destruct (p x); [|auto].
  cbn [map]. constructor; [|auto]. intros Hin. apply Hx.
  apply in_map_iff in Hin as (y & Hy & Hin). apply filter_In in Hin as [Hin _].
  apply in_map_iff. eauto.
Qed.

Lemma map_firstn_titles n (l : list RecentDocument) :
  map doc_title (firstn n l) = firstn n (map doc_title l).
Proof.
  revert l. induction n as [|n IH]; intros [|x l]; cbn [firstn map]; [reflexivity..|].
  now rewrite IH.
Qed.

(** X23.  [updateRecentDocuments] keeps at most ten documents, the one
    just loaded first and no other under its title; the others are former
    ones in their order, so titles that were pairwise distinct stay so.
    What is kept of the content is the content itself up to 200
    characters, and otherwise its first 200 characters followed by three
    dots. *)
Theorem recent_documents_bounded (savedAt title content : text)
    (recentDocuments : list RecentDocument) :
  let updated := updateRecentDocuments savedAt title content recentDocuments in
  length updated <= 10
  /\ (exists others,
        updated = {| doc_title := title; doc_savedAt := savedAt;
                     doc_content := preview content |} :: others
        /\ (forall doc, In doc others ->
                        In doc recentDocuments /\ doc_title doc <> title)
        /\ (Forall (fun doc => doc_title doc <> title) recentDocuments ->
            others = firstn 9 recentDocuments))
  /\ (NoDup (map doc_title recentDocuments) -> NoDup (map doc_title updated))
  /\ length (preview content) <= 203
  /\ (length content <= 200 -> preview content = content)
  /\ (200 < length content -> preview content = firstn 200 content ++ L "...").
Proof.
  cbv zeta. unfold updateRecentDocuments.
  set (others := filter (fun doc => negb (text_eqb (doc_title doc) title))
                   recentDocuments).
  assert (Hothers : forall doc, In doc others ->
                      In doc recentDocuments /\ doc_title doc <> title).
  { intros doc Hin. apply filter_In in Hin as [Hin Hne]. split; [exact Hin|].
    now apply negb_true_iff, text_eqb_neq in Hne. }
  change (firstn 10 (?x :: others)) with (x :: firstn 9 others).
  split; [|split; [|split; [|split; [|split]]]].
  - cbn [length]. pose proof (firstn_le_length 9 others). lia.
  - exists (firstn 9 others). split; [reflexivity|]. split.
    + intros doc Hin. apply Hothers. exact (firstn_In _ _ _ Hin).
    + intros Hall. f_equal. apply filter_all. intros doc Hin.
      rewrite Forall_forall in Hall. apply negb_true_iff, text_eqb_neq. now apply Hall.
  - intros Hnd. cbn [map doc_title]. constructor.
    + intros Hin. apply in_map_iff in Hin as (doc & Ht & Hin).
      apply firstn_In in Hin. now destruct (Hothers doc Hin) as [_ Hne].
    + rewrite map_firstn_titles. apply NoDup_firstn.
      now apply NoDup_titles_filter.
  - unfold preview. rewrite length_app. pose proof (firstn_le_length 200 content).
    destruct (200 <? length content); [change (length (L "...")) with 3|cbn [length]]; lia.
  - intros Hle. unfold preview.
    replace (200 <? length content) with false by (symmetry; apply Nat.ltb_ge; lia).
    rewrite app_nil_r. now apply firstn_all2.
  - intros Hlt. unfold preview.
    now replace (200 <? length content) with true by (symmetry; apply Nat.ltb_lt; lia).
Qed.
